(** * try_gif: folder of still images to animated GIF

    A shallow embedding of [src/try_gif.py] and the properties its
    specification states about it.

    - [Py]: the fragment of the Python runtime the script relies on:
      exceptions, unbounded integers, IEEE-754 binary64 floats (through the
      standard library's [SpecFloat], which is executable and axiom free),
      [int / int], [int * float], [int(float)], [min], [max], [round],
      string predicates, [re.split(r'(\d+)', s)] and the stable [sorted].
    - [Pillow]: the observable behaviour of the imaging calls the script
      makes ([Image.new], [Image.resize], [Image.paste], [Image.open]).
    - [TryGif]: the six functions of the script, in source order.
    - [Spec]: the rules of the specification that are compared with the
      script, written from the specification's words (the resize rule in
      exact rational arithmetic).
    - [Shape]: the invariants of sort keys and of the pieces of a name.
    - [B64]: the real value of a binary64 and the notions the rounding
      lemmas are stated with.
    - [Samples]: concrete directories and images.
    - the lemmas, grouped by the function they are about, and after them
      further properties of each function and of the script run as a
      program. *)

From Stdlib Require Import ZArith List String Ascii Bool Lia.
From Stdlib Require Import Sorted Permutation.
From Stdlib Require Import Floats.SpecFloat.
From Stdlib Require Import QArith Qround Qminmax.
From Stdlib Require Import Reals Lra.
Import ListNotations.

Local Open Scope Z_scope.

(* ================================================================== *)
(** * The Python runtime fragment *)
(* ================================================================== *)

Module Py.

(** ** Exceptions and results *)

(** The exceptions that the script or the calls it makes can raise.  The
    payload of [ValueError] and [FileNotFoundError] is the message, which
    tells the script's own [raise] statements from the library's. *)
Inductive exn : Type :=
| ZeroDivisionError
| OverflowError
| TypeError
| ValueError (msg : string)
| FileNotFoundError (msg : string)
| UnidentifiedImageError (path : string)
| OSError (path : string).

Inductive result (A : Type) : Type :=
| Ok (a : A)
| Raise (e : exn).
Arguments Ok {A} a.
Arguments Raise {A} e.

Definition bind {A B} (r : result A) (k : A -> result B) : result B :=
  match r with
  | Ok a => k a
  | Raise e => Raise e
  end.

Declare Scope py_scope.
Delimit Scope py_scope with py.
Notation "x <- c ;; k" := (bind c (fun x => k))
  (at level 61, c at next level, right associativity) : py_scope.
Notation "' p <- c ;; k" := (bind c (fun p => k))
  (at level 61, p pattern, c at next level, right associativity) : py_scope.

(** ** binary64 *)

Definition prec : Z := 53.
Definition emax : Z := 1024.

Definition float : Type := spec_float.

Definition fdiv : float -> float -> float := SFdiv prec emax.
Definition fmul : float -> float -> float := SFmul prec emax.
Definition fltb : float -> float -> bool := SFltb.

Definition is_finite (x : float) : bool :=
  match x with
  | S754_zero _ | S754_finite _ _ _ => true
  | S754_infinity _ | S754_nan => false
  end.

(** An integer as the exact pair (mantissa, exponent 0); not normalised. *)
Definition exact_of_int (z : Z) : float :=
  match z with
  | Z0 => S754_zero false
  | Zpos p => S754_finite false p 0
  | Zneg p => S754_finite true p 0
  end.

(** [float(z)]: the nearest binary64 (ties to even); [OverflowError] when
    the integer is too large. *)
Definition float_of_int (z : Z) : result float :=
  let x := binary_normalize prec emax z 0 false in
  if is_finite x then Ok x else Raise OverflowError.

(** [a / b] on two integers.  CPython returns the correctly rounded
    quotient of the two integers themselves (which, below 2^53, is the
    quotient of the converted floats); it raises [ZeroDivisionError] on
    [b = 0] and [OverflowError] when the quotient exceeds the float range. *)
Definition int_truediv (a b : Z) : result float :=
  if b =? 0 then Raise ZeroDivisionError
  else
    let q := fdiv (exact_of_int a) (exact_of_int b) in
    if is_finite q then Ok q else Raise OverflowError.

(** [x / y] on two floats: only division by zero raises. *)
Definition float_truediv (x y : float) : result float :=
  match y with
  | S754_zero _ => Raise ZeroDivisionError
  | _ => Ok (fdiv x y)
  end.

(** [z * x] with an integer on the left: the integer is converted first;
    the product itself never raises (it may be infinite). *)
Definition int_mul_float (z : Z) (x : float) : result float :=
  (fz <- float_of_int z ;; Ok (fmul fz x))%py.

(** Magnitude of a finite float, rounded toward zero. *)
Definition trunc_mag (m : positive) (e : Z) : Z :=
  match e with
  | Z0 => Zpos m
  | Zpos _ => Z.shiftl (Zpos m) e
  | Zneg p => Z.shiftr (Zpos m) (Zpos p)
  end.

(** [int(x)]: rounds toward zero; infinities and NaN raise. *)
Definition int_of_float (x : float) : result Z :=
  match x with
  | S754_zero _ => Ok 0
  | S754_finite s m e => Ok (if s then - trunc_mag m e else trunc_mag m e)
  | S754_infinity _ => Raise OverflowError
  | S754_nan => Raise (ValueError "cannot convert float NaN to integer")
  end.

(** [round(x)] with one argument: nearest integer, ties to even. *)
Definition round_mag (m : positive) (e : Z) : Z :=
  match e with
  | Zneg p =>
      let d := 2 ^ Zpos p in
      let q := Zpos m / d in
      let r := Zpos m mod d in
      match Z.compare (2 * r) d with
      | Lt => q
      | Gt => q + 1
      | Eq => if Z.even q then q else q + 1
      end
  | _ => trunc_mag m e
  end.

Definition round_of_float (x : float) : result Z :=
  match x with
  | S754_zero _ => Ok 0
  | S754_finite s m e => Ok (if s then - round_mag m e else round_mag m e)
  | S754_infinity _ => Raise OverflowError
  | S754_nan => Raise (ValueError "cannot convert float NaN to integer")
  end.

(** [min(a, b)] and [max(a, b)] keep the first argument unless the second
    is strictly smaller (larger). *)
Definition min_float (a b : float) : float := if fltb b a then b else a.
Definition max_int (a b : Z) : Z := if a <? b then b else a.

(** ** Numbers: a Python value that is an [int] or a [float] *)

Inductive number : Type :=
| Int (z : Z)
| Float (x : float).

Definition fzero : float := S754_zero false.

(** [n > 0] *)
Definition number_gt0 (n : number) : bool :=
  match n with
  | Int z => 0 <? z
  | Float x => fltb fzero x
  end.

(** [n <= 0] *)
Definition number_le0 (n : number) : bool :=
  match n with
  | Int z => z <=? 0
  | Float x => SFleb x fzero
  end.

(** [1000 / n] *)
Definition int_div_number (a : Z) (n : number) : result float :=
  match n with
  | Int z => int_truediv a z
  | Float x => (fa <- float_of_int a ;; float_truediv fa x)%py
  end.

(** ** Strings

    A character is a code point below 256 (ASCII and Latin-1).  That is
    enough to tell apart the three classes Python distinguishes: the
    decimal digits, which [\d] matches and [int] reads; the characters
    [str.isdigit] accepts, which are the decimal digits and the
    superscripts one, two and three; and the rest. *)

Definition is_decimal (c : ascii) : bool :=
  let n := N_of_ascii c in ((48 <=? n) && (n <=? 57))%N.

Definition is_superscript (c : ascii) : bool :=
  let n := N_of_ascii c in ((n =? 178) || (n =? 179) || (n =? 185))%N.

Definition char_isdigit (c : ascii) : bool := is_decimal c || is_superscript c.

Definition digit_value (c : ascii) : Z := Z.of_N (N_of_ascii c) - 48.

(** Upper case is A to Z and, in Latin-1, 192 to 222 without the
    multiplication sign 215. *)
Definition lower_char (c : ascii) : ascii :=
  let n := N_of_ascii c in
  if ((65 <=? n) && (n <=? 90)
      || (192 <=? n) && (n <=? 222) && negb (n =? 215))%N
  then ascii_of_N (n + 32) else c.

Fixpoint all_decimal (s : string) : bool :=
  match s with
  | EmptyString => true
  | String c s' => is_decimal c && all_decimal s'
  end.

Fixpoint all_isdigit (s : string) : bool :=
  match s with
  | EmptyString => true
  | String c s' => char_isdigit c && all_isdigit s'
  end.

(** [s.isdigit()]: at least one character, all of them digits. *)
Definition str_isdigit (s : string) : bool :=
  match s with
  | EmptyString => false
  | String _ _ => all_isdigit s
  end.

(** [s.lower()] *)
Fixpoint str_lower (s : string) : string :=
  match s with
  | EmptyString => EmptyString
  | String c s' => String (lower_char c) (str_lower s')
  end.

Fixpoint int_of_digits (acc : Z) (s : string) : Z :=
  match s with
  | EmptyString => acc
  | String c s' => int_of_digits (10 * acc + digit_value c) s'
  end.

(** The message of the ValueError [int] raises, up to the quoted literal
    that follows it. *)
Definition invalid_literal_msg : string := "invalid literal for int() with base 10".

(** [int(s)] on a string [isdigit] accepts: only decimal digits are read. *)
Definition int_of_str (s : string) : result Z :=
  match s with
  | EmptyString => Raise (ValueError invalid_literal_msg)
  | String _ _ =>
      if all_decimal s then Ok (int_of_digits 0 s)
      else Raise (ValueError invalid_literal_msg)
  end.

(** [s < t] on strings: lexicographic on code points. *)
Fixpoint str_ltb (s t : string) : bool :=
  match s, t with
  | _, EmptyString => false
  | EmptyString, String _ _ => true
  | String a s', String b t' =>
      let x := N_of_ascii a in
      let y := N_of_ascii b in
      if (x <? y)%N then true
      else if (y <? x)%N then false
      else str_ltb s' t'
  end.

(** [re.split(r'(\d+)', s)].  The pattern has one capturing group, so the
    result alternates text and digit runs, starts and ends with a text
    piece, and a text piece is empty where a digit run touches an end of
    the string.  [cur] is the piece being read in reverse; [in_digits]
    tells whether it is a digit run. *)
Fixpoint rev_string (acc s : string) : string :=
  match s with
  | EmptyString => acc
  | String c s' => rev_string (String c acc) s'
  end.

Fixpoint split_runs (in_digits : bool) (cur : string) (s : string) : list string :=
  match s with
  | EmptyString =>
      if in_digits then [rev_string EmptyString cur; EmptyString]
      else [rev_string EmptyString cur]
  | String c s' =>
      if Bool.eqb (is_decimal c) in_digits
      then split_runs in_digits (String c cur) s'
      else rev_string EmptyString cur
             :: split_runs (is_decimal c) (String c EmptyString) s'
  end.

Definition re_split_digits (s : string) : list string :=
  split_runs false EmptyString s.

(** ** Sort keys and [sorted]

    A key is a list whose elements are integers or strings.  Lists compare
    lexicographically: the first position where the elements are not equal
    decides, with [<] on the two elements, and [<] between an [int] and a
    [str] raises [TypeError]. *)

Inductive key_elem : Type :=
| KInt (z : Z)
| KStr (s : string).

Definition elem_eqb (a b : key_elem) : bool :=
  match a, b with
  | KInt x, KInt y => x =? y
  | KStr s, KStr t => String.eqb s t
  | _, _ => false
  end.

Definition elem_ltb (a b : key_elem) : result bool :=
  match a, b with
  | KInt x, KInt y => Ok (x <? y)
  | KStr s, KStr t => Ok (str_ltb s t)
  | _, _ => Raise TypeError
  end.

Fixpoint key_ltb (k1 k2 : list key_elem) : result bool :=
  match k1, k2 with
  | _, [] => Ok false
  | [], _ :: _ => Ok true
  | a :: k1', b :: k2' =>
      if elem_eqb a b then key_ltb k1' k2' else elem_ltb a b
  end.

(** Sorting is stable and compares keys with [<] only.  A stable sort has
    one possible result, so any stable algorithm models it; insertion from
    the right is the simplest: an element moves past the elements after it
    that are strictly smaller, and no further. *)
Section Sorted.
Context {A : Type} (key : A -> list key_elem).

Fixpoint insert_by_key (x : A) (l : list A) : result (list A) :=
  match l with
  | [] => Ok [x]
  | y :: l' =>
      (lt <- key_ltb (key y) (key x) ;;
       if lt : bool then (r <- insert_by_key x l' ;; Ok (y :: r))
       else Ok (x :: y :: l'))%py
  end.

Fixpoint sorted_by_key (l : list A) : result (list A) :=
  match l with
  | [] => Ok []
  | x :: l' => (r <- sorted_by_key l' ;; insert_by_key x r)%py
  end.
End Sorted.

(** [[f(x) for x in l]] *)
Fixpoint map_result {A B : Type} (f : A -> result B) (l : list A) : result (list B) :=
  match l with
  | [] => Ok []
  | x :: l' => (y <- f x ;; ys <- map_result f l' ;; Ok (y :: ys))%py
  end.

(** [sorted(l, key=f)]: the keys are computed first, one per element and
    in order, then the elements are sorted by them. *)
Definition sorted {A : Type} (key : A -> result (list key_elem)) (l : list A)
    : result (list A) :=
  (keys <- map_result key l ;;
   decorated <- sorted_by_key fst (combine keys l) ;;
   Ok (map snd decorated))%py.

End Py.

(* ================================================================== *)
(** * The imaging library, as far as the script observes it *)
(* ================================================================== *)

Module Pillow.
Import Py.

Definition rgba : Type := (Z * Z * Z * Z)%type.

(** An RGBA raster: [pixel x y] is read for [0 <= x < width] and
    [0 <= y < height] only. *)
Record image : Type := mk_image {
  width : Z;
  height : Z;
  pixel : Z -> Z -> rgba
}.

Definition size (im : image) : Z * Z := (width im, height im).

(** Two rasters are the same picture when they agree on size and on every
    pixel inside it. *)
Definition same_pixels (a b : image) : Prop :=
  size a = size b /\
  forall x y, 0 <= x < width a -> 0 <= y < height a -> pixel a x y = pixel b x y.

(** A palette image, the result of [convert('P', palette=ADAPTIVE, colors=256)]. *)
Record palette_image : Type := mk_palette_image {
  pal_width : Z;
  pal_height : Z;
  pal_colors : list (Z * Z * Z);
  pal_index : Z -> Z -> Z
}.

(** What [save(..., save_all=True, format='GIF', ...)] is asked to write. *)
Record gif_file : Type := mk_gif {
  gif_frames : list palette_image;
  gif_duration : Z;
  gif_loop : Z;
  gif_optimize : bool;
  gif_disposal : Z
}.

(** The library keeps dimensions in C [int]s. *)
Definition C_INT_MAX : Z := 2 ^ 31 - 1.

(** What lies outside the script: the resampling kernel, the decoder, the
    directory contents seen through [glob.glob], the colour quantiser and
    whether a path can be written. *)
Record world : Type := mk_world {
  lanczos : image -> Z -> Z -> Z -> Z -> rgba;
  decode : string -> option image;
  glob : string -> list string;
  quantize : image -> palette_image;
  writable : string -> bool
}.

Definition negative_size_msg : string := "Width and height must be >= 0".

(** [Image.new('RGBA', (w, h), color)]: a negative dimension is refused by
    the size check, zero is accepted.  Whether the library finds the
    memory for the raster is not modelled. *)
Definition image_new (sz : Z * Z) (color : rgba) : result image :=
  let '(w, h) := sz in
  if (w <? 0) || (h <? 0) then Raise (ValueError negative_size_msg)
  else if (C_INT_MAX <? w) || (C_INT_MAX <? h) then Raise OverflowError
  else Ok (mk_image w h (fun _ _ => color)).

(** [im.resize((w, h), Image.LANCZOS)]: a resize to the image's own size
    is a copy; otherwise both dimensions must be at least 1. *)
Definition resize (W : world) (im : image) (sz : Z * Z) : result image :=
  let '(w, h) := sz in
  if (w =? width im) && (h =? height im) then Ok im
  else if (w <? 1) || (h <? 1) then Raise (ValueError "height and width must be > 0")
  else if (C_INT_MAX <? w) || (C_INT_MAX <? h) then Raise OverflowError
  else Ok (mk_image w h (lanczos W im w h)).

(** [canvas.paste(im, (ox, oy))] without a mask: the pixels of [im]
    replace those of the canvas where the two overlap. *)
Definition paste (canvas im : image) (offset : Z * Z) : image :=
  let '(ox, oy) := offset in
  mk_image (width canvas) (height canvas)
    (fun x y =>
       if (ox <=? x) && (x <? ox + width im) && (oy <=? y) && (y <? oy + height im)
       then pixel im (x - ox) (y - oy)
       else pixel canvas x y).

End Pillow.

(* ================================================================== *)
(** * The script *)
(* ================================================================== *)

Module TryGif.
Import Py Pillow.
Local Open Scope string_scope.
Local Open Scope list_scope.
Local Open Scope Z_scope.

(** ** Effects: what the script does to the outside, in order *)

Inductive event : Type :=
| EvGlob (pattern : string)
| EvPrintPaths (paths : list string)
| EvOpen (path : string)
| EvSave (path : string) (gif : gif_file)
| EvPrintSaved (count : Z) (path : string).

Definition trace : Type := list event.

Definition IO (A : Type) : Type := trace -> result A * trace.

Definition ret {A} (a : A) : IO A := fun t => (Ok a, t).
Definition throw {A} (e : exn) : IO A := fun t => (Raise e, t).
Definition emit (ev : event) : IO unit := fun t => (Ok tt, (t ++ [ev])).
Definition lift {A} (r : result A) : IO A := fun t => (r, t).
Definition bindIO {A B} (c : IO A) (k : A -> IO B) : IO B :=
  fun t =>
    match c t with
    | (Ok a, t') => k a t'
    | (Raise e, t') => (Raise e, t')
    end.

Declare Scope io_scope.
Delimit Scope io_scope with io.
Notation "x <- c ;; k" := (bindIO c (fun x => k))
  (at level 61, c at next level, right associativity) : io_scope.
Notation "c ;;; k" := (bindIO c (fun _ => k))
  (at level 61, right associativity) : io_scope.

(** ** natural_sort_key *)

Definition natural_sort_key (s : string) : result (list key_elem) :=
  map_result
    (fun text => if str_isdigit text then (n <- int_of_str text ;; Ok (KInt n))%py
                 else Ok (KStr (str_lower text)))
    (re_split_digits s).

(** ** fit_to_canvas *)

(** Lines 23 to 28: the resized dimensions and the paste offset. *)
Definition fit_geometry (img_size canvas : Z * Z) : result (Z * Z * (Z * Z)) :=
  let '(target_w, target_h) := canvas in
  let '(w, h) := img_size in
  (rw <- int_truediv target_w w ;;
   rh <- int_truediv target_h h ;;
   let scale := min_float rw rh in
   pw <- int_mul_float w scale ;;
   iw <- int_of_float pw ;;
   ph <- int_mul_float h scale ;;
   ih <- int_of_float ph ;;
   let new_w := max_int 1 iw in
   let new_h := max_int 1 ih in
   Ok (new_w, new_h, ((target_w - new_w) / 2, (target_h - new_h) / 2)))%py.

Section WithWorld.
Variable W : world.

Definition fit_to_canvas (img : image) (sz : option (Z * Z))
    (keep_aspect : bool) (bgcolor : rgba) : result image :=
  match sz with
  | None => Raise TypeError
  | Some canvas_size =>
      if keep_aspect then
        ('(new_w, new_h, offset) <- fit_geometry (size img) canvas_size ;;
         img' <- resize W img (new_w, new_h) ;;
         canvas <- image_new canvas_size bgcolor ;;
         Ok (paste canvas img' offset))%py
      else resize W img canvas_size
  end.

(** ** load_frames *)

Definition image_open (p : string) : IO image :=
  (emit (EvOpen p) ;;;
   match decode W p with
   | Some im => ret im
   | None => throw (UnidentifiedImageError p)
   end)%io.

Definition transparent : rgba := (0, 0, 0, 0).

(** The loop of [load_frames]; [i] is the index [enumerate] yields. *)
Fixpoint load_loop (target_size : option (Z * Z)) (i : Z) (paths : list string)
    (frames : list image) (base_size : option (Z * Z)) : IO (list image) :=
  match paths with
  | [] => ret frames
  | p :: rest =>
      (img <- image_open p ;;
       let base_size' :=
         if i =? 0 then
           Some (match target_size with Some s => s | None => size img end)
         else base_size in
       img' <- lift (fit_to_canvas img base_size' true transparent) ;;
       load_loop target_size (i + 1) rest (frames ++ [img']) base_size')%io
  end.

Definition load_frames (paths : list string) (target_size : option (Z * Z))
    : IO (list image) :=
  load_loop target_size 0 paths [] None.

(** ** collect_image_paths *)

Definition ends_with_slash (s : string) : bool :=
  match rev_string EmptyString s with
  | String c _ => Ascii.eqb c "/"%char
  | EmptyString => false
  end.

(** [os.path.join(a, b)] for a relative [b]. *)
Definition path_join (a b : string) : string :=
  if (String.eqb a "") || ends_with_slash a then (a ++ b)%string
  else (a ++ "/" ++ b)%string.

Definition default_patterns : list string :=
  ["*.png"; "*.jpg"; "*.jpeg"; "*.bmp"; "*.webp"].

Fixpoint glob_all (input_dir : string) (patterns : list string) (paths : list string)
    : IO (list string) :=
  match patterns with
  | [] => ret paths
  | pat :: rest =>
      let pattern := path_join input_dir pat in
      (emit (EvGlob pattern) ;;;
       glob_all input_dir rest (paths ++ glob W pattern))%io
  end.

Definition collect_image_paths (input_dir : string) (patterns : list string)
    : IO (list string) :=
  (paths <- glob_all input_dir patterns [] ;;
   lift (sorted natural_sort_key paths))%io.

(** ** save_gif *)

Definition no_frames_msg : string := "No frames to save.".

Definition save_gif (frames : list image) (output_path : string)
    (duration_ms : Z) (loop : Z) (optimize : bool) : IO unit :=
  match frames with
  | [] => throw (ValueError no_frames_msg)
  | _ :: _ =>
      let pal_frames := map (quantize W) frames in
      if writable W output_path
      then emit (EvSave output_path (mk_gif pal_frames duration_ms loop optimize 2))
      else throw (OSError output_path)
  end.

(** ** make_gif_from_folder *)

(** Lines 77 to 80: the duration actually used. *)
Definition resolve_duration (fps : option number) (duration_ms : option Z)
    : result Z :=
  (duration_ms' <-
     match fps with
     | Some f =>
         if number_gt0 f
         then (q <- int_div_number 1000 f ;; d <- int_of_float q ;; Ok (Some d))
         else Ok duration_ms
     | None => Ok duration_ms
     end ;;
   Ok (match duration_ms' with Some d => d | None => 100 end))%py.

Definition no_images_msg (input_dir : string) : string :=
  ("No images found in " ++ input_dir)%string.

Definition make_gif_from_folder (input_dir output_gif : string)
    (fps : option number) (duration_ms : option Z)
    (size : option (Z * Z)) (loop : Z) : IO unit :=
  (paths <- collect_image_paths input_dir default_patterns ;;
   emit (EvPrintPaths paths) ;;;
   match paths with
   | [] => throw (FileNotFoundError (no_images_msg input_dir))
   | _ :: _ =>
       duration <- lift (resolve_duration fps duration_ms) ;;
       frames <- load_frames paths size ;;
       save_gif frames output_gif duration loop true ;;;
       emit (EvPrintSaved (Z.of_nat (List.length frames)) output_gif)
   end)%io.

(** ** The script run as a program *)

(** Lines 85 to 109: two folders, each with an explicit duration of 500 ms,
    a 352x371 canvas and an endless loop.  An exception of the first call
    ends the program. *)
Definition main : IO unit :=
  (make_gif_from_folder "test_images1" "animation1.gif"
     None (Some 500) (Some (352, 371)) 0 ;;;
   make_gif_from_folder "test_images2" "animation2.gif"
     None (Some 500) (Some (352, 371)) 0)%io.

End WithWorld.

End TryGif.

(* ================================================================== *)
(** * The rules of the specification *)
(* ================================================================== *)

Module Spec.
Import Py Pillow TryGif.

(** A canvas or image size the imaging library can hold: both dimensions
    positive and within a C [int]. *)
Definition valid_size (sz : Z * Z) : Prop :=
  1 <= fst sz <= C_INT_MAX /\ 1 <= snd sz <= C_INT_MAX.

(** "Determine canvas size once: if an explicit size was given, use it for
    all frames; otherwise use the pixel dimensions of the first loaded
    image." *)
Definition resolved_canvas (W : world) (paths : list string)
    (target_size : option (Z * Z)) : option (Z * Z) :=
  match target_size with
  | Some sz => Some sz
  | None =>
      match paths with
      | [] => None
      | p :: _ => option_map size (decode W p)
      end
  end.

(** "compute a uniform scale factor = min(canvas_width / image_width,
    canvas_height / image_height); compute the resized dimensions by
    flooring, with a floor of 1 pixel in each dimension; offset =
    ((canvas_width - resized_width) / 2, (canvas_height - resized_height) / 2),
    integer division."  The rule as it reads, in exact rational
    arithmetic. *)
Definition spec_fit_geometry (img_size canvas : Z * Z) : Z * Z * (Z * Z) :=
  let '(canvas_width, canvas_height) := canvas in
  let '(image_width, image_height) := img_size in
  let scale :=
    Qmin (inject_Z canvas_width / inject_Z image_width)
         (inject_Z canvas_height / inject_Z image_height) in
  let resized_width := Z.max 1 (Qfloor (inject_Z image_width * scale)) in
  let resized_height := Z.max 1 (Qfloor (inject_Z image_height * scale)) in
  (resized_width, resized_height,
   ((canvas_width - resized_width) / 2, (canvas_height - resized_height) / 2)).

(** "if a positive frames-per-second value is supplied, derived duration =
    round(1000 / fps) milliseconds, overriding any explicit duration;
    otherwise use the explicit duration if given; otherwise default to
    100 ms." *)
Definition spec_resolve_duration (fps : option number) (duration_ms : option Z)
    : result Z :=
  let otherwise := Ok (match duration_ms with Some d => d | None => 100 end) in
  match fps with
  | Some f =>
      if number_gt0 f
      then (q <- int_div_number 1000 f ;; round_of_float q)%py
      else otherwise
  | None => otherwise
  end.

(** "compare corresponding tokens pairwise, numeric tokens as integers,
    non-digit tokens as lowercase strings": the order on tokens and its
    lexicographic extension to token sequences. *)
Inductive token_lt : key_elem -> key_elem -> Prop :=
| token_lt_int x y : x < y -> token_lt (KInt x) (KInt y)
| token_lt_str s t : str_ltb s t = true -> token_lt (KStr s) (KStr t).

Inductive tokens_lt : list key_elem -> list key_elem -> Prop :=
| tokens_lt_nil b k : tokens_lt [] (b :: k)
| tokens_lt_head a b k1 k2 : token_lt a b -> tokens_lt (a :: k1) (b :: k2)
| tokens_lt_tail a k1 k2 : tokens_lt k1 k2 -> tokens_lt (a :: k1) (a :: k2).

(** [a] comes no later than [b] when compared through [key]. *)
Definition key_le {A : Type} (key : A -> list key_elem) (a b : A) : Prop :=
  key a = key b \/ tokens_lt (key a) (key b).

(** [s] comes no later than [t] in natural order. *)
Definition natural_le (s t : string) : Prop :=
  exists ks kt,
    natural_sort_key s = Ok ks /\ natural_sort_key t = Ok kt /\
    (ks = kt \/ tokens_lt ks kt).

(** A file that decodes and whose image fit_to_canvas can put on the
    canvas: the imaging library returns from the resize and from the
    allocation of the canvas. *)
Definition fits_canvas (W : world) (canvas : option (Z * Z)) (p : string) : Prop :=
  exists img out,
    decode W p = Some img /\
    fit_to_canvas W img canvas true transparent = Ok out.

(** The canvases a run over [paths] can use: the explicit size, or
    without one the size of whichever image comes first. *)
Definition canvas_candidate (W : world) (size : option (Z * Z))
    (paths : list string) (canvas : Z * Z) : Prop :=
  match size with
  | Some s => canvas = s
  | None => exists p img, In p paths /\ decode W p = Some img /\ canvas = Pillow.size img
  end.

(** Every image among [paths] can be put on every canvas the run can
    use. *)
Definition fits_when_decoded (W : world) (size : option (Z * Z))
    (paths : list string) : Prop :=
  forall canvas p img,
    canvas_candidate W size paths canvas ->
    In p paths -> decode W p = Some img ->
    exists out, fit_to_canvas W img (Some canvas) true transparent = Ok out.

End Spec.

(* ================================================================== *)
(** * Shapes of keys and of the pieces of a name *)
(* ================================================================== *)

Module Shape.
Import Py.

(** Keys alternate strings and integers; [str_first] tells which comes
    first. *)
Fixpoint key_shape (str_first : bool) (k : list key_elem) : Prop :=
  match k with
  | [] => True
  | KStr _ :: k' => str_first = true /\ key_shape false k'
  | KInt _ :: k' => str_first = false /\ key_shape true k'
  end.

Fixpoint no_decimal (s : string) : bool :=
  match s with
  | EmptyString => true
  | String c s' => negb (is_decimal c) && no_decimal s'
  end.

Fixpoint no_superscript (s : string) : bool :=
  match s with
  | EmptyString => true
  | String c s' => negb (is_superscript c) && no_superscript s'
  end.

Fixpoint all_superscript (s : string) : bool :=
  match s with
  | EmptyString => true
  | String c s' => is_superscript c && all_superscript s'
  end.

(** The string is empty or begins with a character that is no decimal
    digit: a digit run before it ends there. *)
Definition starts_plain (s : string) : bool :=
  match s with
  | EmptyString => true
  | String c _ => negb (is_decimal c)
  end.

(** A digit run is not empty and has decimal digits only; a text piece
    has no decimal digit. *)
Definition piece_kind (is_run : bool) (t : string) : Prop :=
  if is_run then t <> EmptyString /\ all_decimal t = true
  else no_decimal t = true.

(** The pieces alternate between text and digit runs. *)
Fixpoint pieces_alternate (run_first : bool) (l : list string) : Prop :=
  match l with
  | [] => True
  | t :: l' => piece_kind run_first t /\ pieces_alternate (negb run_first) l'
  end.

(** The pieces put back together. *)
Fixpoint join (l : list string) : string :=
  match l with
  | [] => EmptyString
  | t :: l' => (t ++ join l')%string
  end.

End Shape.

(* ================================================================== *)
(** * Binary64 values *)
(* ================================================================== *)

Module B64.
Import Py.

(** The two renormalising shifts of [binary_round_aux], before the result
    is classified. *)
Definition round_core (m e : Z) (l : location) : Z * Z :=
  let '(mrs', e') := shr_fexp prec emax m e l in
  let '(mrs'', e'') :=
    shr_fexp prec emax
      (round_nearest_even (shr_m mrs') (loc_of_shr_record mrs')) e' loc_Exact in
  (shr_m mrs'', e'').

(** The classification of [binary_round_aux]. *)
Definition pack (sx : bool) (me : Z * Z) : float :=
  match fst me with
  | Z0 => S754_zero sx
  | Zpos m =>
      if snd me <=? emax - prec then S754_finite sx m (snd me) else S754_infinity sx
  | Zneg _ => S754_nan
  end.

(** No bit has been shifted out. *)
Definition rec_exact (r : shr_record) : Prop :=
  shr_r r = false /\ shr_s r = false.

Definition bpow (e : Z) : R := powerRZ 2 e.
Definition F2R (m e : Z) : R := (IZR m * bpow e)%R.

(** The real number a float stands for (0 for the non-finite ones). *)
Definition val (x : float) : R :=
  match x with
  | S754_finite s m e => if s then (- F2R (Zpos m) e)%R else F2R (Zpos m) e
  | _ => 0%R
  end.

Definition expo (x : float) : Z :=
  match x with S754_finite _ _ e => e | _ => 0 end.

(** A positive normal binary64: 53 significant bits. *)
Definition pos_normal (x : float) : Prop :=
  exists m e, x = S754_finite false m e /\ 2 ^ 52 <= Zpos m < 2 ^ 53 /\
              3 - emax - prec <= e <= emax - prec.

(** One unit in the last place, relative to the value. *)
Definition ulp_rel : R := (/ IZR (2 ^ 52))%R.

(** [1.0] and [1000.0] *)
Definition fone : float := S754_finite false 4503599627370496 (-52).
Definition f1000 : float := S754_finite false 8796093022208000 (-43).

(** The three kinds of ratio a canvas dimension can give. *)
Inductive ratio_kind : float -> Prop :=
| ratio_neg m e :
    pos_normal (S754_finite false m e) -> -1074 <= e <= 1 ->
    ratio_kind (S754_finite true m e)
| ratio_zero : ratio_kind (S754_zero false)
| ratio_pos m e :
    pos_normal (S754_finite false m e) -> ratio_kind (S754_finite false m e).

Definition is_negative (x : float) : Prop :=
  exists m e, x = S754_finite true m e /\
              pos_normal (S754_finite false m e) /\ -1074 <= e <= 1.

End B64.

(* ================================================================== *)
(** * Sample directories and images *)
(* ================================================================== *)

Module Samples.
Import Py Pillow TryGif.
Local Open Scope string_scope.
Local Open Scope list_scope.
Local Open Scope Z_scope.

(** A raster of one colour. *)
Definition flat (w h : Z) (c : rgba) : image := mk_image w h (fun _ _ => c).

(** Nearest-neighbour resampling, standing in for the LANCZOS kernel. *)
Definition nearest (im : image) (w h : Z) : Z -> Z -> rgba :=
  fun x y => pixel im (x * width im / w) (y * height im / h).

Definition one_colour (im : image) : palette_image :=
  mk_palette_image (width im) (height im) [(0, 0, 0)] (fun _ _ => 0).

(** A folder with three PNG frames of sizes 50x50, 80x40 and 50x50. *)
Definition folder_world : world :=
  mk_world nearest
    (fun p =>
       if String.eqb p "frames/img1.png" then Some (flat 50 50 (255, 0, 0, 255))
       else if String.eqb p "frames/img2.png" then Some (flat 80 40 (0, 255, 0, 255))
       else if String.eqb p "frames/img10.png" then Some (flat 50 50 (0, 0, 255, 255))
       else None)
    (fun pattern =>
       if String.eqb pattern "frames/*.png"
       then ["frames/img10.png"; "frames/img2.png"; "frames/img1.png"]
       else [])
    one_colour
    (fun _ => true).

(** A folder whose only frame is named "1", superscript two, "2.png". *)
Definition squared_name : string :=
  "frames/1" ++ String (ascii_of_N 178) "2.png".

Definition squared_world : world :=
  mk_world nearest
    (fun _ => Some (flat 50 50 (255, 0, 0, 255)))
    (fun pattern => if String.eqb pattern "frames/*.png" then [squared_name] else [])
    one_colour
    (fun _ => true).

(** A folder without any image. *)
Definition empty_world : world :=
  mk_world nearest (fun _ => None) (fun _ => []) one_colour (fun _ => true).

Definition frame_sizes (r : result (list image) * trace) : result (list (Z * Z)) :=
  match fst r with
  | Ok frames => Ok (map size frames)
  | Raise e => Raise e
  end.

(** A folder in which two names differ only in letter case. *)
Definition mixed_case_world : world :=
  mk_world nearest
    (fun _ => Some (flat 50 50 (255, 0, 0, 255)))
    (fun pattern =>
       if String.eqb pattern "frames/*.png"
       then ["frames/b.png"; "frames/IMG1.png"; "frames/a.png"; "frames/img1.png"]
       else [])
    one_colour
    (fun _ => true).


(** The two folders the program reads, with two frames and one frame. *)
Definition program_world : world :=
  mk_world nearest
    (fun _ => Some (flat 50 50 (255, 0, 0, 255)))
    (fun pattern =>
       if String.eqb pattern "test_images1/*.png"
       then ["test_images1/b.png"; "test_images1/a.png"]
       else if String.eqb pattern "test_images2/*.jpg"
       then ["test_images2/1.jpg"]
       else [])
    one_colour
    (fun _ => true).

End Samples.

Import Py Pillow TryGif Spec Shape B64.
Local Open Scope Z_scope.

(* ================================================================== *)
(** * Binary64 arithmetic: rounding lemmas *)
(* ================================================================== *)

(** ** Bit counts and right shifts *)

Lemma digits2_log2 p : Zpos (digits2_pos p) = Z.log2 (Zpos p) + 1.
Proof.
  induction p as [p IH|p IH|]; cbn [digits2_pos]; try reflexivity.
  - rewrite Pos2Z.inj_succ, IH. 
    change (Zpos p~1) with (2 * Zpos p + 1). rewrite Z.log2_succ_double by lia. lia.
  - rewrite Pos2Z.inj_succ, IH.
    change (Zpos p~0) with (2 * Zpos p). rewrite Z.log2_double by lia. lia.
Qed.

Lemma digits2_bounds p :
  2 ^ (Zpos (digits2_pos p) - 1) <= Zpos p < 2 ^ Zpos (digits2_pos p).
Proof.
  rewrite digits2_log2.
  replace (Z.log2 (Zpos p) + 1 - 1) with (Z.log2 (Zpos p)) by lia.
  replace (Z.log2 (Zpos p) + 1) with (Z.succ (Z.log2 (Zpos p))) by lia.
  apply Z.log2_spec. lia.
Qed.

(** digits are determined by a bracket of powers of two *)
Lemma digits2_unique p d : 2 ^ (d - 1) <= Zpos p < 2 ^ d -> Zpos (digits2_pos p) = d.
Proof.
  intros [H1 H2]. rewrite digits2_log2.
  assert (0 < d).
  { destruct (Z_lt_le_dec 0 d) as [?|Hd]; [assumption|exfalso].
    destruct (Z.eq_dec d 0) as [->|Hd0]; [rewrite Z.pow_0_r in H2; lia|].
    rewrite (Z.pow_neg_r 2 d) in H2 by lia. lia. }
  assert (Z.log2 (Zpos p) = d - 1); [|lia].
  apply Z.log2_unique; [lia|]. replace (Z.succ (d - 1)) with d by lia. split; assumption.
Qed.

Lemma pow2_xO p : 2 ^ Zpos p~0 = 2 ^ Zpos p * 2 ^ Zpos p.
Proof. change (Zpos p~0) with (2 * Zpos p). apply Z.pow_twice_r. Qed.

Lemma pow2_xI p : 2 ^ Zpos p~1 = 2 * (2 ^ Zpos p * 2 ^ Zpos p).
Proof.
  change (Zpos p~1) with (2 * Zpos p + 1).
  rewrite Z.pow_add_r, Z.pow_twice_r by lia.
  rewrite Z.pow_1_r. lia.
Qed.

Lemma shr_1_m r : 0 <= shr_m r -> shr_m (shr_1 r) = shr_m r / 2.
Proof.
  destruct r as [m rb sb]. cbn [shr_m]. intros Hm.
  rewrite <- Z.div2_div.
  destruct m as [|[p|p|]|p]; try reflexivity. lia.
Qed.

Lemma iter_shr_m p : forall r,
  0 <= shr_m r -> shr_m (SpecFloat.iter_pos shr_1 p r) = shr_m r / 2 ^ Zpos p.
Proof.
  induction p as [p IH|p IH|]; intros r Hr; cbn [SpecFloat.iter_pos].
  - assert (H1 : 0 <= shr_m (shr_1 r)) by (rewrite shr_1_m by lia; apply Z.div_pos; lia).
    assert (H2 : 0 <= shr_m (SpecFloat.iter_pos shr_1 p (shr_1 r)))
      by (rewrite IH by lia; apply Z.div_pos; lia).
    rewrite IH, IH, shr_1_m by lia.
    rewrite !Z.div_div by lia.
    f_equal. rewrite pow2_xI. lia.
  - assert (H2 : 0 <= shr_m (SpecFloat.iter_pos shr_1 p r))
      by (rewrite IH by lia; apply Z.div_pos; lia).
    rewrite IH, IH by lia.
    rewrite !Z.div_div by lia.
    f_equal. rewrite pow2_xO. lia.
  - rewrite shr_1_m by lia. reflexivity.
Qed.

Lemma shr_1_exact r :
  0 <= shr_m r -> rec_exact r -> shr_m r mod 2 = 0 -> rec_exact (shr_1 r).
Proof.
  destruct r as [m rb sb]. unfold rec_exact. cbn [shr_m shr_r shr_s].
  intros Hm [-> ->] Hmod.
  destruct m as [|[p|p|]|p]; cbn; try (split; reflexivity); try lia.
  - rewrite Pos2Z.inj_xI in Hmod. 
    rewrite Z.add_comm, Z.mul_comm, Z.mod_add in Hmod by lia. discriminate.
  - discriminate.
Qed.

Lemma iter_shr_exact p : forall r,
  0 <= shr_m r -> rec_exact r -> shr_m r mod 2 ^ Zpos p = 0 ->
  rec_exact (SpecFloat.iter_pos shr_1 p r).
Proof.
  assert (Hdiv : forall a b c, 0 < b -> 0 < c -> a mod (b * c) = 0 ->
    a mod b = 0 /\ (a / b) mod c = 0).
  { intros a b c Hb Hc H. apply Z.mod_divide in H; [|lia]. destruct H as [k ->].
    split.
    - apply Z.mod_divide; [lia|]. exists (k * c). lia.
    - replace (k * (b * c)) with ((k * c) * b) by lia. rewrite Z.div_mul by lia.
      apply Z.mod_mul. lia. }
  induction p as [p IH|p IH|]; intros r Hr He Hm; cbn [SpecFloat.iter_pos].
  - rewrite pow2_xI in Hm.
    apply Hdiv in Hm; [|lia|nia]. destruct Hm as [Hm2 Hm].
    apply Hdiv in Hm; [|lia|lia]. destruct Hm as [Hma Hmb].
    assert (H1 : 0 <= shr_m (shr_1 r)) by (rewrite shr_1_m by lia; apply Z.div_pos; lia).
    apply IH.
    + rewrite iter_shr_m by lia. apply Z.div_pos; lia.
    + apply IH; [lia| apply shr_1_exact; assumption |].
      rewrite shr_1_m by lia. assumption.
    + rewrite iter_shr_m, shr_1_m by lia. assumption.
  - rewrite pow2_xO in Hm.
    apply Hdiv in Hm; [|lia|lia]. destruct Hm as [Hma Hmb].
    apply IH.
    + rewrite iter_shr_m by lia. apply Z.div_pos; lia.
    + apply IH; assumption.
    + rewrite iter_shr_m by lia. assumption.
  - apply shr_1_exact; assumption.
Qed.

Lemma binary_round_aux_core sx m e l :
  binary_round_aux prec emax sx m e l = pack sx (round_core m e l).
Proof.
  unfold binary_round_aux, round_core, pack.
  destruct (shr_fexp prec emax m e l) as [mrs' e'].
  destruct (shr_fexp prec emax _ e' loc_Exact) as [mrs'' e''].
  reflexivity.
Qed.

Lemma Zdigits2_bounds m : 0 < m -> 2 ^ (Zdigits2 m - 1) <= m < 2 ^ Zdigits2 m.
Proof. destruct m as [|p|p]; try lia. intros _. apply digits2_bounds. Qed.

Lemma Zdigits2_unique m d : 0 < m -> 2 ^ (d - 1) <= m < 2 ^ d -> Zdigits2 m = d.
Proof. destruct m as [|p|p]; try lia. intros _. apply digits2_unique. Qed.

Lemma shr_m_of_loc m l : shr_m (shr_record_of_loc m l) = m.
Proof. destruct l as [|[| |]]; reflexivity. Qed.

Lemma loc_of_shr_of_loc m l : loc_of_shr_record (shr_record_of_loc m l) = l.
Proof. destruct l as [|[| |]]; reflexivity. Qed.

Lemma loc_of_exact r : rec_exact r -> loc_of_shr_record r = loc_Exact.
Proof. destruct r as [m rb sb]. intros [H1 H2]. cbn in *. subst. reflexivity. Qed.

Lemma rne_bounds m l : m <= round_nearest_even m l <= m + 1.
Proof.
  destruct l as [|[| |]]; cbn; try lia. destruct (Z.even m); lia.
Qed.

Lemma fexp_normal x : 3 - emax - prec <= x - prec -> fexp prec emax x = x - prec.
Proof. unfold fexp, SpecFloat.emin. lia. Qed.

(** first shift: what [shr_fexp] leaves of a mantissa of [d >= 53] digits *)
Lemma shr_fexp_normal m e l d :
  0 < m -> Zdigits2 m = d -> prec <= d -> 3 - emax - prec <= d + e - prec ->
  exists r, shr_fexp prec emax m e l = (r, e + (d - prec)) /\
            shr_m r = m / 2 ^ (d - prec) /\
            (l = loc_Exact -> m mod 2 ^ (d - prec) = 0 -> rec_exact r).
Proof.
  intros Hm Hd Hp Hn. unfold shr_fexp. rewrite Hd, fexp_normal by lia.
  replace (d + e - prec - e) with (d - prec) by lia.
  destruct (d - prec) as [|p|p] eqn:En; try lia.
  - exists (shr_record_of_loc m l). cbn [shr]. rewrite Z.add_0_r, shr_m_of_loc,
    Z.pow_0_r, Z.div_1_r.
    split; [reflexivity|split; [reflexivity|]]. intros -> _. split; reflexivity.
  - exists (SpecFloat.iter_pos shr_1 p (shr_record_of_loc m l)). cbn [shr].
    rewrite iter_shr_m by (rewrite shr_m_of_loc; lia). rewrite shr_m_of_loc.
    split; [reflexivity|split; [reflexivity|]]. intros -> Hmod.
    apply iter_shr_exact; cbn; try lia; try (split; reflexivity).
Qed.

Lemma round_core_normal m e l d :
  0 < m -> Zdigits2 m = d -> prec <= d -> 3 - emax - prec <= d + e - prec ->
  exists m2 e2,
    round_core m e l = (m2, e2) /\
    2 ^ 52 <= m2 < 2 ^ 53 /\
    e + (d - prec) <= e2 <= e + (d - prec) + 1 /\
    (m / 2 ^ (d - prec)) * 2 ^ (d - prec) <= m2 * 2 ^ (e2 - e)
      <= (m / 2 ^ (d - prec) + 1) * 2 ^ (d - prec) /\
    (l = loc_Exact -> m mod 2 ^ (d - prec) = 0 -> m2 * 2 ^ (e2 - e) = m).
Proof.
  intros Hm Hd Hp Hn.
  destruct (shr_fexp_normal m e l d Hm Hd Hp Hn) as (r & Hr & Hrm & Hex).
  unfold round_core. rewrite Hr.
  set (n := d - prec) in *.
  assert (Hn0 : 0 <= n) by (unfold n; lia).
  pose proof (Zdigits2_bounds m Hm) as Hb. rewrite Hd in Hb.
  assert (Hm1 : 2 ^ 52 <= m / 2 ^ n < 2 ^ 53).
  { assert (H2n : 0 < 2 ^ n) by (apply Z.pow_pos_nonneg; lia).
    assert (Hd1 : 2 ^ (d - 1) = 2 ^ 52 * 2 ^ n).
    { rewrite <- Z.pow_add_r by lia. f_equal. unfold n, prec. lia. }
    assert (Hd2 : 2 ^ d = 2 ^ 53 * 2 ^ n).
    { rewrite <- Z.pow_add_r by lia. f_equal. unfold n, prec. lia. }
    split.
    - apply Z.div_le_lower_bound; lia.
    - apply Z.div_lt_upper_bound; lia. }
  set (m1 := m / 2 ^ n) in *.
  pose proof (rne_bounds (shr_m r) (loc_of_shr_record r)) as Hrne.
  rewrite Hrm in *.
  set (m1' := round_nearest_even m1 (loc_of_shr_record r)) in *.
  assert (H2n : 0 < 2 ^ n) by (apply Z.pow_pos_nonneg; lia).
  assert (Hexact : l = loc_Exact -> m mod 2 ^ n = 0 -> m1' = m1 /\ m1 * 2 ^ n = m).
  { intros Hl Hmod. split.
    - unfold m1'. rewrite (loc_of_exact r) by (apply Hex; assumption). reflexivity.
    - unfold m1. pose proof (Z.div_mod m (2 ^ n)). lia. }
  destruct (Z_lt_le_dec m1' (2 ^ 53)) as [Hlt|Hge].
  - (* no carry *)
    assert (Hd' : Zdigits2 m1' = 53) by (apply Zdigits2_unique; [lia|];
        change (53 - 1) with 52; lia).
    unfold shr_fexp. rewrite Hd', fexp_normal by (unfold prec, emax in *; lia).
    replace (53 + (e + n) - prec - (e + n)) with 0 by (unfold prec; lia).
    cbn [shr shr_record_of_loc shr_m].
    exists m1', (e + n). split; [reflexivity|].
    replace (e + n - e) with n by lia.
    repeat split; try lia; try nia.
    intros Hl Hmod. destruct (Hexact Hl Hmod) as [-> ?]. assumption.
  - (* carry to 2^53 *)
    assert (Heq : m1' = 2 ^ 53) by lia.
    assert (Hd' : Zdigits2 m1' = 54) by (apply Zdigits2_unique; [lia|]; rewrite Heq;
        change (54 - 1) with 53; split; [lia|reflexivity]).
    unfold shr_fexp. rewrite Hd', fexp_normal by (unfold prec, emax in *; lia).
    replace (54 + (e + n) - prec - (e + n)) with 1 by (unfold prec; lia).
    rewrite Heq. cbn [shr shr_record_of_loc SpecFloat.iter_pos shr_1 shr_m].
    exists (2 ^ 52), (e + n + 1). split; [reflexivity|].
    replace (e + n + 1 - e) with (n + 1) by lia.
    rewrite Z.pow_add_r, Z.pow_1_r by lia.
    repeat split; try lia; try nia.
    intros Hl Hmod. destruct (Hexact Hl Hmod) as [? ?]. lia.
Qed.

(** ** Real values *)

Lemma bpow_pos e : (0 < bpow e)%R.
Proof. apply powerRZ_lt. lra. Qed.

Lemma bpow_add a b : bpow (a + b) = (bpow a * bpow b)%R.
Proof. apply powerRZ_add. lra. Qed.

Lemma bpow_IZR k : 0 <= k -> bpow k = IZR (2 ^ k).
Proof.
  intros Hk. unfold bpow. rewrite <- (Z2Nat.id k) by lia.
  rewrite <- pow_powerRZ, pow_IZR. reflexivity.
Qed.

Lemma bpow_le a b : a <= b -> (bpow a <= bpow b)%R.
Proof.
  intros H. replace b with (a + (b - a)) by lia. rewrite bpow_add.
  assert (1 <= bpow (b - a))%R.
  { rewrite bpow_IZR by lia. apply IZR_le. 
    assert (0 < 2 ^ (b - a)) by (apply Z.pow_pos_nonneg; lia). lia. }
  pose proof (bpow_pos a). nra.
Qed.

Lemma F2R_shift m e k : 0 <= k -> F2R (m * 2 ^ k) e = F2R m (e + k).
Proof.
  intros Hk. unfold F2R. rewrite mult_IZR, bpow_add, <- bpow_IZR by lia. lra.
Qed.

(** ** The standard model of rounding, one sided: a rounded result is at
    most one unit in the last place above the exact one, and equal to it
    when nothing is shifted out. *)

Lemma ulp_rel_eq : ulp_rel = (/ 4503599627370496)%R.
Proof. reflexivity. Qed.

Lemma round_core_rel m e l d :
  0 < m -> Zdigits2 m = d -> prec <= d -> 3 - emax - prec <= d + e - prec ->
  exists m2 e2,
    round_core m e l = (m2, e2) /\
    2 ^ 52 <= m2 < 2 ^ 53 /\
    e + (d - prec) <= e2 <= e + (d - prec) + 1 /\
    (F2R m2 e2 <= F2R m e * (1 + ulp_rel))%R /\
    (l = loc_Exact -> m mod 2 ^ (d - prec) = 0 -> F2R m2 e2 = F2R m e).
Proof.
  intros Hm Hd Hp Hn.
  destruct (round_core_normal m e l d Hm Hd Hp Hn)
    as (m2 & e2 & Hrc & Hm2 & He2 & [Hlo Hhi] & Hex).
  exists m2, e2. repeat (split; [assumption|]).
  set (n := d - prec) in *.
  assert (Hn0 : 0 <= n) by (unfold n; lia).
  assert (H2n : 0 < 2 ^ n) by (apply Z.pow_pos_nonneg; lia).
  assert (Hshift : F2R m2 e2 = F2R (m2 * 2 ^ (e2 - e)) e).
  { rewrite F2R_shift by lia. f_equal. lia. }
  split.
  - rewrite Hshift. unfold F2R.
    pose proof (Zdigits2_bounds m Hm) as Hb. rewrite Hd in Hb.
    assert (Hd1 : 2 ^ (d - 1) = 2 ^ 52 * 2 ^ n).
    { rewrite <- Z.pow_add_r by lia. f_equal. unfold n, prec. lia. }
    assert (HX : m2 * 2 ^ (e2 - e) <= m + 2 ^ n).
    { pose proof (Z.div_mod m (2 ^ n)). pose proof (Z.mod_pos_bound m (2 ^ n)). nia. }
    assert (HN : 2 ^ n * 2 ^ 52 <= m) by lia.
    apply IZR_le in HX. apply IZR_le in HN.
    rewrite plus_IZR in HX. rewrite mult_IZR in HN.
    pose proof (bpow_pos e) as Hbp.
    assert (HXu : (IZR (m2 * 2 ^ (e2 - e)) <= IZR m * (1 + ulp_rel))%R).
    { rewrite ulp_rel_eq. change (2 ^ 52) with 4503599627370496 in HN. lra. }
    nra.
  - intros Hl Hmod. rewrite Hshift, (Hex Hl Hmod). reflexivity.
Qed.

Lemma pack_pos_normal m e :
  2 ^ 52 <= m < 2 ^ 53 -> 3 - emax - prec <= e <= emax - prec ->
  pos_normal (pack false (m, e)) /\ val (pack false (m, e)) = F2R m e.
Proof.
  intros Hm He. unfold pack. cbn [fst snd].
  destruct m as [|p|p]; try lia.
  destruct (Z.leb_spec e (emax - prec)); [|lia].
  split; [|reflexivity]. exists p, e. auto.
Qed.

Lemma Zdigits2_ge m k : 0 < m -> 2 ^ (k - 1) <= m -> k <= Zdigits2 m.
Proof.
  intros Hm Hk. pose proof (Zdigits2_bounds m Hm) as [_ Hb].
  destruct (Z_lt_le_dec (Zdigits2 m) k) as [Hlt|]; [|assumption].
  assert (2 ^ Zdigits2 m <= 2 ^ (k - 1)) by (apply Z.pow_le_mono_r; lia). lia.
Qed.

Lemma Zdigits2_le m k : 0 < m -> 0 <= k -> m < 2 ^ k -> Zdigits2 m <= k.
Proof.
  intros Hm Hk0 Hk. pose proof (Zdigits2_bounds m Hm) as [Hb _].
  destruct (Z_lt_le_dec k (Zdigits2 m)) as [Hlt|]; [|assumption].
  assert (2 ^ k <= 2 ^ (Zdigits2 m - 1)) by (apply Z.pow_le_mono_r; lia). lia.
Qed.

Lemma Zdigits2_pos m : 0 < m -> 0 < Zdigits2 m.
Proof. destruct m; cbn; lia. Qed.

Lemma new_location_0 b : new_location b 0 = loc_Exact.
Proof. unfold new_location, new_location_even, new_location_odd.
  destruct (Z.even b); reflexivity. Qed.

(** The quotient step of [a / b] when both integers are positive, the
    dividend below 2^53 and the divisor below 2^1000: no underflow. *)
Lemma SFdiv_core_small a b :
  0 < a < 2 ^ 53 -> 0 < b < 2 ^ 1000 ->
  let s := 53 + Zdigits2 b - Zdigits2 a in
  SFdiv_core_binary prec emax a 0 b 0 =
    (a * 2 ^ s / b, - s, new_location b ((a * 2 ^ s) mod b)) /\
  0 < s /\ 2 ^ 52 <= a * 2 ^ s / b < 2 ^ 54.
Proof.
  intros Ha Hb s.
  assert (Hda : 0 < Zdigits2 a <= 53) by (split; [apply Zdigits2_pos|apply Zdigits2_le]; lia).
  assert (Hdb : 0 < Zdigits2 b <= 1000) by (split; [apply Zdigits2_pos|apply Zdigits2_le]; lia).
  assert (Hs : 0 < s) by (unfold s; lia).
  split; [|split; [assumption|]].
  - unfold SFdiv_core_binary.
    rewrite !Z.add_0_r, Z.sub_0_r.
    rewrite fexp_normal by (unfold prec, emax; lia).
    rewrite Z.min_l by (unfold prec; lia).
    replace (0 - (Zdigits2 a - Zdigits2 b - prec)) with s by (unfold s, prec; lia).
    destruct s as [|ps|ps] eqn:Es; try lia.
    rewrite Z.shiftl_mul_pow2 by lia.
    unfold Z.div, Z.modulo.
    destruct (Z.div_eucl (a * 2 ^ Z.pos ps) b) as [q r].
    f_equal. f_equal. unfold prec. lia.
  - pose proof (Zdigits2_bounds a ltac:(lia)) as [Hal Hau].
    pose proof (Zdigits2_bounds b ltac:(lia)) as [Hbl Hbu].
    assert (H2s : 0 < 2 ^ s) by (apply Z.pow_pos_nonneg; lia).
    assert (E1 : 2 ^ (Zdigits2 a - 1) * 2 ^ s = 2 ^ 52 * 2 ^ Zdigits2 b).
    { rewrite <- !Z.pow_add_r by lia. f_equal. unfold s. lia. }
    assert (E2 : 2 ^ Zdigits2 a * 2 ^ s = 2 ^ 54 * 2 ^ (Zdigits2 b - 1)).
    { rewrite <- !Z.pow_add_r by lia. f_equal. unfold s. lia. }
    split.
    + apply Z.div_le_lower_bound; [lia|]. nia.
    + apply Z.div_lt_upper_bound; [lia|]. nia.
Qed.

(** [a / b]: a positive normal float, at most one unit in the last place
    above the exact quotient. *)
Lemma int_truediv_small a b :
  0 < a < 2 ^ 53 -> 0 < b < 2 ^ 1000 ->
  exists x, int_truediv a b = Ok x /\ pos_normal x /\
            - Zdigits2 b - 53 <= expo x <= 1 /\
            (val x * IZR b <= IZR a * (1 + ulp_rel))%R.
Proof.
  intros Ha Hb.
  destruct (SFdiv_core_small a b Ha Hb) as (Hcore & Hs & Hq).
  set (s := 53 + Zdigits2 b - Zdigits2 a) in *.
  set (q := a * 2 ^ s / b) in *.
  assert (Hq0 : 0 < q) by lia.
  assert (Hdq : 53 <= Zdigits2 q <= 54).
  { split; [apply Zdigits2_ge; [lia|]; change (53 - 1) with 52; lia
           | apply Zdigits2_le; lia]. }
  assert (Hda : 0 < Zdigits2 a <= 53) by (split; [apply Zdigits2_pos|apply Zdigits2_le]; lia).
  assert (Hdb : 0 < Zdigits2 b <= 1000) by (split; [apply Zdigits2_pos|apply Zdigits2_le]; lia).
  destruct (round_core_rel q (- s) (new_location b ((a * 2 ^ s) mod b)) (Zdigits2 q))
    as (m2 & e2 & Hrc & Hm2 & He2 & Hrel & _);
    try (unfold prec, emax; lia); try reflexivity.
  destruct (pack_pos_normal m2 e2 Hm2) as [Hpn Hval];
    [unfold prec, emax in *; unfold s in *; lia|].
  exists (pack false (m2, e2)). split; [|split; [assumption|split]].
  - unfold int_truediv. destruct (Z.eqb_spec b 0); [lia|].
    assert (Hdiv : fdiv (exact_of_int a) (exact_of_int b) = pack false (m2, e2)).
    { destruct a as [|pa|pa]; try lia. destruct b as [|pb|pb]; try lia.
      unfold fdiv, exact_of_int, SFdiv. rewrite Hcore. fold q.
      cbn [xorb]. rewrite binary_round_aux_core, Hrc. reflexivity. }
    rewrite Hdiv. destruct Hpn as (m & e & -> & _). reflexivity.
  - destruct Hpn as (m' & e' & Hp & ? & ?).
    assert (e' = e2).
    { unfold pack in Hp. cbn [fst snd] in Hp. destruct m2; try lia.
      destruct (e2 <=? emax - prec); inversion Hp. reflexivity. }
    rewrite Hp. cbn [expo]. unfold prec, s in *. lia.
  - rewrite Hval.
    assert (Hqb : q * b <= a * 2 ^ s).
    { unfold q. rewrite Z.mul_comm. apply Z.mul_div_le. lia. }
    apply IZR_le in Hqb. rewrite !mult_IZR, <- bpow_IZR in Hqb by lia.
    assert (Hone : (bpow s * bpow (- s) = 1)%R).
    { rewrite <- bpow_add. replace (s + - s) with 0 by lia. reflexivity. }
    unfold F2R in Hrel.
    pose proof (bpow_pos s). pose proof (bpow_pos (- s)).
    assert (Hu : (0 < 1 + ulp_rel)%R) by (rewrite ulp_rel_eq; lra).
    assert (Hb0 : (0 < IZR b)%R) by (apply IZR_lt; lia).
    assert (Hq1 : (IZR q * bpow (- s) * IZR b <= IZR a)%R).
    { assert ((IZR q * IZR b) * bpow (- s) <= (IZR a * bpow s) * bpow (- s))%R
          as Hq2 by (apply Rmult_le_compat_r; lra).
      replace (IZR a * bpow s * bpow (- s))%R with (IZR a * (bpow s * bpow (- s)))%R in Hq2 by ring.
      rewrite Hone in Hq2. lra. }
    unfold F2R.
    apply Rle_trans with ((IZR q * bpow (- s) * (1 + ulp_rel)) * IZR b)%R.
    + apply Rmult_le_compat_r; lra.
    + replace (IZR q * bpow (- s) * (1 + ulp_rel) * IZR b)%R
        with ((IZR q * bpow (- s) * IZR b) * (1 + ulp_rel))%R by ring.
      apply Rmult_le_compat_r; lra.
Qed.

Lemma pos_iter_xO k : forall p, Zpos (Pos.iter xO p k) = Zpos p * 2 ^ Zpos k.
Proof.
  induction k as [|k IH] using Pos.peano_ind; intros p.
  - cbn [Pos.iter]. rewrite Z.pow_1_r. lia.
  - rewrite Pos.iter_succ, Pos2Z.inj_xO, IH, Pos2Z.inj_succ, Z.pow_succ_r by lia. lia.
Qed.

Lemma float_of_int_small w :
  0 < w < 2 ^ 53 ->
  exists x, float_of_int w = Ok x /\ pos_normal x /\ val x = IZR w /\
            -52 <= expo x <= 0.
Proof.
  intros Hw. destruct w as [|p|p]; try lia.
  pose proof (digits2_bounds p) as Hb.
  assert (Hd : 0 < Zpos (digits2_pos p) <= 53).
  { split; [lia|]. apply (Zdigits2_le (Zpos p)); lia. }
  set (d := Zpos (digits2_pos p)) in *.
  unfold float_of_int, binary_normalize, binary_round.
  rewrite Z.add_0_r. fold d. rewrite fexp_normal by (unfold prec, emax; lia).
  assert (Hal : exists mz, shl_align p 0 (d - prec) = (mz, d - prec) /\
                           Zpos mz = Zpos p * 2 ^ (53 - d)).
  { unfold shl_align. rewrite Z.sub_0_r.
    destruct (d - prec) as [|k|k] eqn:Ek; try (unfold prec in Ek; lia).
    - exists p. replace (53 - d) with 0 by (unfold prec in Ek; lia).
      rewrite Z.pow_0_r. split; [reflexivity|lia].
    - exists (Pos.iter xO p k). rewrite pos_iter_xO.
      replace (53 - d) with (Zpos k) by (unfold prec in Ek; lia).
      split; reflexivity. }
  destruct Hal as (mz & -> & Hmz).
  assert (Hmzb : 2 ^ 52 <= Zpos mz < 2 ^ 53).
  { rewrite Hmz.
    assert (E1 : 2 ^ (d - 1) * 2 ^ (53 - d) = 2 ^ 52)
      by (rewrite <- Z.pow_add_r by lia; f_equal; lia).
    assert (E2 : 2 ^ d * 2 ^ (53 - d) = 2 ^ 53)
      by (rewrite <- Z.pow_add_r by lia; f_equal; lia).
    assert (0 < 2 ^ (53 - d)) by (apply Z.pow_pos_nonneg; lia).
    nia. }
  assert (Hdz : Zdigits2 (Zpos mz) = 53)
    by (apply Zdigits2_unique; [lia|]; change (53 - 1) with 52; assumption).
  destruct (round_core_rel (Zpos mz) (d - prec) loc_Exact 53)
    as (m2 & e2 & Hrc & Hm2 & He2 & _ & Hex);
    try (unfold prec, emax; lia); try assumption.
  destruct (pack_pos_normal m2 e2 Hm2) as [Hpn Hval];
    [unfold prec, emax in *; lia|].
  rewrite binary_round_aux_core, Hrc.
  exists (pack false (m2, e2)).
  assert (Hfin : is_finite (pack false (m2, e2)) = true)
    by (destruct Hpn as (m & e & -> & _); reflexivity).
  rewrite Hfin. split; [reflexivity|]. split; [assumption|].
  split.
  - rewrite Hval, Hex; [|reflexivity|unfold prec; rewrite Z.sub_diag, Z.pow_0_r; apply Z.mod_1_r].
    rewrite Hmz, F2R_shift by lia. unfold F2R.
    replace (d - prec + (53 - d)) with 0 by (unfold prec; lia).
    unfold bpow. rewrite powerRZ_O. ring.
  - destruct Hpn as (m & e & Hp & ? & ?).
    assert (e = e2).
    { unfold pack in Hp. cbn [fst snd] in Hp. destruct m2; try lia.
      destruct (e2 <=? emax - prec); inversion Hp. reflexivity. }
    rewrite Hp. cbn [expo]. unfold prec in *. 
    (* no carry is possible: the value is exactly w < 2^53 *)
    assert (Hexact : m2 * 2 ^ (e2 - (d - 53)) = Zpos mz).
    { destruct (round_core_normal (Zpos mz) (d - 53) loc_Exact 53)
        as (m2' & e2' & Hrc' & _ & _ & _ & Hex');
        try (unfold prec, emax; lia); try assumption.
      unfold prec in Hrc. rewrite Hrc in Hrc'. inversion Hrc'; subst m2' e2'.
      apply Hex'; [reflexivity|]. unfold prec. rewrite Z.sub_diag, Z.pow_0_r. apply Z.mod_1_r. }
    assert (Hcases : e2 = d - 53 \/ e2 = d - 53 + 1) by lia.
    destruct Hcases as [->| ->]; [lia|].
    replace (d - 53 + 1 - (d - 53)) with 1 in Hexact by lia.
    rewrite Z.pow_1_r in Hexact. lia.
Qed.

Lemma fmul_core mx ex my ey :
  2 ^ 52 <= Zpos mx < 2 ^ 53 -> 2 ^ 52 <= Zpos my < 2 ^ 53 ->
  -1126 <= ex + ey <= 917 ->
  let m := Zpos mx * Zpos my in
  exists z, fmul (S754_finite false mx ex) (S754_finite false my ey) = z /\
            pos_normal z /\
            ex + ey + 52 <= expo z <= ex + ey + 54 /\
            (val z <= F2R m (ex + ey) * (1 + ulp_rel))%R /\
            (m mod 2 ^ (Zdigits2 m - prec) = 0 -> val z = F2R m (ex + ey)).
Proof.
  intros Hx Hy He m.
  assert (Hm : 2 ^ 104 <= m < 2 ^ 106).
  { unfold m. change (2 ^ 104) with (2 ^ 52 * 2 ^ 52). change (2 ^ 106) with (2 ^ 53 * 2 ^ 53).
    nia. }
  assert (Hd : 105 <= Zdigits2 m <= 106).
  { split; [apply Zdigits2_ge; [lia|]; change (105 - 1) with 104; lia
           | apply Zdigits2_le; lia]. }
  destruct (round_core_rel m (ex + ey) loc_Exact (Zdigits2 m))
    as (m2 & e2 & Hrc & Hm2 & He2 & Hrel & Hex);
    try (unfold prec, emax; lia); try reflexivity.
  destruct (pack_pos_normal m2 e2 Hm2) as [Hpn Hval];
    [unfold prec, emax in *; lia|].
  exists (pack false (m2, e2)).
  split.
  { unfold fmul, SFmul. cbn [xorb]. rewrite binary_round_aux_core.
    change (Z.pos (mx * my)) with m. rewrite Hrc. reflexivity. }
  split; [assumption|]. split.
  { destruct Hpn as (m' & e' & Hp & ? & ?).
    assert (e' = e2).
    { unfold pack in Hp. cbn [fst snd] in Hp. destruct m2; try lia.
      destruct (e2 <=? emax - prec); inversion Hp. reflexivity. }
    rewrite Hp. cbn [expo]. unfold prec in *. lia. }
  rewrite Hval. split; [assumption|].
  intros Hmod. apply Hex; [reflexivity|assumption].
Qed.

Lemma F2R_mul m1 e1 m2 e2 : F2R (m1 * m2) (e1 + e2) = (F2R m1 e1 * F2R m2 e2)%R.
Proof. unfold F2R. rewrite mult_IZR, bpow_add. ring. Qed.

Lemma fmul_pos_normal x y :
  pos_normal x -> pos_normal y -> -1126 <= expo x + expo y <= 917 ->
  pos_normal (fmul x y) /\ (val (fmul x y) <= val x * val y * (1 + ulp_rel))%R.
Proof.
  intros (mx & ex & -> & Hmx & _) (my & ey & -> & Hmy & _) He. cbn [expo] in He.
  destruct (fmul_core mx ex my ey Hmx Hmy He) as (z & Hz & Hpn & _ & Hrel & _).
  rewrite Hz. split; [assumption|].
  cbn [val]. rewrite <- F2R_mul. assumption.
Qed.

Lemma fmul_one x :
  pos_normal x -> -1074 <= expo x <= 969 ->
  pos_normal (fmul x fone) /\ val (fmul x fone) = val x.
Proof.
  intros (mx & ex & -> & Hmx & _) He. cbn [expo] in He.
  destruct (fmul_core mx ex 4503599627370496 (-52) Hmx) as (z & Hz & Hpn & _ & _ & Hex);
    [change (2 ^ 52) with 4503599627370496; change (2 ^ 53) with 9007199254740992; lia
    | lia |].
  unfold fone. rewrite Hz. split; [assumption|].
  rewrite Hex.
  - rewrite F2R_mul. cbn [val].
    assert (H1 : F2R 4503599627370496 (-52) = 1%R).
    { unfold F2R. change 4503599627370496 with (2 ^ 52).
      rewrite <- bpow_IZR, <- bpow_add by lia. reflexivity. }
    rewrite H1. ring.
  - set (m := Zpos mx * 4503599627370496).
    assert (Hm : 2 ^ 104 <= m < 2 ^ 105).
    { unfold m. change (2 ^ 104) with (2 ^ 52 * 4503599627370496).
      change (2 ^ 105) with (2 ^ 53 * 4503599627370496). lia. }
    rewrite (Zdigits2_unique m 105) by (try lia; change (105 - 1) with 104; lia).
    unfold m, prec. change (105 - 53) with 52. change (2 ^ 52) with 4503599627370496.
    apply Z.mod_mul. lia.
Qed.

(** [int(x)] of a positive finite float is the floor of its value. *)
Lemma int_of_float_finite m e :
  let x := S754_finite false m e in
  exists t, int_of_float x = Ok t /\ 0 <= t /\ (IZR t <= val x < IZR t + 1)%R.
Proof.
  cbn [int_of_float val].
  exists (trunc_mag m e). split; [reflexivity|].
  unfold trunc_mag, F2R. destruct e as [|p|p].
  - change (bpow 0) with 1%R. split; [lia|]. lra.
  - rewrite Z.shiftl_mul_pow2, mult_IZR, <- bpow_IZR by lia.
    split; [|lra]. assert (0 < 2 ^ Zpos p) by (apply Z.pow_pos_nonneg; lia). nia.
  - rewrite Z.shiftr_div_pow2 by lia.
    assert (H2 : 0 < 2 ^ Zpos p) by (apply Z.pow_pos_nonneg; lia).
    pose proof (Z.div_mod (Zpos m) (2 ^ Zpos p) ltac:(lia)) as Hdm.
    pose proof (Z.mod_pos_bound (Zpos m) (2 ^ Zpos p) H2) as Hmod.
    set (t := Zpos m / 2 ^ Zpos p) in *.
    split; [apply Z.div_pos; lia|].
    assert (Hlo : t * 2 ^ Zpos p <= Zpos m) by lia.
    assert (Hhi : Zpos m < (t + 1) * 2 ^ Zpos p) by lia.
    apply IZR_le in Hlo. apply IZR_lt in Hhi.
    rewrite mult_IZR, <- bpow_IZR in Hlo, Hhi by lia. rewrite plus_IZR in Hhi.
    assert (Hone : (bpow (Zpos p) * bpow (Zneg p) = 1)%R).
    { rewrite <- bpow_add. change (Zpos p + Zneg p) with (Zpos p - Zpos p).
      rewrite Z.sub_diag. reflexivity. }
    pose proof (bpow_pos (Zpos p)). pose proof (bpow_pos (Zneg p)).
    split.
    + apply Rle_trans with ((IZR t * bpow (Zpos p)) * bpow (Zneg p))%R.
      * replace (IZR t * bpow (Zpos p) * bpow (Zneg p))%R
          with (IZR t * (bpow (Zpos p) * bpow (Zneg p)))%R by ring.
        rewrite Hone. lra.
      * apply Rmult_le_compat_r; lra.
    + apply Rlt_le_trans with (((IZR t + 1) * bpow (Zpos p)) * bpow (Zneg p))%R.
      * apply Rmult_lt_compat_r; lra.
      * replace ((IZR t + 1) * bpow (Zpos p) * bpow (Zneg p))%R
          with ((IZR t + 1) * (bpow (Zpos p) * bpow (Zneg p)))%R by ring.
        rewrite Hone. lra.
Qed.

Lemma int_of_float_pos x :
  pos_normal x ->
  exists t, int_of_float x = Ok t /\ 0 <= t /\ (IZR t <= val x < IZR t + 1)%R.
Proof. intros (m & e & -> & _). apply int_of_float_finite. Qed.

Lemma val_pos_normal_lt m1 e1 m2 e2 :
  2 ^ 52 <= m1 < 2 ^ 53 -> 2 ^ 52 <= m2 < 2 ^ 53 -> e1 < e2 ->
  (F2R m1 e1 < F2R m2 e2)%R.
Proof.
  intros H1 H2 He. unfold F2R.
  assert (Hb : (bpow (e1 + 1) <= bpow e2)%R) by (apply bpow_le; lia).
  rewrite bpow_add in Hb.
  assert (Hb1 : bpow 1 = 2%R) by (unfold bpow; simpl; lra). rewrite Hb1 in Hb.
  pose proof (bpow_pos e1).
  assert (IZR m1 < IZR (2 ^ 53))%R by (apply IZR_lt; lia).
  assert (IZR (2 ^ 52) <= IZR m2)%R by (apply IZR_le; lia).
  change (IZR (2 ^ 53)) with 9007199254740992%R in *.
  change (IZR (2 ^ 52)) with 4503599627370496%R in *.
  apply Rlt_le_trans with (9007199254740992 * bpow e1)%R; [nra|].
  apply Rle_trans with (4503599627370496 * bpow e2)%R; [lra|].
  pose proof (bpow_pos e2). nra.
Qed.

Lemma min_float_pos_normal a b :
  pos_normal a -> pos_normal b ->
  pos_normal (min_float a b) /\
  (min_float a b = a \/ min_float a b = b) /\
  (val (min_float a b) <= val a)%R /\ (val (min_float a b) <= val b)%R.
Proof.
  intros Ha Hb.
  pose proof Ha as (ma & ea & Ea & Hma & Hea).
  pose proof Hb as (mb & eb & Eb & Hmb & Heb).
  unfold min_float, fltb, SFltb. subst a b. cbn [SFcompare].
  destruct (Z.compare_spec eb ea) as [Heq|Hlt|Hgt].
  - subst eb. rewrite Pos.compare_cont_spec.
    destruct (Pos.compare_spec mb ma) as [Hm|Hm|Hm]; cbn [Pos.switch_Eq].
    + subst mb. repeat split; auto; lra.
    + repeat split; auto; try lra. cbn [val]. unfold F2R.
      pose proof (bpow_pos ea).
      assert (IZR (Zpos mb) < IZR (Zpos ma))%R by (apply IZR_lt; lia). nra.
    + repeat split; auto; try lra. cbn [val]. unfold F2R.
      pose proof (bpow_pos ea).
      assert (IZR (Zpos ma) < IZR (Zpos mb))%R by (apply IZR_lt; lia). nra.
  - repeat split; auto; try lra. cbn [val].
    apply Rlt_le. apply val_pos_normal_lt; assumption.
  - repeat split; auto; try lra. cbn [val].
    apply Rlt_le. apply val_pos_normal_lt; assumption.
Qed.

(** ** Rounding without any assumption on the range: the result is at most
    one unit of the target exponent above the exact value. *)

Lemma shr_fexp_general m e l :
  0 <= m ->
  let e1 := Z.max e (fexp prec emax (Zdigits2 m + e)) in
  exists r, shr_fexp prec emax m e l = (r, e1) /\ shr_m r = m / 2 ^ (e1 - e).
Proof.
  intros Hm e1. unfold shr_fexp, shr.
  destruct (fexp prec emax (Zdigits2 m + e) - e) as [|n|n] eqn:En.
  - exists (shr_record_of_loc m l). replace e1 with e by (unfold e1; lia).
    rewrite Z.sub_diag, Z.pow_0_r, Z.div_1_r, shr_m_of_loc. auto.
  - exists (SpecFloat.iter_pos shr_1 n (shr_record_of_loc m l)).
    replace e1 with (e + Zpos n) by (unfold e1; lia).
    rewrite iter_shr_m by (rewrite shr_m_of_loc; lia).
    rewrite shr_m_of_loc. replace (e + Zpos n - e) with (Zpos n) by lia. auto.
  - exists (shr_record_of_loc m l). replace e1 with e by (unfold e1; lia).
    rewrite Z.sub_diag, Z.pow_0_r, Z.div_1_r, shr_m_of_loc. auto.
Qed.

Lemma round_core_upper m e l m2 e2 :
  0 <= m -> round_core m e l = (m2, e2) ->
  let e1 := Z.max e (fexp prec emax (Zdigits2 m + e)) in
  0 <= m2 /\ e1 <= e2 /\ m2 * 2 ^ (e2 - e) <= m + 2 ^ (e1 - e).
Proof.
  intros Hm Hrc e1. unfold round_core in Hrc.
  destruct (shr_fexp_general m e l Hm) as (r & Hr & Hrm). fold e1 in Hr, Hrm.
  rewrite Hr in Hrc.
  set (m1 := shr_m r) in *.
  assert (H2a : 0 < 2 ^ (e1 - e)) by (apply Z.pow_pos_nonneg; unfold e1; lia).
  assert (Hm1 : 0 <= m1) by (rewrite Hrm; apply Z.div_pos; lia).
  pose proof (rne_bounds m1 (loc_of_shr_record r)) as Hrne.
  set (m1' := round_nearest_even m1 (loc_of_shr_record r)) in *.
  destruct (shr_fexp_general m1' e1 loc_Exact ltac:(lia)) as (r2 & Hr2 & Hr2m).
  rewrite Hr2 in Hrc. injection Hrc as <- <-.
  set (e2 := Z.max e1 (fexp prec emax (Zdigits2 m1' + e1))) in *.
  assert (H2b : 0 < 2 ^ (e2 - e1)) by (apply Z.pow_pos_nonneg; unfold e2; lia).
  assert (He : 2 ^ (e2 - e) = 2 ^ (e2 - e1) * 2 ^ (e1 - e)).
  { rewrite <- Z.pow_add_r by (unfold e2, e1; lia). f_equal. lia. }
  split; [rewrite Hr2m; apply Z.div_pos; lia|].
  split; [unfold e2; lia|].
  rewrite Hr2m, He.
  assert (Hq2 : m1' / 2 ^ (e2 - e1) * 2 ^ (e2 - e1) <= m1').
  { rewrite Z.mul_comm. apply Z.mul_div_le. lia. }
  assert (Hq1 : m1 * 2 ^ (e1 - e) <= m).
  { rewrite Hrm, Z.mul_comm. apply Z.mul_div_le. lia. }
  nia.
Qed.

(* ================================================================== *)
(** * collect_image_paths: natural order *)
(* ================================================================== *)

(** ** The order on strings *)

Lemma N_of_ascii_inj a b : N_of_ascii a = N_of_ascii b -> a = b.
Proof.
  intros H. rewrite <- (ascii_N_embedding a), <- (ascii_N_embedding b), H.
  reflexivity.
Qed.

Lemma str_ltb_irrefl s : str_ltb s s = false.
Proof.
  induction s as [|c s IH]; [reflexivity|].
  cbn [str_ltb]. rewrite N.ltb_irrefl. exact IH.
Qed.

Lemma str_ltb_trans : forall s t v,
  str_ltb s t = true -> str_ltb t v = true -> str_ltb s v = true.
Proof.
  induction s as [|a s IH]; intros [|b t] [|c v]; cbn [str_ltb]; try discriminate; auto.
  destruct (N.ltb_spec (N_of_ascii a) (N_of_ascii b)),
           (N.ltb_spec (N_of_ascii b) (N_of_ascii a)),
           (N.ltb_spec (N_of_ascii b) (N_of_ascii c)),
           (N.ltb_spec (N_of_ascii c) (N_of_ascii b)),
           (N.ltb_spec (N_of_ascii a) (N_of_ascii c)),
           (N.ltb_spec (N_of_ascii c) (N_of_ascii a));
    try discriminate; try reflexivity; try lia; eauto.
Qed.

Lemma str_ltb_total : forall s t,
  str_ltb s t = false -> s <> t -> str_ltb t s = true.
Proof.
  induction s as [|a s IH]; intros [|b t]; cbn [str_ltb]; try discriminate.
  - intros _ H. exfalso. apply H. reflexivity.
  - reflexivity.
  - destruct (N.ltb_spec (N_of_ascii a) (N_of_ascii b)),
             (N.ltb_spec (N_of_ascii b) (N_of_ascii a));
      try discriminate; try reflexivity; try lia.
    intros Hlt Hne. apply IH; [assumption|].
    assert (a = b) by (apply N_of_ascii_inj; lia).
    congruence.
Qed.

(** ** The order on tokens and keys *)

Lemma elem_eqb_eq a b : elem_eqb a b = true <-> a = b.
Proof.
  destruct a as [x|s], b as [y|t]; cbn [elem_eqb]; split; try discriminate.
  - intros H. apply Z.eqb_eq in H. congruence.
  - intros [= ->]. apply Z.eqb_refl.
  - intros H. apply String.eqb_eq in H. congruence.
  - intros [= ->]. apply String.eqb_refl.
Qed.

Lemma token_lt_irrefl a : ~ token_lt a a.
Proof.
  intros H. inversion H; subst; [lia|].
  rewrite str_ltb_irrefl in *. discriminate.
Qed.

Lemma token_lt_trans a b c : token_lt a b -> token_lt b c -> token_lt a c.
Proof.
  intros Hab Hbc. inversion Hab; subst; inversion Hbc; subst; constructor.
  - lia.
  - eapply str_ltb_trans; eassumption.
Qed.

Lemma tokens_lt_trans : forall k1 k2 k3,
  tokens_lt k1 k2 -> tokens_lt k2 k3 -> tokens_lt k1 k3.
Proof.
  intros k1 k2 k3 H12. revert k3.
  induction H12 as [b k|a b k1 k2 Hab|a k1 k2 H12 IH]; intros k3 H23;
    inversion H23; subst.
  - constructor.
  - constructor.
  - apply tokens_lt_head. eapply token_lt_trans; eassumption.
  - apply tokens_lt_head. assumption.
  - apply tokens_lt_head. assumption.
  - apply tokens_lt_tail. apply IH. assumption.
Qed.

(** On two keys of one shape [<] never raises, and it decides the
    lexicographic order. *)
Lemma key_ltb_shape : forall k1 k2 b,
  key_shape b k1 -> key_shape b k2 ->
  (key_ltb k1 k2 = Ok true /\ tokens_lt k1 k2) \/
  (key_ltb k1 k2 = Ok false /\ (k1 = k2 \/ tokens_lt k2 k1)).
Proof.
  induction k1 as [|a k1 IH]; intros [|c k2] b H1 H2.
  - right. split; [reflexivity|]. left. reflexivity.
  - left. split; [reflexivity|constructor].
  - right. split; [reflexivity|]. right. constructor.
  - cbn [key_ltb].
    destruct (elem_eqb a c) eqn:Heq.
    + apply elem_eqb_eq in Heq. subst c.
      assert (Hsub : exists b', key_shape b' k1 /\ key_shape b' k2).
      { destruct a; cbn [key_shape] in H1, H2; destruct H1, H2; eauto. }
      destruct Hsub as (b' & Hs1 & Hs2).
      destruct (IH k2 b' Hs1 Hs2) as [[-> Hlt]|[-> [Heq|Hlt]]].
      * left. split; [reflexivity|]. apply tokens_lt_tail. assumption.
      * right. split; [reflexivity|]. left. congruence.
      * right. split; [reflexivity|]. right. apply tokens_lt_tail. assumption.
    + assert (Hne : a <> c) by (intros ->;
        rewrite (proj2 (elem_eqb_eq c c) eq_refl) in Heq; discriminate).
      destruct a as [x|s], c as [y|t]; cbn [key_shape] in H1, H2;
        try (destruct H1 as [-> _], H2 as [? _]; discriminate);
        cbn [elem_ltb].
      * destruct (Z.ltb_spec x y).
        -- left. split; [reflexivity|]. apply tokens_lt_head. constructor. assumption.
        -- right. split; [reflexivity|]. right. apply tokens_lt_head. constructor.
           assert (x <> y) by congruence. lia.
      * destruct (str_ltb s t) eqn:Hst.
        -- left. split; [reflexivity|]. apply tokens_lt_head. constructor. assumption.
        -- right. split; [reflexivity|]. right. apply tokens_lt_head. constructor.
           apply str_ltb_total; [assumption|congruence].
Qed.

(** ** The pieces [re.split] returns *)

Lemma all_decimal_rev : forall s acc,
  all_decimal (rev_string acc s) = all_decimal acc && all_decimal s.
Proof.
  induction s as [|c s IH]; intros acc; cbn [rev_string all_decimal].
  - rewrite andb_true_r. reflexivity.
  - rewrite IH. cbn [all_decimal]. destruct (is_decimal c), (all_decimal acc); reflexivity.
Qed.

Lemma no_decimal_rev : forall s acc,
  no_decimal (rev_string acc s) = no_decimal acc && no_decimal s.
Proof.
  induction s as [|c s IH]; intros acc; cbn [rev_string no_decimal].
  - rewrite andb_true_r. reflexivity.
  - rewrite IH. cbn [no_decimal]. destruct (is_decimal c), (no_decimal acc); reflexivity.
Qed.

Lemma rev_string_nonempty : forall s acc, acc <> EmptyString -> rev_string acc s <> EmptyString.
Proof.
  induction s as [|c s IH]; intros acc Hacc; cbn [rev_string]; [assumption|].
  apply IH. discriminate.
Qed.

Lemma append_assoc_str : forall a b c : string, ((a ++ b) ++ c = a ++ (b ++ c))%string.
Proof.
  induction a as [|x a IH]; intros b c; cbn [append]; [reflexivity|].
  rewrite IH. reflexivity.
Qed.

Lemma rev_string_app : forall s acc,
  rev_string acc s = (rev_string EmptyString s ++ acc)%string.
Proof.
  induction s as [|c s IH]; intros acc; cbn [rev_string]; [reflexivity|].
  rewrite (IH (String c acc)), (IH (String c EmptyString)), append_assoc_str.
  reflexivity.
Qed.

(** The piece being read, once reversed, is of the kind being read. *)
Lemma piece_kind_rev b cur :
  piece_kind b cur -> piece_kind b (rev_string EmptyString cur).
Proof.
  unfold piece_kind. destruct b.
  - intros [Hne Hall]. split.
    + destruct cur as [|c cur]; [contradiction|]. cbn [rev_string].
      apply rev_string_nonempty. discriminate.
    + rewrite all_decimal_rev. assumption.
  - intros Hno. rewrite no_decimal_rev. assumption.
Qed.

Lemma split_runs_alternate : forall s b cur,
  piece_kind b cur -> pieces_alternate b (split_runs b cur s).
Proof.
  induction s as [|c s IH]; intros b cur Hinv; cbn [split_runs].
  - apply piece_kind_rev in Hinv.
    destruct b; cbn [pieces_alternate negb].
    + split; [assumption|]. split; [reflexivity|exact I].
    + split; [assumption|exact I].
  - destruct (Bool.eqb (is_decimal c) b) eqn:Hc.
    + apply Bool.eqb_prop in Hc. apply IH.
      unfold piece_kind in *. destruct b.
      * split; [discriminate|]. cbn [all_decimal]. rewrite Hc. tauto.
      * cbn [no_decimal]. rewrite Hc. assumption.
    + cbn [pieces_alternate]. split; [apply piece_kind_rev; assumption|].
      assert (Hneg : is_decimal c = negb b)
        by (destruct (is_decimal c), b; cbn in Hc; try discriminate; reflexivity).
      rewrite <- Hneg. apply IH.
      unfold piece_kind. destruct (is_decimal c) eqn:Hd.
      * split; [discriminate|]. cbn [all_decimal]. rewrite Hd. reflexivity.
      * cbn [no_decimal]. rewrite Hd. reflexivity.
Qed.

Lemma split_runs_join : forall s b cur,
  join (split_runs b cur s) = (rev_string EmptyString cur ++ s)%string.
Proof.
  induction s as [|c s IH]; intros b cur; cbn [split_runs].
  - destruct b; cbn [join]; rewrite ?append_assoc_str; reflexivity.
  - destruct (Bool.eqb (is_decimal c) b).
    + rewrite IH. cbn [rev_string].
      rewrite (rev_string_app cur (String c EmptyString)), append_assoc_str.
      reflexivity.
    + cbn [join]. rewrite IH. reflexivity.
Qed.

(** ** The key of a name *)

Lemma all_decimal_isdigit s : all_decimal s = true -> all_isdigit s = true.
Proof.
  induction s as [|c s IH]; cbn [all_decimal all_isdigit]; [reflexivity|].
  intros H. apply andb_true_iff in H. destruct H as [Hc Hs].
  unfold char_isdigit. rewrite Hc, IH by assumption. reflexivity.
Qed.

(** A digit run becomes an integer. *)
Lemma key_elem_of_run t :
  piece_kind true t -> str_isdigit t = true /\ int_of_str t = Ok (int_of_digits 0 t).
Proof.
  intros [Hne Hall]. destruct t as [|c t]; [contradiction|].
  unfold str_isdigit, int_of_str. rewrite Hall, all_decimal_isdigit by assumption.
  split; reflexivity.
Qed.

(** A text piece that [isdigit] accepts has no decimal digit in it:
    [int] refuses it. *)
Lemma key_elem_of_text t :
  piece_kind false t -> str_isdigit t = true ->
  int_of_str t = Raise (ValueError invalid_literal_msg).
Proof.
  unfold piece_kind, str_isdigit, int_of_str.
  destruct t as [|c t]; [discriminate|].
  cbn [no_decimal all_decimal]. intros Hno _.
  destruct (is_decimal c); [discriminate|]. reflexivity.
Qed.

Lemma pieces_key_shape : forall l b k,
  pieces_alternate b l ->
  map_result
    (fun text => if str_isdigit text then (n <- int_of_str text ;; Ok (KInt n))%py
                 else Ok (KStr (str_lower text))) l = Ok k ->
  key_shape (negb b) k.
Proof.
  induction l as [|t l IH]; intros b k; cbn [pieces_alternate map_result].
  - intros _ [= <-]. exact I.
  - intros [Ht Hl] Hk. destruct b.
    + destruct (key_elem_of_run t Ht) as [Hd Hi]. rewrite Hd, Hi in Hk.
      cbn [bind] in Hk.
      destruct (map_result _ l) as [k'|] eqn:Hk'; [|discriminate].
      cbn [bind] in Hk. injection Hk as <-. cbn [key_shape negb].
      split; [reflexivity|]. apply (IH false k' Hl eq_refl).
    + destruct (str_isdigit t) eqn:Hd.
      * rewrite (key_elem_of_text t Ht Hd) in Hk. discriminate.
      * cbn [bind] in Hk.
        destruct (map_result _ l) as [k'|] eqn:Hk'; [|discriminate].
        cbn [bind] in Hk. injection Hk as <-. cbn [key_shape negb].
        split; [reflexivity|]. apply (IH true k' Hl eq_refl).
Qed.

Lemma natural_sort_key_shape s k : natural_sort_key s = Ok k -> key_shape true k.
Proof.
  unfold natural_sort_key, re_split_digits. intros Hk.
  apply (pieces_key_shape (split_runs false EmptyString s) false k); [|exact Hk].
  apply split_runs_alternate. reflexivity.
Qed.

(** A name without superscript digits has a key. *)
Lemma no_superscript_app : forall a b,
  no_superscript (a ++ b) = no_superscript a && no_superscript b.
Proof.
  induction a as [|c a IH]; intros b; cbn [append no_superscript]; [reflexivity|].
  rewrite IH, andb_assoc. reflexivity.
Qed.

Lemma text_without_superscript t :
  piece_kind false t -> no_superscript t = true -> str_isdigit t = false.
Proof.
  unfold piece_kind, str_isdigit. destruct t as [|c t]; [reflexivity|].
  cbn [no_decimal no_superscript all_isdigit]. unfold char_isdigit.
  destruct (is_decimal c); [discriminate|].
  destruct (is_superscript c); [discriminate|]. reflexivity.
Qed.

Lemma pieces_have_key : forall l b,
  pieces_alternate b l -> no_superscript (join l) = true ->
  exists k,
    map_result
      (fun text => if str_isdigit text then (n <- int_of_str text ;; Ok (KInt n))%py
                   else Ok (KStr (str_lower text))) l = Ok k.
Proof.
  induction l as [|t l IH]; intros b; cbn [pieces_alternate join map_result].
  - intros _ _. eexists. reflexivity.
  - intros [Ht Hl] Hplain. rewrite no_superscript_app in Hplain.
    apply andb_true_iff in Hplain. destruct Hplain as [Hpt Hpl].
    destruct (IH _ Hl Hpl) as (k' & ->). destruct b.
    + destruct (key_elem_of_run t Ht) as [-> ->]. cbn [bind]. eexists. reflexivity.
    + rewrite (text_without_superscript t Ht Hpt). cbn [bind]. eexists. reflexivity.
Qed.

Lemma natural_sort_key_plain s :
  no_superscript s = true -> exists k, natural_sort_key s = Ok k.
Proof.
  intros Hplain. unfold natural_sort_key, re_split_digits.
  apply (pieces_have_key (split_runs false EmptyString s) false).
  - apply split_runs_alternate. reflexivity.
  - rewrite split_runs_join. exact Hplain.
Qed.

(** ** Sorting by keys that all have one shape *)

Section SortedByKey.
Context {A : Type} (key : A -> list key_elem).

Let shaped (a : A) : Prop := key_shape true (key a).

Lemma key_le_trans a b c : key_le key a b -> key_le key b c -> key_le key a c.
Proof.
  unfold key_le. intros [Hab|Hab] [Hbc|Hbc].
  - left. congruence.
  - right. rewrite Hab. assumption.
  - right. rewrite <- Hbc. assumption.
  - right. eapply tokens_lt_trans; eassumption.
Qed.

Lemma tokens_lt_irrefl : forall k, ~ tokens_lt k k.
Proof.
  induction k as [|a k IH]; intros H; inversion H; subst.
  - eapply token_lt_irrefl. eassumption.
  - apply IH. assumption.
Qed.

Lemma insert_by_key_sorted x : forall l,
  shaped x -> Forall shaped l ->
  exists l', insert_by_key key x l = Ok l' /\
             Permutation (x :: l) l' /\
             (StronglySorted (key_le key) l -> StronglySorted (key_le key) l').
Proof.
  intros l Hx. induction l as [|y l IH]; intros Hl.
  - exists [x]. repeat split; auto. intros _. repeat constructor.
  - inversion Hl as [|? ? Hy Hl']; subst. cbn [insert_by_key].
    destruct (key_ltb_shape (key y) (key x) true Hy Hx)
      as [[-> Hlt]|[-> Hge]]; cbn [bind].
    + destruct (IH Hl') as (l' & -> & Hperm & Hsorted). cbn [bind].
      exists (y :: l'). split; [reflexivity|]. split.
      * eapply perm_trans; [apply perm_swap|]. apply perm_skip. assumption.
      * intros Hs. inversion Hs as [|? ? Hsl Hall]; subst.
        constructor; [apply Hsorted; assumption|].
        assert (Hyx : key_le key y x) by (right; assumption).
        eapply Permutation_Forall; [exact Hperm|].
        constructor; assumption.
    + exists (x :: y :: l). repeat split; auto.
      intros Hs. constructor; [assumption|].
      assert (Hxy : key_le key x y).
      { destruct Hge as [Heq|Hlt]; [left; congruence|right; assumption]. }
      constructor; [assumption|].
      inversion Hs as [|? ? _ Hall]; subst.
      eapply Forall_impl; [|exact Hall]. intros z Hz. eapply key_le_trans; eassumption.
Qed.

Lemma sorted_by_key_sorted : forall l,
  Forall shaped l ->
  exists l', sorted_by_key key l = Ok l' /\
             Permutation l l' /\ StronglySorted (key_le key) l'.
Proof.
  induction l as [|x l IH]; intros Hl.
  - exists []. repeat split; auto. constructor.
  - inversion Hl as [|? ? Hx Hl']; subst.
    destruct (IH Hl') as (r & Hr & Hperm & Hsorted).
    assert (Hshr : Forall shaped r) by (eapply Permutation_Forall; eassumption).
    destruct (insert_by_key_sorted x r Hx Hshr) as (l' & Hl'' & Hperm' & Hsorted').
    exists l'. cbn [sorted_by_key]. rewrite Hr. cbn [bind].
    split; [assumption|]. split; [|auto].
    eapply perm_trans; [apply perm_skip; exact Hperm|assumption].
Qed.

(** The sort is stable: the elements of one key keep their order. *)
Lemma insert_by_key_stable (P : A -> bool) x : forall l l',
  (forall a b, P a = true -> P b = true -> key a = key b) ->
  shaped x -> Forall shaped l ->
  insert_by_key key x l = Ok l' -> filter P l' = filter P (x :: l).
Proof.
  intros l l' Hclass Hx. revert l'.
  induction l as [|y l IH]; intros l' Hl Hins; cbn [insert_by_key] in Hins.
  - injection Hins as <-. reflexivity.
  - inversion Hl as [|? ? Hy Hl']; subst.
    destruct (key_ltb_shape (key y) (key x) true Hy Hx)
      as [[Hk Hlt]|[Hk Hge]]; rewrite Hk in Hins; cbn [bind] in Hins.
    + destruct (insert_by_key key x l) as [r|]; [|discriminate].
      cbn [bind] in Hins. injection Hins as <-.
      specialize (IH r Hl' eq_refl). cbn [filter] in *. rewrite IH.
      destruct (P x) eqn:Hpx, (P y) eqn:Hpy; try reflexivity.
      exfalso. rewrite (Hclass y x Hpy Hpx) in Hlt.
      eapply tokens_lt_irrefl. eassumption.
    + injection Hins as <-. reflexivity.
Qed.

Lemma sorted_by_key_stable (P : A -> bool) : forall l l',
  (forall a b, P a = true -> P b = true -> key a = key b) ->
  Forall shaped l ->
  sorted_by_key key l = Ok l' -> filter P l' = filter P l.
Proof.
  intros l l' Hclass. revert l'.
  induction l as [|x l IH]; intros l' Hl Hs; cbn [sorted_by_key] in Hs.
  - injection Hs as <-. reflexivity.
  - inversion Hl as [|? ? Hx Hl']; subst.
    destruct (sorted_by_key key l) as [r|] eqn:Hr; [|discriminate]. cbn [bind] in Hs.
    destruct (sorted_by_key_sorted l Hl') as (r' & Hr' & Hperm & _).
    rewrite Hr in Hr'. injection Hr' as <-.
    assert (Hshr : Forall shaped r) by (eapply Permutation_Forall; eassumption).
    rewrite (insert_by_key_stable P x r l' Hclass Hx Hshr Hs).
    cbn [filter]. rewrite (IH r Hl' eq_refl). reflexivity.
Qed.

End SortedByKey.

(** ** [sorted] with a key that may raise *)

Lemma map_result_ok {A B : Type} (f : A -> result B) : forall l,
  Forall (fun x => exists y, f x = Ok y) l ->
  exists ys, map_result f l = Ok ys /\ Forall2 (fun x y => f x = Ok y) l ys.
Proof.
  induction l as [|x l IH]; intros Hl.
  - exists []. split; [reflexivity|constructor].
  - inversion Hl as [|? ? (y & Hy) Hl']; subst.
    destruct (IH Hl') as (ys & Hys & Hall).
    exists (y :: ys). cbn [map_result]. rewrite Hy. cbn [bind]. rewrite Hys. cbn [bind].
    split; [reflexivity|]. constructor; assumption.
Qed.

Lemma combine_decorated {A B : Type} (f : A -> result B) : forall l ys,
  Forall2 (fun x y => f x = Ok y) l ys ->
  map snd (combine ys l) = l /\
  Forall (fun d => f (snd d) = Ok (fst d)) (combine ys l).
Proof.
  intros l ys H. induction H as [|x y l ys Hxy _ [IHmap IHall]].
  - split; [reflexivity|constructor].
  - cbn [combine map snd]. rewrite IHmap. split; [reflexivity|].
    constructor; assumption.
Qed.

Lemma StronglySorted_map {A B : Type} (R : A -> A -> Prop) (R' : B -> B -> Prop)
    (P : A -> Prop) (g : A -> B) :
  (forall a b, P a -> P b -> R a b -> R' (g a) (g b)) ->
  forall l, Forall P l -> StronglySorted R l -> StronglySorted R' (map g l).
Proof.
  intros Hmono l. induction l as [|a l IH]; intros HP Hs; cbn [map].
  - constructor.
  - inversion HP as [|? ? Ha HP']; subst. inversion Hs as [|? ? Hsl Hall]; subst.
    constructor; [apply IH; assumption|].
    apply Forall_map. rewrite Forall_forall in *.
    intros b Hb. apply Hmono; auto.
Qed.

(** When every name has a key, [sorted] returns the names rearranged in
    natural order. *)
Lemma sorted_natural paths :
  Forall (fun p => exists k, natural_sort_key p = Ok k) paths ->
  exists out,
    sorted natural_sort_key paths = Ok out /\
    Permutation paths out /\ StronglySorted natural_le out.
Proof.
  intros Hkeys.
  destruct (map_result_ok natural_sort_key paths Hkeys) as (keys & Hmap & Hall).
  destruct (combine_decorated natural_sort_key paths keys Hall) as [Hsnd Hdec].
  assert (Hshape : Forall (fun d : list key_elem * string => key_shape true (fst d))
                     (combine keys paths)).
  { eapply Forall_impl; [|exact Hdec]. intros d Hd.
    eapply natural_sort_key_shape. exact Hd. }
  destruct (sorted_by_key_sorted fst (combine keys paths) Hshape)
    as (decorated & Hsort & Hperm & Hsorted).
  exists (map snd decorated). unfold sorted. rewrite Hmap. cbn [bind].
  rewrite Hsort. cbn [bind]. split; [reflexivity|]. split.
  - rewrite <- Hsnd at 1. apply Permutation_map. assumption.
  - apply (StronglySorted_map (key_le fst) natural_le
             (fun d => natural_sort_key (snd d) = Ok (fst d)) snd).
    + intros a b Ha Hb Hab. exists (fst a), (fst b). auto.
    + eapply Permutation_Forall; eassumption.
    + assumption.
Qed.

(** Globbing only reads the directory: it emits one [EvGlob] per pattern. *)
Lemma glob_all_run W input_dir : forall patterns paths t,
  glob_all W input_dir patterns paths t =
    (Ok (paths ++ List.concat (map (fun pat => glob W (path_join input_dir pat)) patterns))%list,
     (t ++ map (fun pat => EvGlob (path_join input_dir pat)) patterns)%list).
Proof.
  induction patterns as [|pat rest IH]; intros paths t.
  - cbn. unfold ret. rewrite !app_nil_r. reflexivity.
  - cbn [glob_all]. unfold bindIO, emit. rewrite IH.
    cbn [map List.concat]. rewrite <- !app_assoc. reflexivity.
Qed.

(** A name is cut into pieces that alternate between text without decimal
    digits and non-empty runs of decimal digits, and that put together
    give the name back.  When no matched path contains a superscript
    digit, collect_image_paths returns the matched paths in natural order:
    a rearrangement of what the patterns matched in which every path
    comes no later than the ones after it, the names being compared piece
    by piece, digit runs as integers and the other pieces in lower case.
    img10.png, img2.png, img1.png come out as img1.png, img2.png,
    img10.png. *)
Lemma collect_image_paths_natural_order :
  (forall s, pieces_alternate false (re_split_digits s) /\
             join (re_split_digits s) = s) /\
  (forall W input_dir patterns t,
     let matched :=
       List.concat (map (fun pat => glob W (path_join input_dir pat)) patterns) in
     Forall (fun p => no_superscript p = true) matched ->
     exists paths,
       collect_image_paths W input_dir patterns t
         = (Ok paths,
            (t ++ map (fun pat => EvGlob (path_join input_dir pat)) patterns)%list) /\
       Permutation matched paths /\
       StronglySorted natural_le paths) /\
  sorted natural_sort_key ["img10.png"; "img2.png"; "img1.png"]%string
    = Ok ["img1.png"; "img2.png"; "img10.png"]%string /\
  fst (collect_image_paths Samples.folder_world "frames" default_patterns [])
    = Ok ["frames/img1.png"; "frames/img2.png"; "frames/img10.png"]%string.
Proof.
  split; [|split; [|split]].
  - intros s. unfold re_split_digits. split.
    + apply split_runs_alternate. reflexivity.
    + apply split_runs_join.
  - intros W input_dir patterns t matched Hplain.
    unfold collect_image_paths, bindIO. rewrite glob_all_run. cbn [app]. unfold lift.
    fold matched.
    destruct (sorted_natural matched) as (paths & -> & Hperm & Hsorted).
    { eapply Forall_impl; [|exact Hplain]. intros p. apply natural_sort_key_plain. }
    exists paths. repeat split; assumption.
  - vm_compute. reflexivity.
  - vm_compute. reflexivity.
Qed.

(** C4.  A name in which a superscript digit stands between two runs of
    decimal digits has no key: the superscript is a piece of its own,
    [isdigit] accepts it and [int] refuses it.  With such a file in the
    folder collect_image_paths raises ValueError instead of returning the
    paths in natural order. *)
Theorem collect_image_paths_superscript_raises :
  re_split_digits Samples.squared_name
    = ["frames/"; "1"; String (ascii_of_N 178) ""; "2"; ".png"]%string /\
  str_isdigit (String (ascii_of_N 178) "") = true /\
  natural_sort_key Samples.squared_name = Raise (ValueError invalid_literal_msg) /\
  collect_image_paths Samples.squared_world "frames" default_patterns []
    = (Raise (ValueError invalid_literal_msg),
       map (fun pat => EvGlob (path_join "frames" pat)) default_patterns).
Proof. repeat split; vm_compute; reflexivity. Qed.

(* ================================================================== *)
(** * fit_to_canvas *)
(* ================================================================== *)

(** ** The resize rule *)

Lemma max_int_1 z : max_int 1 z = Z.max 1 z.
Proof. unfold max_int. destruct (Z.ltb_spec 1 z); lia. Qed.

Lemma trunc_mag_nonneg m e : 0 <= trunc_mag m e.
Proof.
  unfold trunc_mag. destruct e.
  - lia.
  - apply Z.shiftl_nonneg. lia.
  - apply Z.shiftr_nonneg. lia.
Qed.

(** ** The resized image fits the canvas *)

(** one coordinate: the product [dim * scale], truncated, stays within the
    canvas when [scale] is at most the rounded ratio [canvas / dim] *)
Lemma scaled_dim_le dim canvas scale ratio :
  0 < dim < 2 ^ 53 -> 0 < canvas <= 2 ^ 50 ->
  pos_normal scale -> -106 <= expo scale <= 1 ->
  (val scale <= val ratio)%R ->
  (val ratio * IZR dim <= IZR canvas * (1 + ulp_rel))%R ->
  exists p t, int_mul_float dim scale = Ok p /\ int_of_float p = Ok t /\
            0 <= t <= canvas.
Proof.
  intros Hdim Hcanvas Hs He Hle Hratio.
  destruct (float_of_int_small dim Hdim) as (fd & Hfd & Hfdn & Hfdv & Hfde).
  destruct (fmul_pos_normal fd scale Hfdn Hs ltac:(lia)) as [Hpn Hpv].
  destruct (int_of_float_pos _ Hpn) as (t & Ht & Ht0 & Htl & _).
  exists (fmul fd scale), t.
  split; [unfold int_mul_float; rewrite Hfd; reflexivity|].
  split; [assumption|]. split; [assumption|].
  rewrite Hfdv in Hpv.
  assert (Hu : (0 < ulp_rel)%R) by (rewrite ulp_rel_eq; lra).
  assert (Hd0 : (0 < IZR dim)%R) by (apply IZR_lt; lia).
  assert (H1 : (IZR dim * val scale <= IZR canvas * (1 + ulp_rel))%R) by nra.
  assert (H2 : (IZR t <= IZR canvas * (1 + ulp_rel) * (1 + ulp_rel))%R).
  { apply Rle_trans with (IZR dim * val scale * (1 + ulp_rel))%R; [lra|].
    apply Rmult_le_compat_r; lra. }
  assert (Hc : (IZR canvas <= 1125899906842624)%R).
  { change 1125899906842624%R with (IZR (2 ^ 50)). apply IZR_le. lia. }
  assert (Hc0 : (0 < IZR canvas)%R) by (apply IZR_lt; lia).
  assert (H3 : (IZR t < IZR canvas + 1)%R).
  { rewrite ulp_rel_eq in H2. nra. }
  rewrite <- plus_IZR in H3. apply lt_IZR in H3. lia.
Qed.

Lemma fit_geometry_within w h cw ch :
  0 < w <= 2 ^ 50 -> 0 < h <= 2 ^ 50 -> 0 < cw <= 2 ^ 50 -> 0 < ch <= 2 ^ 50 ->
  exists new_w new_h,
    fit_geometry (w, h) (cw, ch)
      = Ok (new_w, new_h, ((cw - new_w) / 2, (ch - new_h) / 2)) /\
    1 <= new_w <= cw /\ 1 <= new_h <= ch.
Proof.
  intros Hw Hh Hcw Hch.
  assert (H50 : 2 ^ 50 < 2 ^ 53) by reflexivity.
  assert (H1000 : 2 ^ 50 < 2 ^ 1000) by reflexivity.
  destruct (int_truediv_small cw w ltac:(lia) ltac:(lia)) as (rw & Hrw & Hrwn & Hrwe & Hrwv).
  destruct (int_truediv_small ch h ltac:(lia) ltac:(lia)) as (rh & Hrh & Hrhn & Hrhe & Hrhv).
  destruct (min_float_pos_normal rw rh Hrwn Hrhn) as (Hsn & Hsel & Hsw & Hsh).
  assert (Hdw : Zdigits2 w <= 53) by (apply Zdigits2_le; lia).
  assert (Hdh : Zdigits2 h <= 53) by (apply Zdigits2_le; lia).
  assert (Hse : -106 <= expo (min_float rw rh) <= 1)
    by (destruct Hsel as [-> | ->]; lia).
  destruct (scaled_dim_le w cw (min_float rw rh) rw ltac:(lia) Hcw Hsn Hse Hsw Hrwv)
    as (pw & iw & Hpw & Hiw & Hiwb).
  destruct (scaled_dim_le h ch (min_float rw rh) rh ltac:(lia) Hch Hsn Hse Hsh Hrhv)
    as (ph & ih & Hph & Hih & Hihb).
  exists (max_int 1 iw), (max_int 1 ih).
  split.
  - unfold fit_geometry. rewrite Hrw. cbn [bind]. rewrite Hrh. cbn [bind].
    rewrite Hpw. cbn [bind]. rewrite Hiw. cbn [bind].
    rewrite Hph. cbn [bind]. rewrite Hih. cbn [bind]. reflexivity.
  - rewrite !max_int_1. lia.
Qed.

(** The offsets that centre a resized image which fits keep it inside. *)
Lemma fit_geometry_bounds w h cw ch :
  0 < w <= 2 ^ 50 -> 0 < h <= 2 ^ 50 -> 1 <= cw <= 2 ^ 50 -> 1 <= ch <= 2 ^ 50 ->
  exists new_w new_h ox oy,
    fit_geometry (w, h) (cw, ch) = Ok (new_w, new_h, (ox, oy)) /\
    1 <= new_w <= cw /\ 1 <= new_h <= ch /\
    0 <= ox /\ 0 <= oy /\ ox + new_w <= cw /\ oy + new_h <= ch.
Proof.
  intros Hw Hh Hcw Hch.
  destruct (fit_geometry_within w h cw ch) as (nw & nh & Hg & Hnw & Hnh); try lia.
  exists nw, nh, ((cw - nw) / 2), ((ch - nh) / 2).
  split; [assumption|].
  assert (0 <= (cw - nw) / 2) by (apply Z.div_pos; lia).
  assert (0 <= (ch - nh) / 2) by (apply Z.div_pos; lia).
  assert (2 * ((cw - nw) / 2) <= cw - nw) by (apply Z.mul_div_le; lia).
  assert (2 * ((ch - nh) / 2) <= ch - nh) by (apply Z.mul_div_le; lia).
  repeat split; lia.
Qed.

Lemma C_INT_MAX_small : C_INT_MAX < 2 ^ 50.
Proof. reflexivity. Qed.

Lemma resize_size W im sz out : resize W im sz = Ok out -> size out = sz.
Proof.
  destruct sz as [w h]. unfold resize, size.
  destruct ((w =? width im) && (h =? height im)) eqn:Hsame.
  - intros [= <-]. apply andb_true_iff in Hsame. destruct Hsame as [Hw Hh].
    apply Z.eqb_eq in Hw. apply Z.eqb_eq in Hh. congruence.
  - destruct ((w <? 1) || (h <? 1)); [discriminate|].
    destruct ((C_INT_MAX <? w) || (C_INT_MAX <? h)); [discriminate|].
    intros [= <-]. reflexivity.
Qed.

Lemma image_new_size sz color out :
  image_new sz color = Ok out ->
  size out = sz /\ 0 <= fst sz <= C_INT_MAX /\ 0 <= snd sz <= C_INT_MAX.
Proof.
  destruct sz as [w h]. unfold image_new, size. cbn [fst snd].
  destruct (Z.ltb_spec w 0); [discriminate|].
  destruct (Z.ltb_spec h 0); [discriminate|].
  destruct (Z.ltb_spec C_INT_MAX w); [discriminate|].
  destruct (Z.ltb_spec C_INT_MAX h); [discriminate|].
  cbn [orb]. intros [= <-]. cbn [width height]. repeat split; lia.
Qed.

(** What fit_to_canvas returns has the size it was asked for. *)
Lemma fit_to_canvas_size W img base bgcolor out :
  fit_to_canvas W img base true bgcolor = Ok out -> base = Some (size out).
Proof.
  unfold fit_to_canvas. destruct base as [[cw ch]|]; [|discriminate].
  destruct (fit_geometry (size img) (cw, ch)) as [[[nw nh] off]|]; [|discriminate].
  cbn [bind]. destruct (resize W img (nw, nh)) as [img'|]; [|discriminate].
  cbn [bind]. destruct (image_new (cw, ch) bgcolor) as [blank|] eqn:Hnew; [|discriminate].
  cbn [bind]. intros [= <-]. apply image_new_size in Hnew. destruct Hnew as [Hsz _].
  destruct off. rewrite <- Hsz. reflexivity.
Qed.

(** C10, as the script has it.  For an image and a canvas whose dimensions
    are at least 1 and at most 2^50, which covers every image and canvas
    the imaging library can hold, the resized dimensions that lines 24 and
    25 compute are at least 1 and at most the canvas dimensions and both
    offsets of line 28 are non-negative, so the resized image lies within
    the canvas; and these are the size to which fit_to_canvas resizes and
    the offset at which it pastes. *)
Theorem fit_to_canvas_in_canvas w h cw ch :
  1 <= w <= 2 ^ 50 -> 1 <= h <= 2 ^ 50 -> 1 <= cw <= 2 ^ 50 -> 1 <= ch <= 2 ^ 50 ->
  exists new_w new_h ox oy,
    fit_geometry (w, h) (cw, ch) = Ok (new_w, new_h, (ox, oy)) /\
    1 <= new_w <= cw /\ 1 <= new_h <= ch /\
    0 <= ox /\ 0 <= oy /\ ox + new_w <= cw /\ oy + new_h <= ch /\
    forall W img bgcolor out,
      size img = (w, h) ->
      fit_to_canvas W img (Some (cw, ch)) true bgcolor = Ok out ->
      exists resized blank,
        size resized = (new_w, new_h) /\ size blank = (cw, ch) /\
        out = paste blank resized (ox, oy).
Proof.
  intros Hw Hh Hcw Hch.
  destruct (fit_geometry_bounds w h cw ch)
    as (nw & nh & ox & oy & Hg & Hb); try lia.
  exists nw, nh, ox, oy. split; [assumption|].
  destruct Hb as (? & ? & ? & ? & ? & ?).
  repeat (split; [assumption|]).
  intros W img bgcolor out Hsize Hfit. unfold fit_to_canvas in Hfit.
  rewrite Hsize, Hg in Hfit. cbn [bind] in Hfit.
  destruct (resize W img (nw, nh)) as [resized|] eqn:Hres; [|discriminate].
  cbn [bind] in Hfit.
  destruct (image_new (cw, ch) bgcolor) as [blank|] eqn:Hnew; [|discriminate].
  cbn [bind] in Hfit. injection Hfit as <-.
  apply image_new_size in Hnew. destruct Hnew as (Hblank & _).
  exists resized, blank.
  split; [eapply resize_size; eassumption|]. split; [assumption|reflexivity].
Qed.

Lemma fit_to_canvas_in_canvas_witness :
  exists new_w new_h ox oy,
    fit_geometry (200, 100) (100, 100) = Ok (new_w, new_h, (ox, oy)) /\
    1 <= new_w <= 100 /\ 1 <= new_h <= 100 /\ 0 <= ox /\ 0 <= oy.
Proof.
  destruct (fit_to_canvas_in_canvas 200 100 100 100)
    as (new_w & new_h & ox & oy & Hg & Hw & Hh & Hox & Hoy & _);
    try (vm_compute; split; discriminate).
  exists new_w, new_h, ox, oy.
  split; [exact Hg|]. split; [exact Hw|]. split; [exact Hh|].
  split; [exact Hox|exact Hoy].
Defined.

(** Beyond 2^53 the quotient of line 24 is rounded: for a 1x1 image on a
    canvas 2^53 + 3 wide and 2^60 high the scale is 2^53 + 4 and line 25
    computes a resized width larger than the canvas.  The resize of line
    26 refuses that size, so the call ends there. *)
Lemma fit_geometry_beyond_canvas :
  let img := Samples.flat 1 1 (255, 0, 0, 255) in
  let cw := 2 ^ 53 + 3 in
  let ch := 2 ^ 60 in
  1 <= width img /\ 1 <= height img /\ 1 <= cw /\ 1 <= ch /\
  exists new_w new_h offset,
    fit_geometry (size img) (cw, ch) = Ok (new_w, new_h, offset) /\
    cw < new_w /\
    exists e,
      fit_to_canvas Samples.folder_world img (Some (cw, ch)) true transparent
        = Raise e.
Proof.
  cbv zeta. repeat (split; [vm_compute; discriminate|]).
  eexists _, _, _. split; [vm_compute; reflexivity|].
  split; [vm_compute; reflexivity|].
  eexists. vm_compute. reflexivity.
Qed.

(** ** An image that already has the canvas size *)

Lemma int_truediv_self w : 0 < w < 2 ^ 53 -> int_truediv w w = Ok fone.
Proof.
  intros Hw.
  assert (H1000 : 2 ^ 53 < 2 ^ 1000) by reflexivity.
  destruct (SFdiv_core_small w w Hw ltac:(lia)) as (Hcore & _ & _).
  replace (53 + Zdigits2 w - Zdigits2 w) with 53 in Hcore by lia.
  rewrite (Z.mul_comm w), Z.div_mul, Z.mod_mul, new_location_0 in Hcore by lia.
  unfold int_truediv. destruct (Z.eqb_spec w 0); [lia|].
  assert (Hdiv : fdiv (exact_of_int w) (exact_of_int w) = fone).
  { destruct w as [|p|p]; try lia.
    unfold fdiv, exact_of_int, SFdiv. rewrite Hcore. reflexivity. }
  rewrite Hdiv. reflexivity.
Qed.

Lemma scaled_by_one w :
  0 < w < 2 ^ 53 ->
  exists p, int_mul_float w fone = Ok p /\ int_of_float p = Ok w.
Proof.
  intros Hw.
  destruct (float_of_int_small w Hw) as (fd & Hfd & Hfdn & Hfdv & Hfde).
  destruct (fmul_one fd Hfdn ltac:(lia)) as [Hpn Hpv].
  destruct (int_of_float_pos _ Hpn) as (t & Ht & _ & Htl & Hth).
  exists (fmul fd fone). split; [unfold int_mul_float; rewrite Hfd; reflexivity|].
  rewrite Ht. f_equal.
  rewrite Hpv, Hfdv in Htl, Hth.
  apply le_IZR in Htl. rewrite <- plus_IZR in Hth. apply lt_IZR in Hth. lia.
Qed.

Lemma fit_geometry_same_size w h :
  0 < w < 2 ^ 53 -> 0 < h < 2 ^ 53 ->
  fit_geometry (w, h) (w, h) = Ok (w, h, (0, 0)).
Proof.
  intros Hw Hh.
  destruct (scaled_by_one w Hw) as (pw & Hpw & Hiw).
  destruct (scaled_by_one h Hh) as (ph & Hph & Hih).
  unfold fit_geometry. rewrite !int_truediv_self by assumption. cbn [bind].
  change (min_float fone fone) with fone.
  rewrite Hpw. cbn [bind]. rewrite Hiw. cbn [bind].
  rewrite Hph. cbn [bind]. rewrite Hih. cbn [bind].
  rewrite !max_int_1, !Z.max_r by lia. rewrite !Z.sub_diag. reflexivity.
Qed.

Lemma fit_to_canvas_same_size_once W img bgcolor :
  valid_size (size img) ->
  exists out,
    fit_to_canvas W img (Some (size img)) true bgcolor = Ok out /\
    same_pixels out img.
Proof.
  intros [Hw Hh]. cbn [size fst snd] in Hw, Hh.
  pose proof C_INT_MAX_small as Hmax.
  assert (H53 : 2 ^ 50 < 2 ^ 53) by reflexivity.
  unfold fit_to_canvas, size.
  rewrite (fit_geometry_same_size (width img) (height img)) by lia. cbn [bind].
  unfold resize. rewrite !Z.eqb_refl. cbn [andb bind].
  unfold image_new.
  destruct (Z.ltb_spec (width img) 0); [lia|].
  destruct (Z.ltb_spec (height img) 0); [lia|].
  destruct (Z.ltb_spec C_INT_MAX (width img)); [lia|].
  destruct (Z.ltb_spec C_INT_MAX (height img)); [lia|].
  cbn [orb bind].
  eexists. split; [reflexivity|].
  split; [reflexivity|].
  intros x y Hx Hy. cbn [paste pixel width height] in *.
  destruct (Z.leb_spec 0 x); [|lia].
  destruct (Z.ltb_spec x (0 + width img)); [|lia].
  destruct (Z.leb_spec 0 y); [|lia].
  destruct (Z.ltb_spec y (0 + height img)); [|lia].
  cbn [andb]. rewrite !Z.sub_0_r. reflexivity.
Qed.

Lemma same_pixels_trans a b c : same_pixels a b -> same_pixels b c -> same_pixels a c.
Proof.
  intros [Hab Pab] [Hbc Pbc]. split; [congruence|].
  intros x y Hx Hy. rewrite Pab by assumption. apply Pbc.
  - unfold size in Hab. injection Hab as <- _. assumption.
  - unfold size in Hab. injection Hab as _ <-. assumption.
Qed.

(** C8. Fitting an image whose dimensions, at least 1, already equal the
    canvas size: whenever fit_to_canvas returns, the resized size is the
    image's own, the paste offset is (0, 0), the output has every pixel of
    the image, and fitting the output once more returns the same picture
    again; and fit_to_canvas does return when the dimensions are ones the
    imaging library can hold. *)
Theorem fit_to_canvas_same_size W img bgcolor :
  1 <= width img -> 1 <= height img ->
  (forall out,
     fit_to_canvas W img (Some (size img)) true bgcolor = Ok out ->
     fit_geometry (size img) (size img) = Ok (width img, height img, (0, 0)) /\
     same_pixels out img /\
     exists again,
       fit_to_canvas W out (Some (size img)) true bgcolor = Ok again /\
       same_pixels again img) /\
  (width img <= C_INT_MAX -> height img <= C_INT_MAX ->
   exists out, fit_to_canvas W img (Some (size img)) true bgcolor = Ok out).
Proof.
  intros Hw Hh.
  assert (H53 : 2 ^ 50 < 2 ^ 53) by reflexivity.
  pose proof C_INT_MAX_small as Hmax.
  split.
  - intros out Hfit.
    assert (Hvalid : valid_size (size img)).
    { unfold fit_to_canvas in Hfit.
      destruct (fit_geometry (size img) (size img)) as [[[nw nh] [ox oy]]|];
        [|discriminate].
      cbn [bind] in Hfit.
      destruct (resize W img (nw, nh)) as [resized|]; [|discriminate].
      cbn [bind] in Hfit.
      destruct (image_new (size img) bgcolor) as [blank|] eqn:Hnew; [|discriminate].
      apply image_new_size in Hnew. unfold size in Hnew. cbn [fst snd] in Hnew.
      split; cbn [size fst snd]; lia. }
    destruct (fit_to_canvas_same_size_once W img bgcolor Hvalid) as (out' & Hout & Hsame).
    rewrite Hfit in Hout. injection Hout as <-.
    split.
    { destruct Hvalid as [Hw' Hh']. cbn [size fst snd] in Hw', Hh'.
      apply fit_geometry_same_size; lia. }
    split; [assumption|].
    destruct Hsame as [Hsize Hpix].
    assert (Hvalid' : valid_size (size out)) by (rewrite Hsize; assumption).
    destruct (fit_to_canvas_same_size_once W out bgcolor Hvalid') as (again & Hagain & Hsame').
    rewrite Hsize in Hagain.
    exists again. split; [assumption|].
    eapply same_pixels_trans; [eassumption|]. split; assumption.
  - intros Hw' Hh'.
    destruct (fit_to_canvas_same_size_once W img bgcolor) as (out & Hout & _).
    + split; cbn [size fst snd]; lia.
    + exists out. assumption.
Qed.

Lemma fit_to_canvas_same_size_witness :
  let img := Samples.flat 50 50 (255, 0, 0, 255) in
  exists out,
    fit_to_canvas Samples.folder_world img (Some (size img)) true transparent = Ok out /\
    fit_geometry (size img) (size img) = Ok (width img, height img, (0, 0)) /\
    same_pixels out img /\
    exists again,
      fit_to_canvas Samples.folder_world out (Some (size img)) true transparent
        = Ok again /\
      same_pixels again img.
Proof.
  intros img.
  destruct (fit_to_canvas_same_size Samples.folder_world img transparent)
    as [Hsame Hreturns].
  - vm_compute. discriminate.
  - vm_compute. discriminate.
  - destruct Hreturns as (out & Hout); try (vm_compute; discriminate).
    exists out. split; [exact Hout|]. exact (Hsame out Hout).
Defined.

(** ** A negative canvas dimension: the sign is carried along *)

Lemma pack_opp me : pack true me = SFopp (pack false me).
Proof.
  unfold pack. destruct (fst me); try reflexivity.
  destruct (snd me <=? emax - prec); reflexivity.
Qed.

Lemma fdiv_neg_l pa pb :
  fdiv (S754_finite true pa 0) (S754_finite false pb 0)
    = SFopp (fdiv (S754_finite false pa 0) (S754_finite false pb 0)).
Proof.
  unfold fdiv, SFdiv.
  destruct (SFdiv_core_binary prec emax (Zpos pa) 0 (Zpos pb) 0) as [[mz ez] lz].
  cbn [xorb]. rewrite !binary_round_aux_core. apply pack_opp.
Qed.

Lemma fmul_neg_r mx ex my ey :
  fmul (S754_finite false mx ex) (S754_finite true my ey)
    = SFopp (fmul (S754_finite false mx ex) (S754_finite false my ey)).
Proof.
  unfold fmul, SFmul. cbn [xorb]. rewrite !binary_round_aux_core. apply pack_opp.
Qed.

Lemma int_truediv_fdiv a b x :
  int_truediv a b = Ok x -> fdiv (exact_of_int a) (exact_of_int b) = x.
Proof.
  unfold int_truediv. destruct (b =? 0); [discriminate|].
  destruct (is_finite _); [|discriminate]. intros [= <-]. reflexivity.
Qed.

(** [a / b] for a negative [a]: the opposite of a positive normal float. *)
Lemma int_truediv_negative a b :
  - 2 ^ 53 < a < 0 -> 0 < b < 2 ^ 1000 ->
  exists y, int_truediv a b = Ok (SFopp y) /\ pos_normal y /\
            - Zdigits2 b - 53 <= expo y <= 1.
Proof.
  intros Ha Hb.
  destruct (int_truediv_small (- a) b ltac:(lia) Hb) as (y & Hy & Hyn & Hye & _).
  exists y. split; [|split; assumption].
  apply int_truediv_fdiv in Hy.
  destruct a as [|pa|pa]; try lia. destruct b as [|pb|pb]; try lia.
  cbn [Z.opp exact_of_int] in Hy.
  unfold int_truediv. cbn [Z.eqb exact_of_int]. rewrite fdiv_neg_l, Hy.
  destruct Hyn as (m & e & -> & _). reflexivity.
Qed.

Lemma int_truediv_zero b : 0 < b -> int_truediv 0 b = Ok (S754_zero false).
Proof. intros Hb. destruct b as [|pb|pb]; try lia. reflexivity. Qed.

(** The product of a positive dimension with a negative scale, cut to an
    integer, is not positive. *)
Lemma scaled_dim_negative dim m e :
  0 < dim < 2 ^ 53 -> pos_normal (S754_finite false m e) -> -1074 <= e <= 1 ->
  exists p t, int_mul_float dim (S754_finite true m e) = Ok p /\
              int_of_float p = Ok t /\ t <= 0.
Proof.
  intros Hdim Hy Hye.
  destruct (float_of_int_small dim Hdim) as (fd & Hfd & Hfdn & _ & Hfde).
  destruct (fmul_pos_normal fd _ Hfdn Hy ltac:(cbn [expo]; lia)) as [Hpn _].
  destruct Hfdn as (mx & ex & -> & _).
  destruct Hpn as (mp & ep & Hp & _).
  exists (SFopp (fmul (S754_finite false mx ex) (S754_finite false m e))),
         (- trunc_mag mp ep).
  split; [unfold int_mul_float; rewrite Hfd; cbn [bind]; rewrite fmul_neg_r; reflexivity|].
  rewrite Hp. cbn [SFopp negb int_of_float].
  split; [reflexivity|]. pose proof (trunc_mag_nonneg mp ep). lia.
Qed.

Lemma int_truediv_kind c dim :
  - 2 ^ 50 <= c <= 2 ^ 50 -> 0 < dim <= 2 ^ 50 ->
  exists r, int_truediv c dim = Ok r /\ ratio_kind r /\ (c < 0 -> is_negative r).
Proof.
  intros Hc Hdim.
  assert (H53 : 2 ^ 50 < 2 ^ 53) by reflexivity.
  assert (H1000 : 2 ^ 50 < 2 ^ 1000) by reflexivity.
  assert (Hd : Zdigits2 dim <= 53) by (apply Zdigits2_le; lia).
  destruct (Z.lt_trichotomy c 0) as [Hneg|[->|Hpos]].
  - destruct (int_truediv_negative c dim ltac:(lia) ltac:(lia)) as (y & Hy & Hyn & Hye).
    pose proof Hyn as (m & e & -> & _). cbn [expo] in Hye. cbn [SFopp negb] in Hy.
    exists (S754_finite true m e). split; [assumption|]. split.
    + constructor; [assumption|lia].
    + intros _. exists m, e. split; [reflexivity|]. split; [assumption|lia].
  - exists (S754_zero false). split; [apply int_truediv_zero; lia|].
    split; [constructor|lia].
  - destruct (int_truediv_small c dim ltac:(lia) ltac:(lia)) as (y & Hy & Hyn & _).
    pose proof Hyn as (m & e & -> & _).
    exists (S754_finite false m e). split; [assumption|].
    split; [constructor; assumption|lia].
Qed.

Lemma min_float_negative a b :
  ratio_kind a -> ratio_kind b -> is_negative a \/ is_negative b ->
  is_negative (min_float a b).
Proof.
  intros Ha Hb Hneg. unfold min_float, fltb, SFltb.
  destruct Ha as [ma ea Hya Hea| |ma ea Hya], Hb as [mb eb Hyb Heb| |mb eb Hyb];
    cbn [SFcompare];
    try (exfalso;
         destruct Hneg as [(m & e & Heq & _)|(m & e & Heq & _)]; discriminate).
  - match goal with |- is_negative (if ?c then _ else _) => destruct c end;
      eexists _, _; (split; [reflexivity|]); split; assumption.
  - eexists _, _; (split; [reflexivity|]); split; assumption.
  - eexists _, _; (split; [reflexivity|]); split; assumption.
  - eexists _, _; (split; [reflexivity|]); split; assumption.
  - eexists _, _; (split; [reflexivity|]); split; assumption.
Qed.

(** With a negative canvas dimension both resized dimensions are 1. *)
Lemma fit_geometry_negative_canvas w h cw ch :
  0 < w <= 2 ^ 50 -> 0 < h <= 2 ^ 50 ->
  - 2 ^ 50 <= cw <= 2 ^ 50 -> - 2 ^ 50 <= ch <= 2 ^ 50 ->
  cw < 0 \/ ch < 0 ->
  fit_geometry (w, h) (cw, ch) = Ok (1, 1, ((cw - 1) / 2, (ch - 1) / 2)).
Proof.
  intros Hw Hh Hcw Hch Hneg.
  assert (H53 : 2 ^ 50 < 2 ^ 53) by reflexivity.
  destruct (int_truediv_kind cw w Hcw Hw) as (rw & Hrw & Hkw & Hnw).
  destruct (int_truediv_kind ch h Hch Hh) as (rh & Hrh & Hkh & Hnh).
  assert (Hs : is_negative (min_float rw rh)).
  { apply min_float_negative; try assumption. destruct Hneg; [left|right]; auto. }
  destruct Hs as (m & e & Hs & Hyn & Hye).
  destruct (scaled_dim_negative w m e ltac:(lia) Hyn Hye) as (pw & iw & Hpw & Hiw & Hiw0).
  destruct (scaled_dim_negative h m e ltac:(lia) Hyn Hye) as (ph & ih & Hph & Hih & Hih0).
  unfold fit_geometry. rewrite Hrw. cbn [bind]. rewrite Hrh. cbn [bind].
  rewrite Hs, Hpw. cbn [bind]. rewrite Hiw. cbn [bind].
  rewrite Hph. cbn [bind]. rewrite Hih. cbn [bind].
  rewrite !max_int_1, !Z.max_l by lia. reflexivity.
Qed.

(* ------------------------------------------------------------------ *)
(** ** The resize rule against exact arithmetic *)

(** ** The exact rule, in integers *)

(** The scaled dimension of the exact rule: [dim * min(cw/w, ch/h)] is
    the smaller cross product divided by the other dimension. *)
Lemma exact_scaled_floor w h cw ch :
  0 < w -> 0 < h ->
  Qfloor (inject_Z w * Qmin (inject_Z cw / inject_Z w) (inject_Z ch / inject_Z h))
    = Z.min (cw * h) (ch * w) / h /\
  Qfloor (inject_Z h * Qmin (inject_Z cw / inject_Z w) (inject_Z ch / inject_Z h))
    = Z.min (cw * h) (ch * w) / w.
Proof.
  intros Hw Hh.
  destruct w as [|pw|pw]; try lia. destruct h as [|ph|ph]; try lia.
  assert (Ea : (inject_Z cw / inject_Z (Zpos pw) == cw # pw)%Q).
  { unfold Qdiv, Qinv, inject_Z, Qmult, Qeq. cbn. lia. }
  assert (Eb : (inject_Z ch / inject_Z (Zpos ph) == ch # ph)%Q).
  { unfold Qdiv, Qinv, inject_Z, Qmult, Qeq. cbn. lia. }
  destruct (Q.min_spec (inject_Z cw / inject_Z (Zpos pw))
                       (inject_Z ch / inject_Z (Zpos ph))) as [[Hlt Hmin]|[Hle Hmin]].
  - rewrite Ea, Eb in Hlt. unfold Qlt in Hlt. cbn in Hlt.
    rewrite Z.min_l by lia. split.
    + rewrite (Qfloor_comp _ (cw * Zpos ph # ph)).
      * reflexivity.
      * rewrite Hmin, Ea. unfold Qeq, Qmult, inject_Z. cbn [Qnum Qden].
        rewrite ?Pos2Z.inj_mul. ring.
    + rewrite (Qfloor_comp _ (cw * Zpos ph # pw)).
      * reflexivity.
      * rewrite Hmin, Ea. unfold Qeq, Qmult, inject_Z. cbn [Qnum Qden].
        rewrite ?Pos2Z.inj_mul. ring.
  - rewrite Ea, Eb in Hle. unfold Qle in Hle. cbn in Hle.
    rewrite Z.min_r by lia. split.
    + rewrite (Qfloor_comp _ (ch * Zpos pw # ph)).
      * reflexivity.
      * rewrite Hmin, Eb. unfold Qeq, Qmult, inject_Z. cbn [Qnum Qden].
        rewrite ?Pos2Z.inj_mul. ring.
    + rewrite (Qfloor_comp _ (ch * Zpos pw # pw)).
      * reflexivity.
      * rewrite Hmin, Eb. unfold Qeq, Qmult, inject_Z. cbn [Qnum Qden].
        rewrite ?Pos2Z.inj_mul. ring.
Qed.

Lemma spec_fit_geometry_exact w h cw ch :
  0 < w -> 0 < h ->
  spec_fit_geometry (w, h) (cw, ch)
    = (Z.max 1 (Z.min (cw * h) (ch * w) / h), Z.max 1 (Z.min (cw * h) (ch * w) / w),
       ((cw - Z.max 1 (Z.min (cw * h) (ch * w) / h)) / 2,
        (ch - Z.max 1 (Z.min (cw * h) (ch * w) / w)) / 2)).
Proof.
  intros Hw Hh. unfold spec_fit_geometry.
  destruct (exact_scaled_floor w h cw ch Hw Hh) as [-> ->]. reflexivity.
Qed.

(** ** Rounding from below *)

(** A rounded result is at most one unit in the last place below the value
    that was rounded. *)
Lemma round_core_lower m e l d m2 e2 :
  0 < m -> Zdigits2 m = d -> prec <= d -> 3 - emax - prec <= d + e - prec ->
  round_core m e l = (m2, e2) ->
  (F2R m e * (1 - ulp_rel) <= F2R m2 e2)%R.
Proof.
  intros Hm Hd Hp Hn Hrc.
  destruct (round_core_normal m e l d Hm Hd Hp Hn)
    as (m2' & e2' & Hrc' & Hm2 & He2 & [Hlo _] & _).
  rewrite Hrc in Hrc'. injection Hrc' as <- <-.
  set (n := d - prec) in *.
  assert (Hn0 : 0 <= n) by (unfold n; lia).
  assert (H2n : 0 < 2 ^ n) by (apply Z.pow_pos_nonneg; lia).
  assert (Hshift : F2R m2 e2 = F2R (m2 * 2 ^ (e2 - e)) e).
  { rewrite F2R_shift by lia. f_equal. lia. }
  rewrite Hshift. unfold F2R.
  pose proof (Zdigits2_bounds m Hm) as Hb. rewrite Hd in Hb.
  assert (Hd1 : 2 ^ (d - 1) = 2 ^ 52 * 2 ^ n).
  { rewrite <- Z.pow_add_r by lia. f_equal. unfold n, prec. lia. }
  assert (HX : m - 2 ^ n <= m2 * 2 ^ (e2 - e)).
  { pose proof (Z.div_mod m (2 ^ n)). pose proof (Z.mod_pos_bound m (2 ^ n)). nia. }
  assert (HN : 2 ^ n * 2 ^ 52 <= m) by lia.
  apply IZR_le in HX. apply IZR_le in HN.
  rewrite minus_IZR in HX. rewrite mult_IZR in HN.
  pose proof (bpow_pos e) as Hbp.
  assert (HXl : (IZR m * (1 - ulp_rel) <= IZR (m2 * 2 ^ (e2 - e)))%R).
  { rewrite ulp_rel_eq. change (2 ^ 52) with 4503599627370496 in HN. lra. }
  nra.
Qed.

(** [a / b] is at most two units in the last place below the quotient. *)
Lemma int_truediv_lower a b x :
  0 < a < 2 ^ 53 -> 0 < b < 2 ^ 1000 ->
  int_truediv a b = Ok x ->
  (IZR a * (1 - ulp_rel) * (1 - ulp_rel) <= val x * IZR b)%R.
Proof.
  intros Ha Hb Hx.
  destruct (SFdiv_core_small a b Ha Hb) as (Hcore & Hs & Hq).
  set (s := 53 + Zdigits2 b - Zdigits2 a) in *.
  set (q := a * 2 ^ s / b) in *.
  assert (Hq0 : 0 < q) by lia.
  assert (Hdq : 53 <= Zdigits2 q <= 54).
  { split; [apply Zdigits2_ge; [lia|]; change (53 - 1) with 52; lia
           | apply Zdigits2_le; lia]. }
  assert (Hda : 0 < Zdigits2 a <= 53) by (split; [apply Zdigits2_pos|apply Zdigits2_le]; lia).
  assert (Hdb : 0 < Zdigits2 b <= 1000) by (split; [apply Zdigits2_pos|apply Zdigits2_le]; lia).
  destruct (round_core_rel q (- s) (new_location b ((a * 2 ^ s) mod b)) (Zdigits2 q))
    as (m2 & e2 & Hrc & Hm2 & He2 & _ & _);
    try (unfold prec, emax; lia); try reflexivity.
  pose proof (round_core_lower q (- s) _ (Zdigits2 q) m2 e2 Hq0 eq_refl
                ltac:(unfold prec; lia) ltac:(unfold prec, emax; lia) Hrc) as Hlow.
  destruct (pack_pos_normal m2 e2 Hm2) as [Hpn Hval];
    [unfold prec, emax in *; unfold s in *; lia|].
  apply int_truediv_fdiv in Hx.
  assert (Hdiv : x = pack false (m2, e2)).
  { rewrite <- Hx. destruct a as [|pa|pa]; try lia. destruct b as [|pb|pb]; try lia.
    unfold fdiv, exact_of_int, SFdiv. rewrite Hcore. fold q.
    cbn [xorb]. rewrite binary_round_aux_core, Hrc. reflexivity. }
  rewrite Hdiv, Hval.
  (* the integer quotient loses less than one unit of [q] *)
  assert (H2s : 0 < 2 ^ s) by (apply Z.pow_pos_nonneg; lia).
  assert (Hqb : a * 2 ^ s < (q + 1) * b).
  { pose proof (Z.div_mod (a * 2 ^ s) b ltac:(lia)) as Hdm.
    pose proof (Z.mod_pos_bound (a * 2 ^ s) b ltac:(lia)) as Hmod.
    fold q in Hdm. nia. }
  apply IZR_lt in Hqb. rewrite !mult_IZR, plus_IZR, <- bpow_IZR in Hqb by lia.
  assert (Hone : (bpow s * bpow (- s) = 1)%R).
  { rewrite <- bpow_add. replace (s + - s) with 0 by lia. reflexivity. }
  assert (Hq52 : (4503599627370496 <= IZR q)%R).
  { change 4503599627370496%R with (IZR (2 ^ 52)). apply IZR_le. lia. }
  unfold F2R in *.
  pose proof (bpow_pos s) as Hbs. pose proof (bpow_pos (- s)) as Hbms.
  assert (Hb0 : (0 < IZR b)%R) by (apply IZR_lt; lia).
  assert (Ha0 : (0 < IZR a)%R) by (apply IZR_lt; lia).
  assert (Hu : (0 < 1 - ulp_rel)%R) by (rewrite ulp_rel_eq; lra).
  (* a * 2^s * (1 - u) <= q * b *)
  assert (H1 : (IZR a * bpow s * (1 - ulp_rel) <= IZR q * IZR b)%R).
  { rewrite ulp_rel_eq.
    assert (IZR a * bpow s < IZR q * IZR b * (1 + / 4503599627370496))%R by nra.
    assert (0 < IZR q * IZR b)%R by nra.
    nra. }
  assert (H2 : (IZR a * (1 - ulp_rel) <= IZR q * bpow (- s) * IZR b)%R).
  { assert (IZR a * bpow s * (1 - ulp_rel) * bpow (- s)
            <= IZR q * IZR b * bpow (- s))%R as H3
      by (apply Rmult_le_compat_r; lra).
    replace (IZR a * bpow s * (1 - ulp_rel) * bpow (- s))%R
      with (IZR a * (1 - ulp_rel) * (bpow s * bpow (- s)))%R in H3 by ring.
    rewrite Hone in H3. lra. }
  apply Rle_trans with (IZR q * bpow (- s) * IZR b * (1 - ulp_rel))%R.
  - apply Rmult_le_compat_r; lra.
  - replace (IZR q * bpow (- s) * IZR b * (1 - ulp_rel))%R
      with (IZR q * bpow (- s) * (1 - ulp_rel) * IZR b)%R by ring.
    apply Rmult_le_compat_r; lra.
Qed.

Lemma fmul_lower x y :
  pos_normal x -> pos_normal y -> -1126 <= expo x + expo y <= 917 ->
  (val x * val y * (1 - ulp_rel) <= val (fmul x y))%R.
Proof.
  intros (mx & ex & -> & Hmx & _) (my & ey & -> & Hmy & _) He. cbn [expo] in He.
  set (m := Zpos mx * Zpos my).
  assert (Hm : 2 ^ 104 <= m < 2 ^ 106).
  { unfold m. change (2 ^ 104) with (2 ^ 52 * 2 ^ 52).
    change (2 ^ 106) with (2 ^ 53 * 2 ^ 53). nia. }
  assert (Hd : 105 <= Zdigits2 m <= 106).
  { split; [apply Zdigits2_ge; [lia|]; change (105 - 1) with 104; lia
           | apply Zdigits2_le; lia]. }
  destruct (round_core_rel m (ex + ey) loc_Exact (Zdigits2 m))
    as (m2 & e2 & Hrc & Hm2 & He2 & _ & _);
    try (unfold prec, emax; lia); try reflexivity.
  pose proof (round_core_lower m (ex + ey) loc_Exact (Zdigits2 m) m2 e2
                ltac:(lia) eq_refl ltac:(unfold prec; lia)
                ltac:(unfold prec, emax; lia) Hrc) as Hlow.
  destruct (pack_pos_normal m2 e2 Hm2) as [_ Hval];
    [unfold prec, emax in *; lia|].
  assert (Hz : fmul (S754_finite false mx ex) (S754_finite false my ey)
               = pack false (m2, e2)).
  { unfold fmul, SFmul. cbn [xorb]. rewrite binary_round_aux_core.
    change (Z.pos (mx * my)) with m. rewrite Hrc. reflexivity. }
  rewrite Hz, Hval. cbn [val]. rewrite <- F2R_mul. exact Hlow.
Qed.

(** A dimension scaled and cut, seen from both sides. *)
Lemma scaled_dim_between dim scale p t :
  0 < dim < 2 ^ 53 -> pos_normal scale -> -106 <= expo scale <= 1 ->
  int_mul_float dim scale = Ok p -> int_of_float p = Ok t ->
  0 <= t /\
  (IZR t <= IZR dim * val scale * (1 + ulp_rel))%R /\
  (IZR dim * val scale * (1 - ulp_rel) < IZR t + 1)%R.
Proof.
  intros Hdim Hs He Hp Ht.
  destruct (float_of_int_small dim Hdim) as (fd & Hfd & Hfdn & Hfdv & Hfde).
  unfold int_mul_float in Hp. rewrite Hfd in Hp. cbn [bind] in Hp. injection Hp as <-.
  pose proof (fmul_lower fd scale Hfdn Hs ltac:(lia)) as Hlow.
  destruct (fmul_pos_normal fd scale Hfdn Hs ltac:(lia)) as [Hpn Hup].
  destruct (int_of_float_pos _ Hpn) as (t' & Ht' & Ht0 & Htl & Hth).
  rewrite Ht in Ht'. injection Ht' as <-.
  rewrite Hfdv in Hlow, Hup.
  split; [assumption|]. split; lra.
Qed.


(** ** Two roundings against the exact rule *)

Lemma grow_twice x :
  (0 <= x <= 1125899906842624 -> x * (1 + ulp_rel) * (1 + ulp_rel) < x + 1)%R.
Proof.
  intros Hx. rewrite ulp_rel_eq.
  replace (x * (1 + / 4503599627370496) * (1 + / 4503599627370496))%R
    with (x + x * (2 * / 4503599627370496
                   + / 4503599627370496 * / 4503599627370496))%R by ring.
  assert (Hc : (2 * / 4503599627370496 + / 4503599627370496 * / 4503599627370496
                < / 1125899906842624)%R) by lra.
  assert (Hp : (x * (2 * / 4503599627370496 + / 4503599627370496 * / 4503599627370496)
                <= 1125899906842624
                   * (2 * / 4503599627370496
                      + / 4503599627370496 * / 4503599627370496))%R).
  { apply Rmult_le_compat_r; lra. }
  lra.
Qed.

Lemma shrink_thrice x :
  (0 <= x <= 1125899906842624 ->
   x - 1 < x * (1 - ulp_rel) * (1 - ulp_rel) * (1 - ulp_rel))%R.
Proof.
  intros Hx. rewrite ulp_rel_eq.
  set (u := (/ 4503599627370496)%R).
  assert (Hu : (0 < u < / 1125899906842624 / 3)%R) by (unfold u; lra).
  replace (x * (1 - u) * (1 - u) * (1 - u))%R
    with (x - x * (3 * u - 3 * (u * u) + u * u * u))%R by ring.
  assert (Hc : (0 <= 3 * u - 3 * (u * u) + u * u * u <= 3 * u)%R).
  { assert (0 <= u * u <= u)%R by (unfold u; lra).
    assert (0 <= u * u * u <= u * u)%R by (unfold u; lra).
    lra. }
  assert (Hp : (x * (3 * u - 3 * (u * u) + u * u * u)
                <= 1125899906842624 * (3 * u - 3 * (u * u) + u * u * u))%R).
  { apply Rmult_le_compat_r; lra. }
  lra.
Qed.

(** From the scale to a cross product, from above. *)
Lemma cross_upper t d s o c :
  (0 < d -> 0 < o -> 0 < s ->
   t <= d * s * (1 + ulp_rel) -> s * o <= c * (1 + ulp_rel) ->
   t * o <= d * c * (1 + ulp_rel) * (1 + ulp_rel))%R.
Proof.
  intros Hd Ho Hs Ht Hc.
  assert (Hu : (0 < 1 + ulp_rel)%R) by (rewrite ulp_rel_eq; lra).
  apply Rle_trans with (d * s * (1 + ulp_rel) * o)%R.
  - apply Rmult_le_compat_r; lra.
  - replace (d * s * (1 + ulp_rel) * o)%R with (d * (s * o) * (1 + ulp_rel))%R by ring.
    apply Rmult_le_compat_r; [lra|].
    replace (d * c * (1 + ulp_rel))%R with (d * (c * (1 + ulp_rel)))%R by ring.
    apply Rmult_le_compat_l; lra.
Qed.

(** From the scale to a cross product, from below. *)
Lemma cross_lower t d s o c :
  (0 < d -> 0 < o -> 0 < s ->
   d * s * (1 - ulp_rel) < t + 1 ->
   c * (1 - ulp_rel) * (1 - ulp_rel) <= s * o ->
   d * c * (1 - ulp_rel) * (1 - ulp_rel) * (1 - ulp_rel) < (t + 1) * o)%R.
Proof.
  intros Hd Ho Hs Ht Hc.
  assert (Hu : (0 < 1 - ulp_rel)%R) by (rewrite ulp_rel_eq; lra).
  apply Rle_lt_trans with (d * s * (1 - ulp_rel) * o)%R.
  - replace (d * s * (1 - ulp_rel) * o)%R with (d * (s * o) * (1 - ulp_rel))%R by ring.
    apply Rmult_le_compat_r; [lra|].
    replace (d * c * (1 - ulp_rel) * (1 - ulp_rel))%R
      with (d * (c * (1 - ulp_rel) * (1 - ulp_rel)))%R by ring.
    apply Rmult_le_compat_l; lra.
  - apply Rmult_lt_compat_r; lra.
Qed.

(** One dimension [d] of the image, the other being [o]; [c] is the canvas
    dimension that goes with [d] and [k] the one that goes with [o].  The
    scaled dimension the script computes is the floor of the exact one,
    [min (c * o) (k * d) / o], or one less, and the floor itself unless the
    exact one is a whole number. *)
Lemma scaled_dim_near_exact d o c k scale p t :
  0 < d <= 2 ^ 25 -> 0 < o <= 2 ^ 25 -> 0 < c <= 2 ^ 25 -> 0 < k <= 2 ^ 25 ->
  pos_normal scale -> -106 <= expo scale <= 1 ->
  (val scale * IZR d <= IZR c * (1 + ulp_rel))%R ->
  (val scale * IZR o <= IZR k * (1 + ulp_rel))%R ->
  ((IZR c * (1 - ulp_rel) * (1 - ulp_rel) <= val scale * IZR d)%R \/
   (IZR k * (1 - ulp_rel) * (1 - ulp_rel) <= val scale * IZR o)%R) ->
  int_mul_float d scale = Ok p -> int_of_float p = Ok t ->
  let n := Z.min (c * o) (k * d) in
  n / o - 1 <= t <= n / o /\ (n mod o <> 0 -> t = n / o).
Proof.
  intros Hd Ho Hc Hk Hsn Hse Hud Huo Hlow Hp Ht n.
  assert (H25 : 2 ^ 25 < 2 ^ 53) by reflexivity.
  destruct (scaled_dim_between d scale p t ltac:(lia) Hsn Hse Hp Ht)
    as (Ht0 & Htu & Htl).
  assert (Hs0 : (0 < val scale)%R).
  { destruct Hsn as (m & e & -> & _). cbn [val]. unfold F2R.
    pose proof (bpow_pos e). assert (0 < IZR (Zpos m))%R by (apply IZR_lt; lia).
    apply Rmult_lt_0_compat; assumption. }
  assert (Hd0 : (0 < IZR d)%R) by (apply IZR_lt; lia).
  assert (Ho0 : (0 < IZR o)%R) by (apply IZR_lt; lia).
  assert (Hc0 : (0 < IZR c)%R) by (apply IZR_lt; lia).
  assert (Hk0 : (0 < IZR k)%R) by (apply IZR_lt; lia).
  assert (Hu : (0 < 1 - ulp_rel < 1)%R) by (rewrite ulp_rel_eq; lra).
  assert (Hbig : forall a b, 0 < a <= 2 ^ 25 -> 0 < b <= 2 ^ 25 ->
            (0 <= IZR (a * b) <= 1125899906842624)%R).
  { intros a b Ha Hb. change 1125899906842624%R with (IZR (2 ^ 50)).
    split; apply IZR_le; [nia|]. change (2 ^ 50) with (2 ^ 25 * 2 ^ 25). nia. }
  (* from above: t * o <= c * o and t * o <= k * d *)
  assert (Hup1 : t * o <= c * o).
  { assert (H1 : (IZR t <= IZR c * (1 + ulp_rel) * (1 + ulp_rel))%R).
    { apply Rle_trans with (IZR d * val scale * (1 + ulp_rel))%R; [lra|].
      apply Rmult_le_compat_r; [rewrite ulp_rel_eq; lra|]. lra. }
    assert (H2 : (IZR t < IZR c + 1)%R).
    { apply Rle_lt_trans with (1 := H1). apply grow_twice.
      change 1125899906842624%R with (IZR (2 ^ 50)).
      split; apply IZR_le; [lia|]. assert (2 ^ 25 < 2 ^ 50) by reflexivity. lia. }
    rewrite <- plus_IZR in H2. apply lt_IZR in H2. nia. }
  assert (Hup2 : t * o <= k * d).
  { pose proof (cross_upper (IZR t) (IZR d) (val scale) (IZR o) (IZR k)
                  Hd0 Ho0 Hs0 Htu Huo) as H1.
    replace (IZR d * IZR k)%R with (IZR (k * d)) in H1 by (rewrite mult_IZR; ring).
    pose proof (grow_twice (IZR (k * d)) (Hbig k d Hk Hd)) as H2.
    assert (H3 : (IZR t * IZR o < IZR (k * d) + 1)%R) by lra.
    rewrite <- mult_IZR, <- plus_IZR in H3. apply lt_IZR in H3. lia. }
  (* from below: n <= (t + 1) * o *)
  assert (Hlo : n <= (t + 1) * o).
  { destruct Hlow as [Hl|Hl].
    - assert (H1 : (IZR c * (1 - ulp_rel) * (1 - ulp_rel) * (1 - ulp_rel)
                    < IZR t + 1)%R).
      { apply Rle_lt_trans with (IZR d * val scale * (1 - ulp_rel))%R; [|lra].
        apply Rmult_le_compat_r; lra. }
      assert (H2 : (IZR c - 1 < IZR t + 1)%R).
      { apply Rlt_trans with (2 := H1). apply shrink_thrice.
        change 1125899906842624%R with (IZR (2 ^ 50)).
        split; apply IZR_le; [lia|]. assert (2 ^ 25 < 2 ^ 50) by reflexivity. lia. }
      rewrite <- minus_IZR, <- plus_IZR in H2. apply lt_IZR in H2.
      assert (n <= c * o) by apply Z.le_min_l. nia.
    - pose proof (cross_lower (IZR t) (IZR d) (val scale) (IZR o) (IZR k)
                    Hd0 Ho0 Hs0 Htl Hl) as H1.
      replace (IZR d * IZR k)%R with (IZR (k * d)) in H1 by (rewrite mult_IZR; ring).
      pose proof (shrink_thrice (IZR (k * d)) (Hbig k d Hk Hd)) as H2.
      assert (H3 : (IZR (k * d) - 1 < (IZR t + 1) * IZR o)%R) by lra.
      rewrite <- plus_IZR, <- mult_IZR, <- minus_IZR in H3. apply lt_IZR in H3.
      assert (n <= k * d) by apply Z.le_min_r. lia. }
  assert (Hn : t * o <= n) by (unfold n; apply Z.min_glb; assumption).
  pose proof (Z.div_mod n o ltac:(lia)) as Hdm.
  pose proof (Z.mod_pos_bound n o ltac:(lia)) as Hmod.
  assert (Hle : t <= n / o) by (apply Z.div_le_lower_bound; lia).
  split; [split; [nia|assumption]|].
  intros Hne. nia.
Qed.

Lemma fit_geometry_near_exact_rule w h cw ch :
  0 < w <= 2 ^ 25 -> 0 < h <= 2 ^ 25 -> 0 < cw <= 2 ^ 25 -> 0 < ch <= 2 ^ 25 ->
  let n := Z.min (cw * h) (ch * w) in
  exists new_w new_h,
    fit_geometry (w, h) (cw, ch)
      = Ok (new_w, new_h, ((cw - new_w) / 2, (ch - new_h) / 2)) /\
    1 <= new_w /\ Z.max 1 (n / h) - 1 <= new_w <= Z.max 1 (n / h) /\
    1 <= new_h /\ Z.max 1 (n / w) - 1 <= new_h <= Z.max 1 (n / w) /\
    (n mod h <> 0 -> new_w = Z.max 1 (n / h)) /\
    (n mod w <> 0 -> new_h = Z.max 1 (n / w)).
Proof.
  intros Hw Hh Hcw Hch n.
  assert (H25 : 2 ^ 25 < 2 ^ 50) by reflexivity.
  assert (H50 : 2 ^ 50 < 2 ^ 53) by reflexivity.
  assert (H1000 : 2 ^ 50 < 2 ^ 1000) by reflexivity.
  destruct (fit_geometry_within w h cw ch ltac:(lia) ltac:(lia) ltac:(lia) ltac:(lia))
    as (nw & nh & Hg & Hnw & Hnh).
  exists nw, nh. split; [assumption|].
  destruct (int_truediv_small cw w ltac:(lia) ltac:(lia))
    as (rw & Hrw & Hrwn & Hrwe & Hrwv).
  destruct (int_truediv_small ch h ltac:(lia) ltac:(lia))
    as (rh & Hrh & Hrhn & Hrhe & Hrhv).
  pose proof (int_truediv_lower cw w rw ltac:(lia) ltac:(lia) Hrw) as Hlw.
  pose proof (int_truediv_lower ch h rh ltac:(lia) ltac:(lia) Hrh) as Hlh.
  destruct (min_float_pos_normal rw rh Hrwn Hrhn) as (Hsn & Hsel & Hsw & Hsh).
  assert (Hdw : Zdigits2 w <= 53) by (apply Zdigits2_le; lia).
  assert (Hdh : Zdigits2 h <= 53) by (apply Zdigits2_le; lia).
  assert (Hse : -106 <= expo (min_float rw rh) <= 1)
    by (destruct Hsel as [-> | ->]; lia).
  unfold fit_geometry in Hg. rewrite Hrw in Hg. cbn [bind] in Hg.
  rewrite Hrh in Hg. cbn [bind] in Hg.
  set (scale := min_float rw rh) in *.
  destruct (int_mul_float w scale) as [pw|] eqn:Hpw; [|discriminate].
  cbn [bind] in Hg.
  destruct (int_of_float pw) as [iw|] eqn:Hiw; [|discriminate]. cbn [bind] in Hg.
  destruct (int_mul_float h scale) as [ph|] eqn:Hph; [|discriminate].
  cbn [bind] in Hg.
  destruct (int_of_float ph) as [ih|] eqn:Hih; [|discriminate]. cbn [bind] in Hg.
  injection Hg as Hew Heh. rewrite max_int_1 in Hew, Heh.
  assert (Hw0 : (0 < IZR w)%R) by (apply IZR_lt; lia).
  assert (Hh0 : (0 < IZR h)%R) by (apply IZR_lt; lia).
  assert (Huw : (val scale * IZR w <= IZR cw * (1 + ulp_rel))%R).
  { apply Rle_trans with (val rw * IZR w)%R; [|assumption].
    apply Rmult_le_compat_r; lra. }
  assert (Huh : (val scale * IZR h <= IZR ch * (1 + ulp_rel))%R).
  { apply Rle_trans with (val rh * IZR h)%R; [|assumption].
    apply Rmult_le_compat_r; lra. }
  assert (Hlow : (IZR cw * (1 - ulp_rel) * (1 - ulp_rel) <= val scale * IZR w)%R \/
                 (IZR ch * (1 - ulp_rel) * (1 - ulp_rel) <= val scale * IZR h)%R).
  { destruct Hsel as [Hs|Hs]; rewrite Hs; [left|right]; assumption. }
  destruct (scaled_dim_near_exact w h cw ch scale pw iw Hw Hh Hcw Hch Hsn Hse
              Huw Huh Hlow Hpw Hiw) as [Hwb Hwe].
  assert (Hlow' : (IZR ch * (1 - ulp_rel) * (1 - ulp_rel) <= val scale * IZR h)%R \/
                  (IZR cw * (1 - ulp_rel) * (1 - ulp_rel) <= val scale * IZR w)%R)
    by tauto.
  destruct (scaled_dim_near_exact h w ch cw scale ph ih Hh Hw Hch Hcw Hsn Hse
              Huh Huw Hlow' Hph Hih) as [Hhb Hhe].
  replace (Z.min (ch * w) (cw * h)) with n in Hhb, Hhe by (unfold n; apply Z.min_comm).
  fold n in Hwb, Hwe.
  split; [lia|]. split; [lia|]. split; [lia|]. split; [lia|].
  split; intros Hne.
  - rewrite (Hwe Hne) in Hew. lia.
  - rewrite (Hhe Hne) in Heh. lia.
Qed.

(** C2, as the script has it.  The scale, the two products and the cut to
    integers are binary64 operations: the two ratios are rounded, the
    smaller one is the scale, each product dimension times scale is
    rounded again, cut toward zero by [int] and raised to at least 1.  For
    dimensions up to 2^25 each resized dimension is the one of the exact
    rule, max(1, floor(dimension * min(cw / w, ch / h))), or one pixel
    less, and it is the exact one unless the exact scaled dimension is a
    whole number.  The resized image is pasted at
    ((cw - new_w) div 2, (ch - new_h) div 2).  A 200x100 image on a 100x100
    canvas becomes 100x50 at vertical offset 25, and a 1000x10 image on a
    10x10 canvas gets height 1. *)
Theorem fit_geometry_near_exact :
  (forall w h cw ch,
     0 < w <= 2 ^ 25 -> 0 < h <= 2 ^ 25 -> 0 < cw <= 2 ^ 25 -> 0 < ch <= 2 ^ 25 ->
     exists new_w new_h exact_w exact_h,
       fit_geometry (w, h) (cw, ch)
         = Ok (new_w, new_h, ((cw - new_w) / 2, (ch - new_h) / 2)) /\
       spec_fit_geometry (w, h) (cw, ch)
         = (exact_w, exact_h, ((cw - exact_w) / 2, (ch - exact_h) / 2)) /\
       1 <= new_w /\ exact_w - 1 <= new_w <= exact_w /\
       1 <= new_h /\ exact_h - 1 <= new_h <= exact_h /\
       (Z.min (cw * h) (ch * w) mod h <> 0 -> new_w = exact_w) /\
       (Z.min (cw * h) (ch * w) mod w <> 0 -> new_h = exact_h)) /\
  (forall W img canvas bgcolor out,
     fit_to_canvas W img (Some canvas) true bgcolor = Ok out ->
     exists new_w new_h offset resized blank,
       fit_geometry (size img) canvas = Ok (new_w, new_h, offset) /\
       resize W img (new_w, new_h) = Ok resized /\
       image_new canvas bgcolor = Ok blank /\
       out = paste blank resized offset) /\
  fit_geometry (200, 100) (100, 100) = Ok (100, 50, (0, 25)) /\
  fit_geometry (1000, 10) (10, 10) = Ok (10, 1, (0, 4)).
Proof.
  split; [|split; [|split; vm_compute; reflexivity]].
  - intros w h cw ch Hw Hh Hcw Hch.
    destruct (fit_geometry_near_exact_rule w h cw ch Hw Hh Hcw Hch)
      as (nw & nh & Hg & H1 & H2 & H3 & H4 & H5 & H6).
    exists nw, nh, (Z.max 1 (Z.min (cw * h) (ch * w) / h)),
           (Z.max 1 (Z.min (cw * h) (ch * w) / w)).
    split; [assumption|].
    split; [apply spec_fit_geometry_exact; lia|].
    repeat (split; [assumption|]). assumption.
  - intros W img canvas bgcolor out Hfit. unfold fit_to_canvas in Hfit.
    destruct (fit_geometry (size img) canvas) as [[[nw nh] off]|]; [|discriminate].
    cbn [bind] in Hfit.
    destruct (resize W img (nw, nh)) as [resized|] eqn:Hres; [|discriminate].
    cbn [bind] in Hfit.
    destruct (image_new canvas bgcolor) as [blank|] eqn:Hnew; [|discriminate].
    cbn [bind] in Hfit. injection Hfit as <-.
    exists nw, nh, off, resized, blank.
    split; [reflexivity|]. split; [exact Hres|].
    split; [first [exact Hnew|reflexivity]|reflexivity].
Qed.

Lemma fit_geometry_near_exact_witness :
  exists new_w new_h exact_w exact_h,
    fit_geometry (1280, 720) (448, 252)
      = Ok (new_w, new_h, ((448 - new_w) / 2, (252 - new_h) / 2)) /\
    spec_fit_geometry (1280, 720) (448, 252)
      = (exact_w, exact_h, ((448 - exact_w) / 2, (252 - exact_h) / 2)) /\
    exact_w - 1 <= new_w <= exact_w /\ exact_h - 1 <= new_h <= exact_h.
Proof.
  destruct fit_geometry_near_exact as [Hrule _].
  destruct (Hrule 1280 720 448 252)
    as (nw & nh & ew & eh & Hg & Hs & _ & Hw & _ & Hh & _);
    try (vm_compute; split; (reflexivity || discriminate)).
  exists nw, nh, ew, eh. repeat split; (assumption || apply Hw || apply Hh).
Defined.

(** The rule in exact arithmetic and the script disagree where a rounded
    product falls just below a whole number: a 1280x720 image on a 448x252
    canvas scales to exactly 448x252, the script makes it 448x251; a 98x98
    image on a 2x2 canvas scales to exactly 2x2, the script makes it
    1x1. *)
Lemma fit_geometry_not_exact :
  spec_fit_geometry (1280, 720) (448, 252) = (448, 252, (0, 0)) /\
  fit_geometry (1280, 720) (448, 252) = Ok (448, 251, (0, 0)) /\
  spec_fit_geometry (98, 98) (2, 2) = (2, 2, (0, 0)) /\
  fit_geometry (98, 98) (2, 2) = Ok (1, 1, (0, 0)).
Proof. repeat split; vm_compute; reflexivity. Qed.

(* ================================================================== *)
(** * load_frames *)
(* ================================================================== *)

Section LoadFrames.
Variable W : world.

(** After the first iteration the canvas size no longer changes, and every
    frame appended has it. *)
Lemma load_loop_sizes target : forall paths i acc base t frames t',
  0 < i ->
  load_loop W target i paths acc base t = (Ok frames, t') ->
  exists new, frames = (acc ++ new)%list /\
              List.length new = List.length paths /\
              Forall (fun f => Some (size f) = base) new.
Proof.
  induction paths as [|p rest IH]; intros i acc base t frames t' Hi Hrun.
  - cbn in Hrun. injection Hrun as <- _. exists []. rewrite app_nil_r.
    split; [reflexivity|]. split; [reflexivity|constructor].
  - cbn [load_loop] in Hrun. unfold bindIO, image_open, emit in Hrun.
    unfold bindIO at 1 in Hrun.
    destruct (decode W p) as [img|]; [|discriminate].
    unfold ret, lift in Hrun.
    destruct (Z.eqb_spec i 0); [lia|].
    destruct (fit_to_canvas W img base true transparent) as [img'|] eqn:Hfit;
      [|discriminate].
    apply IH in Hrun; [|lia]. destruct Hrun as (new & -> & Hlen & Hall).
    exists (img' :: new). rewrite <- app_assoc. cbn. repeat split; auto.
    constructor; [|assumption].
    symmetry. eapply fit_to_canvas_size. eassumption.
Qed.

(** C1. Whatever the sizes of the source images, the frames load_frames
    returns are as many as the paths and each has exactly the resolved
    canvas size: the explicit target size when one is supplied, the size
    of the first loaded image otherwise. *)
Theorem load_frames_uniform_size paths target t frames t' :
  load_frames W paths target t = (Ok frames, t') ->
  List.length frames = List.length paths /\
  Forall (fun f => Some (size f) = resolved_canvas W paths target) frames.
Proof.
  unfold load_frames.
  intros Hrun. destruct paths as [|p rest].
  - cbn in Hrun. injection Hrun as <- _. auto.
  - cbn [load_loop] in Hrun. unfold bindIO, image_open, emit in Hrun.
    unfold bindIO at 1 in Hrun.
    destruct (decode W p) as [img|] eqn:Hdec; [|discriminate].
    unfold ret, lift in Hrun. cbn [Z.eqb] in Hrun.
    destruct (fit_to_canvas W img _ true transparent) as [img'|] eqn:Hfit;
      [|discriminate].
    apply load_loop_sizes in Hrun; [|lia].
    destruct Hrun as (new & -> & Hlen & Hall).
    assert (Hc : Some (match target with Some s => s | None => size img end)
                 = resolved_canvas W (p :: rest) target).
    { unfold resolved_canvas. rewrite Hdec. destruct target; reflexivity. }
    rewrite <- Hc. cbn [app List.length]. split; [lia|].
    constructor; [|assumption].
    symmetry. eapply fit_to_canvas_size. eassumption.
Qed.

End LoadFrames.

(** Three frames of sizes 50x50, 80x40 and 50x50 on a 60x60 canvas. *)
Lemma load_frames_uniform_size_witness :
  let paths := ["frames/img1.png"; "frames/img2.png"; "frames/img10.png"]%string in
  exists frames,
    fst (load_frames Samples.folder_world paths (Some (60, 60)) []) = Ok frames /\
    List.length frames = 3%nat /\
    Forall (fun f => Some (size f) = Some (60, 60)) frames.
Proof.
  intros paths.
  destruct (load_frames Samples.folder_world paths (Some (60, 60)) [])
    as [r t'] eqn:Hrun.
  destruct r as [frames|e]; [|vm_compute in Hrun; discriminate].
  exists frames. split; [reflexivity|].
  exact (load_frames_uniform_size Samples.folder_world paths (Some (60, 60)) []
           frames t' Hrun).
Defined.

(** ** A canvas size that is not positive *)

Section NegativeCanvas.
Variable W : world.

Lemma fit_to_canvas_negative_raises img cw ch bgcolor :
  cw < 0 \/ ch < 0 ->
  exists e, fit_to_canvas W img (Some (cw, ch)) true bgcolor = Raise e.
Proof.
  intros Hneg. unfold fit_to_canvas.
  destruct (fit_geometry (size img) (cw, ch)) as [[[nw nh] off]|e];
    [|cbn [bind]; eexists; reflexivity].
  cbn [bind]. destruct (resize W img (nw, nh)) as [img'|e];
    [|cbn [bind]; eexists; reflexivity].
  cbn [bind]. unfold image_new.
  assert (Hor : (cw <? 0) || (ch <? 0) = true).
  { apply orb_true_iff. destruct Hneg; [left|right]; apply Z.ltb_lt; assumption. }
  rewrite Hor. cbn [bind]. eexists; reflexivity.
Qed.

Lemma fit_to_canvas_negative_error img cw ch bgcolor :
  valid_size (size img) ->
  - 2 ^ 50 <= cw <= 2 ^ 50 -> - 2 ^ 50 <= ch <= 2 ^ 50 ->
  cw < 0 \/ ch < 0 ->
  fit_to_canvas W img (Some (cw, ch)) true bgcolor = Raise (ValueError negative_size_msg).
Proof.
  intros [Hw Hh] Hcw Hch Hneg. cbn [size fst snd] in Hw, Hh.
  pose proof C_INT_MAX_small as Hmax.
  unfold fit_to_canvas, size.
  rewrite fit_geometry_negative_canvas by (try assumption; lia).
  cbn [bind].
  assert (Hres : exists img', resize W img (1, 1) = Ok img').
  { unfold resize. destruct ((1 =? width img) && (1 =? height img));
      eexists; reflexivity. }
  destruct Hres as (img' & ->). cbn [bind]. unfold image_new.
  assert (Hor : (cw <? 0) || (ch <? 0) = true).
  { apply orb_true_iff. destruct Hneg; [left|right]; apply Z.ltb_lt; assumption. }
  rewrite Hor. reflexivity.
Qed.

(** C5, as the script has it.  Nothing in the script checks the canvas
    size.  With a negative width or height and at least one path,
    load_frames does fail and produces no frame; when the first file
    decodes to an image of valid size and neither canvas dimension exceeds
    2^50 in magnitude, the failure is the imaging library's ValueError,
    raised when the canvas of the first frame is allocated, after that one
    file was opened. *)
Theorem negative_canvas_fails p rest cw ch t :
  cw < 0 \/ ch < 0 ->
  (exists e t', load_frames W (p :: rest) (Some (cw, ch)) t = (Raise e, t')) /\
  (forall img,
     decode W p = Some img -> valid_size (size img) ->
     - 2 ^ 50 <= cw <= 2 ^ 50 -> - 2 ^ 50 <= ch <= 2 ^ 50 ->
     load_frames W (p :: rest) (Some (cw, ch)) t
       = (Raise (ValueError negative_size_msg), (t ++ [EvOpen p])%list)).
Proof.
  intros Hneg. unfold load_frames. cbn [load_loop].
  unfold bindIO, image_open, emit. unfold bindIO at 1. cbn [Z.eqb].
  split.
  - destruct (decode W p) as [img|]; [|unfold throw; eexists _, _; reflexivity].
    unfold ret, lift.
    destruct (fit_to_canvas_negative_raises img cw ch transparent Hneg) as (e & ->).
    eexists _, _; reflexivity.
  - intros img Hdec Himg Hcw Hch. rewrite Hdec. unfold ret, lift.
    unfold bindIO. cbv beta iota.
    rewrite (fit_to_canvas_negative_error img cw ch transparent) by assumption.
    reflexivity.
Qed.

End NegativeCanvas.

Lemma negative_canvas_fails_witness :
  load_frames Samples.folder_world ["frames/img1.png"; "frames/img2.png"]%string
      (Some (-60, 60)) []
    = (Raise (ValueError negative_size_msg), [EvOpen "frames/img1.png"]).
Proof.
  destruct (negative_canvas_fails Samples.folder_world "frames/img1.png"
              ["frames/img2.png"]%string (-60) 60 []) as [_ Herr].
  - left. reflexivity.
  - apply (Herr (Samples.flat 50 50 (255, 0, 0, 255))).
    + reflexivity.
    + split; vm_compute; split; (reflexivity || discriminate).
    + vm_compute; split; discriminate.
    + vm_compute; split; discriminate.
Defined.

(** A zero width is accepted: the frame comes out 0 pixels wide.  And with
    no path at all even a negative size raises nothing. *)
Lemma nonpositive_canvas_accepted :
  Samples.frame_sizes
    (load_frames Samples.folder_world ["frames/img1.png"]%string (Some (0, 50)) [])
    = Ok [(0, 50)] /\
  load_frames Samples.folder_world [] (Some (-5, -5)) [] = (Ok [], []).
Proof. split; vm_compute; reflexivity. Qed.

(** Without the bound on the magnitudes the error can be another one: with
    a height of 10^400 the ratio of line 24 does not fit a float and the
    division raises OverflowError before the library is called. *)
Lemma negative_canvas_huge_overflows :
  load_frames Samples.folder_world ["frames/img1.png"]%string
      (Some (-5, 10 ^ 400)) []
    = (Raise OverflowError, [EvOpen "frames/img1.png"]).
Proof. vm_compute. reflexivity. Qed.

(* ================================================================== *)
(** * save_gif *)
(* ================================================================== *)

(** C6. save_gif raises its empty-input error exactly when it is given no
    frame, and in that case it raises before anything is written: the
    trace of effects is left as it was. *)
Theorem save_gif_empty_input W frames output_path duration_ms loop optimize t :
  (fst (save_gif W frames output_path duration_ms loop optimize t)
     = Raise (ValueError no_frames_msg) <-> frames = []) /\
  (frames = [] ->
   snd (save_gif W frames output_path duration_ms loop optimize t) = t).
Proof.
  split; [split|].
  - destruct frames as [|f rest]; [reflexivity|].
    unfold save_gif. destruct (writable W output_path); cbn; discriminate.
  - intros ->. reflexivity.
  - intros ->. reflexivity.
Qed.

Lemma save_gif_empty_input_witness :
  save_gif Samples.empty_world [] "output.gif" 100 0 true []
    = (Raise (ValueError no_frames_msg), []).
Proof.
  destruct (save_gif_empty_input Samples.empty_world [] "output.gif" 100 0 true [])
    as [[_ Hraise] Htrace].
  rewrite (surjective_pairing (save_gif _ _ _ _ _ _ _)).
  rewrite (Hraise eq_refl), (Htrace eq_refl). reflexivity.
Defined.

(* ================================================================== *)
(** * make_gif_from_folder *)
(* ================================================================== *)

Section Driver.
Variable W : world.

(** C7. When no file of the input directory matches any pattern,
    make_gif_from_folder fails with its no-images-found error, and it has
    then opened no image and written nothing: the effects are the five
    directory scans and the printing of the empty path list. *)
Theorem make_gif_no_images input_dir output_gif fps duration_ms size loop t :
  (forall pat, In pat default_patterns -> glob W (path_join input_dir pat) = []) ->
  exists effects,
    make_gif_from_folder W input_dir output_gif fps duration_ms size loop t
      = (Raise (FileNotFoundError (no_images_msg input_dir)), (t ++ effects)%list) /\
    effects = (map (fun pat => EvGlob (path_join input_dir pat)) default_patterns
               ++ [EvPrintPaths []])%list /\
    (forall p, ~ In (EvOpen p) effects) /\
    (forall p g, ~ In (EvSave p g) effects).
Proof.
  intros Hempty.
  eexists. split; [|split; [reflexivity|]].
  - unfold make_gif_from_folder, collect_image_paths, bindIO.
    rewrite glob_all_run. unfold lift.
    assert (Hnone : List.concat (map (fun pat => glob W (path_join input_dir pat))
                              default_patterns) = []).
    { cbn [default_patterns map List.concat].
      rewrite !Hempty by (cbn; auto 10). reflexivity. }
    rewrite Hnone. cbn [app].
    change (sorted natural_sort_key []) with (@Ok (list string) []).
    cbv beta iota. unfold emit, throw.
    rewrite <- app_assoc. reflexivity.
  - split.
    + intros p Hin. apply in_app_or in Hin. destruct Hin as [Hin|Hin].
      * apply in_map_iff in Hin. destruct Hin as (pat & Heq & _). discriminate.
      * destruct Hin as [Heq|[]]. discriminate.
    + intros p g Hin. apply in_app_or in Hin. destruct Hin as [Hin|Hin].
      * apply in_map_iff in Hin. destruct Hin as (pat & Heq & _). discriminate.
      * destruct Hin as [Heq|[]]. discriminate.
Qed.

End Driver.

Lemma make_gif_no_images_witness :
  exists effects,
    make_gif_from_folder Samples.empty_world "frames" "output.gif" None None None 0 []
      = (Raise (FileNotFoundError (no_images_msg "frames")), effects) /\
    (forall p, ~ In (EvOpen p) effects).
Proof.
  destruct (make_gif_no_images Samples.empty_world "frames" "output.gif"
              None None None 0 []) as (effects & Hrun & _ & Hopen & _).
  - intros pat _. reflexivity.
  - exists effects. split; [exact Hrun|exact Hopen].
Defined.

(** ** The frame duration: 1000 / n for an integer n above 1000 is below 1 *)

Lemma SFdiv_core_1000 n :
  1000 < n ->
  exists s q l,
    53 <= s /\ SFdiv_core_binary prec emax 1000 0 n 0 = (q, - s, l) /\
    0 <= q /\ 1001 * q <= 1000 * 2 ^ s.
Proof.
  intros Hn.
  assert (Hd2 : 10 <= Zdigits2 n).
  { apply Zdigits2_ge; [lia|]. change (2 ^ (10 - 1)) with 512. lia. }
  set (s := - fexp prec emax (10 - Zdigits2 n)).
  assert (Hs : 53 <= s) by (unfold s, fexp, SpecFloat.emin, prec, emax; lia).
  exists s, (1000 * 2 ^ s / n), (new_location n ((1000 * 2 ^ s) mod n)).
  assert (H2s : 0 < 2 ^ s) by (apply Z.pow_pos_nonneg; lia).
  split; [assumption|]. split; [|split].
  - unfold SFdiv_core_binary.
    change (Zdigits2 1000) with 10. rewrite !Z.add_0_r, Z.sub_0_r.
    rewrite Z.min_l by (fold s; lia).
    replace (0 - fexp prec emax (10 - Zdigits2 n)) with s by (unfold s; lia).
    replace (fexp prec emax (10 - Zdigits2 n)) with (- s) by (unfold s; lia).
    destruct s as [|ps|ps] eqn:Es; try lia.
    rewrite Z.shiftl_mul_pow2 by lia.
    unfold Z.div, Z.modulo.
    destruct (Z.div_eucl (1000 * 2 ^ Z.pos ps) n) as [q r]. reflexivity.
  - apply Z.div_pos; lia.
  - assert (Hq : n * (1000 * 2 ^ s / n) <= 1000 * 2 ^ s) by (apply Z.mul_div_le; lia).
    assert (0 <= 1000 * 2 ^ s / n) by (apply Z.div_pos; lia).
    nia.
Qed.

Lemma int_truediv_1000_large n :
  1000 < n ->
  exists x, int_truediv 1000 n = Ok x /\ int_of_float x = Ok 0.
Proof.
  intros Hn.
  destruct (SFdiv_core_1000 n Hn) as (s & q & l & Hs & Hcore & Hq0 & Hq).
  destruct (round_core q (- s) l) as [m2 e2] eqn:Hrc.
  destruct (round_core_upper q (- s) l m2 e2 Hq0 Hrc) as (Hm2 & He2 & Hup).
  set (e1 := Z.max (- s) (fexp prec emax (Zdigits2 q + - s))) in *.
  assert (H2s : 0 < 2 ^ s) by (apply Z.pow_pos_nonneg; lia).
  assert (Hqs : q < 2 ^ s) by nia.
  assert (He1 : e1 <= -53).
  { assert (Zdigits2 q <= s).
    { destruct (Z.eq_dec q 0) as [->|]; [cbn; lia|]. apply Zdigits2_le; lia. }
    unfold e1, fexp, SpecFloat.emin, prec, emax. lia. }
  assert (Hlt : m2 * 2 ^ (e2 + s) < 2 ^ s).
  { replace (e2 - - s) with (e2 + s) in Hup by lia.
    replace (e1 - - s) with (e1 + s) in Hup by lia.
    assert (Hp : 2 ^ (e1 + s) <= 2 ^ (s - 53)) by (apply Z.pow_le_mono_r; lia).
    assert (Hsplit : 2 ^ s = 2 ^ 53 * 2 ^ (s - 53)).
    { rewrite <- Z.pow_add_r by lia. f_equal. lia. }
    assert (0 < 2 ^ (s - 53)) by (apply Z.pow_pos_nonneg; lia).
    change (2 ^ 53) with 9007199254740992 in Hsplit. lia. }
  assert (Hdiv : fdiv (exact_of_int 1000) (exact_of_int n) = pack false (m2, e2)).
  { destruct n as [|pn|pn]; try lia.
    unfold fdiv, exact_of_int, SFdiv. rewrite Hcore.
    cbn [xorb]. rewrite binary_round_aux_core, Hrc. reflexivity. }
  unfold int_truediv. destruct (Z.eqb_spec n 0); [lia|]. rewrite Hdiv.
  unfold pack. cbn [fst snd].
  destruct m2 as [|pm|pm]; try lia.
  - eexists. split; reflexivity.
  - assert (He2neg : e2 < 0).
    { destruct (Z_lt_le_dec e2 0) as [|Hge]; [assumption|exfalso].
      assert (2 ^ s <= 2 ^ (e2 + s)) by (apply Z.pow_le_mono_r; lia). nia. }
    destruct (Z.leb_spec e2 (emax - prec)); [|unfold emax, prec in *; lia].
    eexists. split; [reflexivity|].
    cbn [int_of_float]. f_equal.
    destruct e2 as [|pe|pe]; try lia. cbn [trunc_mag].
    rewrite Z.shiftr_div_pow2 by lia.
    apply Z.div_small. split; [lia|].
    assert (Hsplit : 2 ^ s = 2 ^ Zpos pe * 2 ^ (Zneg pe + s)).
    { rewrite <- Z.pow_add_r by lia. f_equal. lia. }
    assert (0 < 2 ^ (Zneg pe + s)) by (apply Z.pow_pos_nonneg; lia).
    nia.
Qed.

(** ** resolve_duration *)

Lemma resolve_duration_positive f d :
  number_gt0 f = true ->
  resolve_duration (Some f) d = (q <- int_div_number 1000 f ;; int_of_float q)%py.
Proof.
  intros Hf. unfold resolve_duration. rewrite Hf.
  destruct (int_div_number 1000 f) as [q|]; [|reflexivity]. cbn [bind].
  destruct (int_of_float q); reflexivity.
Qed.

Lemma resolve_duration_otherwise d :
  resolve_duration None d = Ok (match d with Some x => x | None => 100 end).
Proof. reflexivity. Qed.

(** Up to 1000 the quotients are checked one by one. *)
Lemma int_truediv_1000_table :
  forallb (fun k =>
             match (q <- int_truediv 1000 (Z.of_nat k) ;; int_of_float q)%py with
             | Ok d => d =? 1000 / Z.of_nat k
             | Raise _ => false
             end)
          (seq 1 1000) = true.
Proof. vm_compute. reflexivity. Qed.

Lemma int_truediv_1000_floor n :
  0 < n -> (q <- int_truediv 1000 n ;; int_of_float q)%py = Ok (1000 / n).
Proof.
  intros Hn. destruct (Z_le_gt_dec n 1000) as [Hle|Hgt].
  - pose proof int_truediv_1000_table as Htab.
    rewrite forallb_forall in Htab.
    specialize (Htab (Z.to_nat n)). rewrite Z2Nat.id in Htab by lia.
    assert (Hin : In (Z.to_nat n) (seq 1 1000)) by (apply in_seq; lia).
    specialize (Htab Hin).
    destruct (q <- int_truediv 1000 n ;; int_of_float q)%py as [d|]; [|discriminate].
    apply Z.eqb_eq in Htab. congruence.
  - destruct (int_truediv_1000_large n ltac:(lia)) as (x & -> & Hx).
    cbn [bind]. rewrite Hx, Z.div_small by lia. reflexivity.
Qed.

Lemma float_gt0_not_zero x : fltb fzero x = true -> float_truediv f1000 x = Ok (fdiv f1000 x).
Proof. destruct x as [s|s| |s m e]; try reflexivity. destruct s; discriminate. Qed.

(** C3, as the script has it.  With a positive fps the duration is
    int(1000 / fps), the binary64 quotient cut toward zero, whatever
    duration_ms was passed: for an integer fps that is the integer quotient
    1000 div fps.  Without a positive fps the explicit duration_ms is
    used, and 100 when there is none.  fps=2 gives 500, no fps and no
    duration gives 100, and fps=3 overrides an explicit 1000 (with 333). *)
Theorem resolve_duration_truncates :
  (forall n d, 0 < n -> resolve_duration (Some (Int n)) d = Ok (1000 / n)) /\
  (forall x d, fltb fzero x = true ->
     resolve_duration (Some (Float x)) d = int_of_float (fdiv f1000 x)) /\
  (forall f d, number_gt0 f = false ->
     resolve_duration (Some f) d = Ok (match d with Some x => x | None => 100 end)) /\
  (forall d, resolve_duration None d = Ok (match d with Some x => x | None => 100 end)) /\
  resolve_duration (Some (Int 2)) None = Ok 500 /\
  resolve_duration None None = Ok 100 /\
  resolve_duration (Some (Int 3)) (Some 1000) = Ok 333.
Proof.
  split; [|split; [|split; [|split]]].
  - intros n d Hn. rewrite resolve_duration_positive by (apply Z.ltb_lt; exact Hn).
    apply int_truediv_1000_floor. exact Hn.
  - intros x d Hx. rewrite resolve_duration_positive by exact Hx.
    cbn [int_div_number]. change (float_of_int 1000) with (Ok f1000). cbn [bind].
    rewrite float_gt0_not_zero by exact Hx. reflexivity.
  - intros f d Hf. unfold resolve_duration. rewrite Hf. reflexivity.
  - intros d. reflexivity.
  - repeat split; vm_compute; reflexivity.
Qed.

Lemma resolve_duration_truncates_witness :
  resolve_duration (Some (Int 12)) (Some 500) = Ok 83 /\
  resolve_duration (Some (Float fone)) None = int_of_float (fdiv f1000 fone) /\
  resolve_duration (Some (Int 0)) (Some 500) = Ok 500.
Proof.
  destruct resolve_duration_truncates as (Hint & Hfloat & Hnot & _).
  split; [|split].
  - apply (Hint 12 (Some 500)). reflexivity.
  - apply (Hfloat fone None). reflexivity.
  - apply (Hnot (Int 0) (Some 500)). reflexivity.
Defined.

(** The rule of the specification rounds to the nearest millisecond; the
    script cuts.  At fps=6 the quotient is 166.66..: the script uses 166,
    the rule gives 167. *)
Lemma duration_fps6_not_rounded :
  resolve_duration (Some (Int 6)) None = Ok 166 /\
  spec_resolve_duration (Some (Int 6)) None = Ok 167 /\
  resolve_duration (Some (Int 6)) None <> spec_resolve_duration (Some (Int 6)) None.
Proof.
  split; [vm_compute; reflexivity|]. split; [vm_compute; reflexivity|].
  vm_compute. discriminate.
Qed.

(** ** A non-positive fps *)

Lemma number_le0_not_gt0 f : number_le0 f = true -> number_gt0 f = false.
Proof.
  destruct f as [z|x]; cbn [number_le0 number_gt0].
  - intros H. apply Z.leb_le in H. apply Z.ltb_ge. exact H.
  - destruct x as [s|s| |s m e]; try reflexivity; try discriminate;
      destruct s; try reflexivity; discriminate.
Qed.

(** C9. A supplied fps that is not positive is ignored without an error:
    the duration is the explicit duration_ms if given and 100 otherwise,
    and the whole run is the run without fps. *)
Theorem nonpositive_fps_ignored f d :
  number_le0 f = true ->
  resolve_duration (Some f) d = Ok (match d with Some x => x | None => 100 end) /\
  forall W input_dir output_gif size loop t,
    make_gif_from_folder W input_dir output_gif (Some f) d size loop t
      = make_gif_from_folder W input_dir output_gif None d size loop t.
Proof.
  intros Hf. apply number_le0_not_gt0 in Hf.
  assert (Hd : resolve_duration (Some f) d = resolve_duration None d)
    by (unfold resolve_duration; rewrite Hf; reflexivity).
  split; [rewrite Hd; reflexivity|].
  intros W input_dir output_gif size loop t.
  unfold make_gif_from_folder. rewrite Hd. reflexivity.
Qed.

Lemma nonpositive_fps_ignored_witness :
  resolve_duration (Some (Int (-5))) (Some 250) = Ok 250 /\
  resolve_duration (Some (Float (S754_zero true))) None = Ok 100.
Proof.
  split.
  - apply (nonpositive_fps_ignored (Int (-5)) (Some 250)). reflexivity.
  - apply (nonpositive_fps_ignored (Float (S754_zero true)) None). reflexivity.
Defined.

(* ================================================================== *)
(** * natural_sort_key: further properties *)
(* ================================================================== *)

(** ** Letter case *)

Lemma lower_char_decimal c : is_decimal (lower_char c) = is_decimal c.
Proof. destruct c as [[] [] [] [] [] [] [] []]; reflexivity. Qed.

Lemma lower_char_isdigit c : char_isdigit (lower_char c) = char_isdigit c.
Proof. destruct c as [[] [] [] [] [] [] [] []]; reflexivity. Qed.

Lemma lower_char_idem c : lower_char (lower_char c) = lower_char c.
Proof. destruct c as [[] [] [] [] [] [] [] []]; reflexivity. Qed.

Lemma lower_char_fixes_decimal c : is_decimal c = true -> lower_char c = c.
Proof. destruct c as [[] [] [] [] [] [] [] []]; (reflexivity || discriminate). Qed.

Lemma str_lower_idem s : str_lower (str_lower s) = str_lower s.
Proof.
  induction s as [|c s IH]; cbn [str_lower]; [reflexivity|].
  rewrite lower_char_idem, IH. reflexivity.
Qed.

Lemma str_lower_rev : forall s acc,
  str_lower (rev_string acc s) = rev_string (str_lower acc) (str_lower s).
Proof.
  induction s as [|c s IH]; intros acc; cbn [rev_string str_lower]; [reflexivity|].
  rewrite IH. reflexivity.
Qed.

Lemma split_runs_lower : forall s b cur,
  split_runs b (str_lower cur) (str_lower s) = map str_lower (split_runs b cur s).
Proof.
  induction s as [|c s IH]; intros b cur; cbn [str_lower split_runs].
  - destruct b; cbn [map]; rewrite str_lower_rev; reflexivity.
  - rewrite lower_char_decimal. destruct (Bool.eqb (is_decimal c) b).
    + rewrite <- IH. reflexivity.
    + cbn [map]. rewrite str_lower_rev. cbn [str_lower].
      rewrite <- (IH (is_decimal c) (String c EmptyString)). reflexivity.
Qed.

Lemma all_decimal_lower s : all_decimal s = true -> str_lower s = s.
Proof.
  induction s as [|c s IH]; cbn [all_decimal str_lower]; [reflexivity|].
  intros H. apply andb_true_iff in H. destruct H as [Hc Hs].
  rewrite lower_char_fixes_decimal, IH by assumption. reflexivity.
Qed.

Lemma all_decimal_of_lower s : all_decimal (str_lower s) = all_decimal s.
Proof.
  induction s as [|c s IH]; cbn [all_decimal str_lower]; [reflexivity|].
  rewrite lower_char_decimal, IH. reflexivity.
Qed.

Lemma all_isdigit_of_lower s : all_isdigit (str_lower s) = all_isdigit s.
Proof.
  induction s as [|c s IH]; cbn [all_isdigit str_lower]; [reflexivity|].
  rewrite lower_char_isdigit, IH. reflexivity.
Qed.

(** The element of the key a piece gives is the one its lower case gives. *)
Lemma key_elem_lower t :
  (if str_isdigit (str_lower t)
   then (n <- int_of_str (str_lower t) ;; Ok (KInt n))%py
   else Ok (KStr (str_lower (str_lower t))))
  = (if str_isdigit t then (n <- int_of_str t ;; Ok (KInt n))%py
     else Ok (KStr (str_lower t))).
Proof.
  assert (Hd : str_isdigit (str_lower t) = str_isdigit t).
  { destruct t as [|c t]; [reflexivity|].
    unfold str_isdigit. cbn [str_lower].
    change (String (lower_char c) (str_lower t)) with (str_lower (String c t)).
    apply all_isdigit_of_lower. }
  assert (Hi : int_of_str (str_lower t) = int_of_str t).
  { destruct t as [|c t]; [reflexivity|].
    unfold int_of_str. cbn [str_lower].
    change (String (lower_char c) (str_lower t)) with (str_lower (String c t)).
    rewrite all_decimal_of_lower.
    destruct (all_decimal (String c t)) eqn:Hall; [|reflexivity].
    rewrite all_decimal_lower by assumption. reflexivity. }
  rewrite Hd, Hi, str_lower_idem. reflexivity.
Qed.

Lemma map_result_map {A B C : Type} (f : B -> result C) (g : A -> B) : forall l,
  map_result f (map g l) = map_result (fun x => f (g x)) l.
Proof.
  induction l as [|x l IH]; cbn [map map_result]; [reflexivity|].
  rewrite IH. reflexivity.
Qed.

Lemma map_result_ext {A B : Type} (f g : A -> result B) : forall l,
  (forall x, f x = g x) -> map_result f l = map_result g l.
Proof.
  intros l H. induction l as [|x l IH]; cbn [map_result]; [reflexivity|].
  rewrite H, IH. reflexivity.
Qed.

Lemma natural_sort_key_lower s : natural_sort_key (str_lower s) = natural_sort_key s.
Proof.
  unfold natural_sort_key, re_split_digits.
  change EmptyString with (str_lower EmptyString) at 1.
  rewrite split_runs_lower, map_result_map.
  apply map_result_ext. intros t. apply key_elem_lower.
Qed.

(** X1. Two names that differ only in the case of their letters have the same
    key (or both have none), so the sort does not tell them apart. *)
Theorem natural_sort_key_ignores_case s t :
  str_lower s = str_lower t -> natural_sort_key s = natural_sort_key t.
Proof.
  intros H. rewrite <- (natural_sort_key_lower s), H. apply natural_sort_key_lower.
Qed.

Lemma natural_sort_key_ignores_case_witness :
  natural_sort_key "Frame2.PNG" = natural_sort_key "frame2.png".
Proof. apply natural_sort_key_ignores_case. reflexivity. Defined.

(** ** When a name has no key *)

Lemma in_pieces_kind : forall l b t,
  pieces_alternate b l -> In t l -> piece_kind true t \/ piece_kind false t.
Proof.
  induction l as [|x l IH]; intros b t Halt Hin; [contradiction|].
  destruct Halt as [Hx Hl]. destruct Hin as [<-|Hin].
  - destruct b; [left|right]; assumption.
  - eapply IH; eassumption.
Qed.

Lemma superscript_not_decimal c : is_superscript c = true -> is_decimal c = false.
Proof. destruct c as [[] [] [] [] [] [] [] []]; (reflexivity || discriminate). Qed.

Lemma all_superscript_isdigit t : all_superscript t = true -> all_isdigit t = true.
Proof.
  induction t as [|c t IH]; cbn [all_superscript all_isdigit]; [reflexivity|].
  intros H. apply andb_true_iff in H. destruct H as [Hc Ht].
  unfold char_isdigit. rewrite Hc, orb_true_r, IH by assumption. reflexivity.
Qed.

Lemma text_isdigit_superscript t :
  no_decimal t = true -> all_isdigit t = true -> all_superscript t = true.
Proof.
  induction t as [|c t IH]; cbn [no_decimal all_isdigit all_superscript]; [reflexivity|].
  intros Hno Hall.
  apply andb_true_iff in Hno. destruct Hno as [Hc Hno].
  apply andb_true_iff in Hall. destruct Hall as [Hd Hall].
  unfold char_isdigit in Hd. apply negb_true_iff in Hc. rewrite Hc in Hd.
  cbn [orb] in Hd. rewrite Hd, IH by assumption. reflexivity.
Qed.

(** The element a piece gives: an integer for a digit run, a string for a
    text piece, and nothing for a text piece made of superscripts. *)
Lemma key_elem_of_piece t :
  piece_kind true t \/ piece_kind false t ->
  (t <> EmptyString /\ all_superscript t = true /\
   (if str_isdigit t then (n <- int_of_str t ;; Ok (KInt n))%py
    else Ok (KStr (str_lower t))) = Raise (ValueError invalid_literal_msg)) \/
  (~ (t <> EmptyString /\ all_superscript t = true) /\
   exists e,
     (if str_isdigit t then (n <- int_of_str t ;; Ok (KInt n))%py
      else Ok (KStr (str_lower t))) = Ok e).
Proof.
  intros [Hrun|Htext].
  - right. destruct (key_elem_of_run t Hrun) as [-> ->]. cbn [bind].
    split; [|eexists; reflexivity].
    intros [_ Hsup]. destruct Hrun as [Hne Hall].
    destruct t as [|c t]; [contradiction|].
    cbn [all_superscript all_decimal] in *.
    apply andb_true_iff in Hsup. destruct Hsup as [Hc _].
    apply superscript_not_decimal in Hc. rewrite Hc in Hall. discriminate.
  - destruct (str_isdigit t) eqn:Hd.
    + left. rewrite (key_elem_of_text t Htext Hd).
      destruct t as [|c t]; [discriminate|].
      split; [discriminate|]. split; [|reflexivity].
      apply text_isdigit_superscript; assumption.
    + right. split; [|eexists; reflexivity].
      intros [Hne Hsup]. destruct t as [|c t]; [contradiction|].
      unfold str_isdigit in Hd. rewrite all_superscript_isdigit in Hd by assumption.
      discriminate.
Qed.

Lemma map_result_raise {A B : Type} (f : A -> result B) (e : exn) : forall l,
  (forall x, In x l -> (exists y, f x = Ok y) \/ f x = Raise e) ->
  (exists x, In x l /\ f x = Raise e) ->
  map_result f l = Raise e.
Proof.
  induction l as [|x l IH]; intros Hall (b & Hin & Hb); [contradiction|].
  cbn [map_result].
  destruct (f x) as [y|e'] eqn:Hfx; cbn [bind].
  - destruct Hin as [<-|Hin]; [congruence|].
    rewrite IH; [reflexivity| |exists b; auto].
    intros z Hz. apply Hall. right. assumption.
  - destruct (Hall x (or_introl eq_refl)) as [(y & Hy)|Hy]; congruence.
Qed.

Lemma map_result_ok_in {A B : Type} (f : A -> result B) : forall l ys,
  map_result f l = Ok ys -> forall x, In x l -> exists y, f x = Ok y.
Proof.
  induction l as [|a l IH]; intros ys Hm x Hin; [contradiction|].
  cbn [map_result] in Hm.
  destruct (f a) as [y|] eqn:Hfa; [|discriminate]. cbn [bind] in Hm.
  destruct (map_result f l) as [ys'|] eqn:Hl; [|discriminate].
  destruct Hin as [<-|Hin]; [eauto|]. eapply IH; [reflexivity|assumption].
Qed.

Lemma superscript_piece_dec (l : list string) :
  (exists t, In t l /\ t <> EmptyString /\ all_superscript t = true) \/
  ~ (exists t, In t l /\ t <> EmptyString /\ all_superscript t = true).
Proof.
  induction l as [|x l IH].
  - right. intros (t & [] & _).
  - assert (Hx : (x <> EmptyString /\ all_superscript x = true) \/
                 ~ (x <> EmptyString /\ all_superscript x = true)).
    { destruct x as [|c x]; [right; intros [H _]; apply H; reflexivity|].
      destruct (all_superscript (String c x)); [left; split; [discriminate|reflexivity]|].
      right. intros [_ H]. discriminate. }
    destruct Hx as [Hx|Hx]; [left; exists x; cbn; tauto|].
    destruct IH as [(t & Hin & Ht)|IH].
    + left. exists t. cbn. tauto.
    + right. intros (t & [<-|Hin] & Ht); [tauto|]. apply IH. exists t. tauto.
Qed.

Lemma natural_sort_key_raises_if s :
  (exists t, In t (re_split_digits s) /\ t <> EmptyString /\ all_superscript t = true) ->
  natural_sort_key s = Raise (ValueError invalid_literal_msg).
Proof.
  assert (Hpiece : forall t, In t (re_split_digits s) ->
            piece_kind true t \/ piece_kind false t).
  { intros t Hin. eapply in_pieces_kind; [|eassumption].
    apply split_runs_alternate. reflexivity. }
  intros (t & Hin & Hne & Hsup). unfold natural_sort_key.
  apply map_result_raise.
  - intros x Hx.
    destruct (key_elem_of_piece x (Hpiece x Hx)) as [(_ & _ & ->)|(_ & e & ->)];
      [right; reflexivity|left; eexists; reflexivity].
  - exists t. split; [assumption|].
    destruct (key_elem_of_piece t (Hpiece t Hin)) as [(_ & _ & ->)|(Hnot & _)];
      [reflexivity|]. exfalso. apply Hnot. split; assumption.
Qed.

Lemma natural_sort_key_returns_if s :
  ~ (exists t, In t (re_split_digits s) /\ t <> EmptyString /\ all_superscript t = true) ->
  exists k, natural_sort_key s = Ok k.
Proof.
  assert (Hpiece : forall t, In t (re_split_digits s) ->
            piece_kind true t \/ piece_kind false t).
  { intros t Hin. eapply in_pieces_kind; [|eassumption].
    apply split_runs_alternate. reflexivity. }
  intros Hnone. unfold natural_sort_key.
  match goal with
  | |- exists k, map_result ?f ?l = Ok k =>
      destruct (map_result_ok f l) as (k & Hk & _); [|exists k; exact Hk]
  end.
  apply Forall_forall. intros t Hin.
  destruct (key_elem_of_piece t (Hpiece t Hin)) as [(Hne & Hsup & _)|(_ & e & ->)];
    [|eexists; reflexivity].
  exfalso. apply Hnone. exists t. auto.
Qed.

Lemma natural_sort_key_fails_dichotomy s :
  (exists k, natural_sort_key s = Ok k) \/
  natural_sort_key s = Raise (ValueError invalid_literal_msg).
Proof.
  destruct (superscript_piece_dec (re_split_digits s)) as [H|H].
  - right. apply natural_sort_key_raises_if. assumption.
  - left. apply natural_sort_key_returns_if. assumption.
Qed.


(** ** Digit runs compare by value *)

Lemma rev_string_rev : forall s a b,
  rev_string a (rev_string b s) = rev_string (s ++ a) b.
Proof.
  induction s as [|c s IH]; intros a b; cbn [rev_string append]; [reflexivity|].
  rewrite IH. reflexivity.
Qed.

Lemma split_runs_text : forall p cur rest,
  no_decimal p = true ->
  split_runs false cur (p ++ rest) = split_runs false (rev_string cur p) rest.
Proof.
  induction p as [|c p IH]; intros cur rest Hp; cbn [append rev_string]; [reflexivity|].
  cbn [no_decimal] in Hp. apply andb_true_iff in Hp. destruct Hp as [Hc Hp].
  apply negb_true_iff in Hc. cbn [split_runs]. rewrite Hc. cbn [Bool.eqb].
  apply IH. assumption.
Qed.

Lemma split_runs_run : forall d cur rest,
  all_decimal d = true ->
  split_runs true cur (d ++ rest) = split_runs true (rev_string cur d) rest.
Proof.
  induction d as [|c d IH]; intros cur rest Hd; cbn [append rev_string]; [reflexivity|].
  cbn [all_decimal] in Hd. apply andb_true_iff in Hd. destruct Hd as [Hc Hd].
  cbn [split_runs]. rewrite Hc. cbn [Bool.eqb].
  apply IH. assumption.
Qed.

(** A name that begins with text, then a digit run, then something that
    is no digit: the first two pieces are that text and that run. *)
Lemma re_split_digits_prefix p d q :
  no_decimal p = true -> d <> EmptyString -> all_decimal d = true ->
  starts_plain q = true ->
  exists tail, re_split_digits (p ++ d ++ q) = p :: d :: tail.
Proof.
  intros Hp Hne Hd Hq. unfold re_split_digits.
  rewrite split_runs_text by assumption.
  destruct d as [|c d]; [contradiction|].
  cbn [all_decimal] in Hd. apply andb_true_iff in Hd. destruct Hd as [Hc Hd].
  cbn [append split_runs]. rewrite Hc. cbn [Bool.eqb].
  rewrite rev_string_rev. cbn [rev_string]. rewrite split_runs_run by assumption.
  assert (Hrun : rev_string EmptyString (rev_string (String c EmptyString) d)
                 = String c d).
  { rewrite rev_string_rev. cbn [rev_string].
    clear. induction d as [|x d IH]; cbn [append]; [reflexivity|].
    injection IH as IH. rewrite IH. reflexivity. }
  assert (Hp' : (p ++ EmptyString)%string = p).
  { clear. induction p as [|x p IH]; cbn [append]; [reflexivity|].
    rewrite IH. reflexivity. }
  rewrite Hp'.
  destruct q as [|x q]; cbn [split_runs].
  - rewrite Hrun. eexists. reflexivity.
  - cbn [starts_plain] in Hq. apply negb_true_iff in Hq. rewrite Hq. cbn [Bool.eqb].
    rewrite Hrun. eexists. reflexivity.
Qed.

(** X3. Of two names with the same text before their first digit run, the one
    whose run spells the smaller integer has the smaller key, whatever the
    number of digits and whatever follows the run: frame2 comes before
    frame10. *)
Theorem natural_sort_key_numeric_order p d1 q1 d2 q2 k1 k2 :
  no_decimal p = true ->
  d1 <> EmptyString -> all_decimal d1 = true -> starts_plain q1 = true ->
  d2 <> EmptyString -> all_decimal d2 = true -> starts_plain q2 = true ->
  int_of_digits 0 d1 < int_of_digits 0 d2 ->
  natural_sort_key (p ++ d1 ++ q1) = Ok k1 ->
  natural_sort_key (p ++ d2 ++ q2) = Ok k2 ->
  tokens_lt k1 k2.
Proof.
  intros Hp Hn1 Hd1 Hq1 Hn2 Hd2 Hq2 Hlt Hk1 Hk2.
  destruct (re_split_digits_prefix p d1 q1 Hp Hn1 Hd1 Hq1) as (tail1 & Hs1).
  destruct (re_split_digits_prefix p d2 q2 Hp Hn2 Hd2 Hq2) as (tail2 & Hs2).
  unfold natural_sort_key in Hk1, Hk2. rewrite Hs1 in Hk1. rewrite Hs2 in Hk2.
  cbn [map_result] in Hk1, Hk2.
  destruct (key_elem_of_run d1 (conj Hn1 Hd1)) as [Hi1 Hv1].
  destruct (key_elem_of_run d2 (conj Hn2 Hd2)) as [Hi2 Hv2].
  rewrite Hi1, Hv1 in Hk1. rewrite Hi2, Hv2 in Hk2.
  destruct (if str_isdigit p then (n <- int_of_str p ;; Ok (KInt n))%py
            else Ok (KStr (str_lower p))) as [e|]; [|discriminate].
  cbn [bind] in Hk1, Hk2.
  destruct (map_result _ tail1) as [r1|]; [|discriminate].
  destruct (map_result _ tail2) as [r2|]; [|discriminate].
  cbn [bind] in Hk1, Hk2. injection Hk1 as <-. injection Hk2 as <-.
  apply tokens_lt_tail. apply tokens_lt_head. constructor. assumption.
Qed.

Lemma natural_sort_key_numeric_order_witness :
  exists k1 k2,
    natural_sort_key "frame2.png" = Ok k1 /\
    natural_sort_key "frame10.png" = Ok k2 /\
    tokens_lt k1 k2.
Proof.
  eexists _, _. split; [vm_compute; reflexivity|]. split; [vm_compute; reflexivity|].
  apply (natural_sort_key_numeric_order "frame" "2" ".png" "10" ".png");
    try reflexivity; try discriminate.
Defined.
(* ================================================================== *)
(** * collect_image_paths: further properties *)
(* ================================================================== *)

Lemma collect_image_paths_run W input_dir patterns t :
  Forall (fun p => no_superscript p = true)
    (List.concat (map (fun pat => glob W (path_join input_dir pat)) patterns)) ->
  exists paths,
    collect_image_paths W input_dir patterns t
      = (Ok paths,
         (t ++ map (fun pat => EvGlob (path_join input_dir pat)) patterns)%list) /\
    Permutation
      (List.concat (map (fun pat => glob W (path_join input_dir pat)) patterns)) paths /\
    StronglySorted natural_le paths.
Proof.
  intros Hplain.
  unfold collect_image_paths, bindIO. rewrite glob_all_run. cbn [app]. unfold lift.
  destruct (sorted_natural
              (List.concat (map (fun pat => glob W (path_join input_dir pat)) patterns)))
    as (paths & -> & Hperm & Hsorted).
  { eapply Forall_impl; [|exact Hplain]. intros p. apply natural_sort_key_plain. }
  exists paths. repeat split; assumption.
Qed.



(** ** Ties keep the order of the directory scan *)

Section SortedStable.
Context {A : Type} (key : A -> list key_elem) (P : A -> bool).

Lemma insert_by_key_keeps x : forall l l',
  (forall a b, In a (x :: l) -> In b (x :: l) ->
               P a = true -> P b = true -> key a = key b) ->
  key_shape true (key x) -> Forall (fun a => key_shape true (key a)) l ->
  insert_by_key key x l = Ok l' -> filter P l' = filter P (x :: l).
Proof.
  induction l as [|y l IH]; intros l' Hclass Hx Hl Hins; cbn [insert_by_key] in Hins.
  - injection Hins as <-. reflexivity.
  - inversion Hl as [|? ? Hy Hl']; subst.
    destruct (key_ltb_shape (key y) (key x) true Hy Hx)
      as [[Hk Hlt]|[Hk Hge]]; rewrite Hk in Hins; cbn [bind] in Hins.
    + destruct (insert_by_key key x l) as [r|] eqn:Hr; [|discriminate].
      cbn [bind] in Hins. injection Hins as <-.
      assert (IH' : filter P r = filter P (x :: l)).
      { apply IH; try assumption; [|reflexivity].
        intros a b Ha Hb. apply Hclass.
        - destruct Ha as [<-|Ha]; [left; reflexivity|right; right; assumption].
        - destruct Hb as [<-|Hb]; [left; reflexivity|right; right; assumption]. }
      cbn [filter] in *. rewrite IH'.
      destruct (P x) eqn:Hpx, (P y) eqn:Hpy; try reflexivity.
      exfalso.
      rewrite (Hclass y x (or_intror (or_introl eq_refl)) (or_introl eq_refl) Hpy Hpx)
        in Hlt.
      eapply tokens_lt_irrefl. eassumption.
    + injection Hins as <-. reflexivity.
Qed.

Lemma sorted_by_key_keeps : forall l l',
  (forall a b, In a l -> In b l -> P a = true -> P b = true -> key a = key b) ->
  Forall (fun a => key_shape true (key a)) l ->
  sorted_by_key key l = Ok l' -> filter P l' = filter P l.
Proof.
  induction l as [|x l IH]; intros l' Hclass Hl Hs; cbn [sorted_by_key] in Hs.
  - injection Hs as <-. reflexivity.
  - inversion Hl as [|? ? Hx Hl']; subst.
    destruct (sorted_by_key_sorted key l Hl') as (r & Hr & Hperm & _).
    rewrite Hr in Hs. cbn [bind] in Hs.
    assert (Hshr : Forall (fun a => key_shape true (key a)) r)
      by (eapply Permutation_Forall; eassumption).
    assert (Hin : forall a, In a (x :: r) -> In a (x :: l)).
    { intros a [<-|Ha]; [left; reflexivity|right].
      eapply Permutation_in; [apply Permutation_sym; exact Hperm|assumption]. }
    rewrite (insert_by_key_keeps x r l'); try assumption.
    + cbn [filter]. rewrite (IH r); try assumption; [reflexivity|].
      intros a b Ha Hb. apply Hclass; right; assumption.
    + intros a b Ha Hb. apply Hclass; apply Hin; assumption.
Qed.

End SortedStable.

Lemma filter_map_snd {A B : Type} (P : B -> bool) : forall l : list (A * B),
  filter P (map snd l) = map snd (filter (fun d => P (snd d)) l).
Proof.
  induction l as [|d l IH]; cbn [map filter]; [reflexivity|].
  destruct (P (snd d)); cbn [map]; rewrite IH; reflexivity.
Qed.

Lemma in_decorated {A B : Type} (f : A -> result B) : forall l ys d,
  Forall2 (fun x y => f x = Ok y) l ys ->
  In d (combine ys l) -> f (snd d) = Ok (fst d).
Proof.
  intros l ys d Hall Hin.
  destruct (combine_decorated f l ys Hall) as [_ Hdec].
  rewrite Forall_forall in Hdec. apply Hdec. assumption.
Qed.

Lemma sorted_keeps_ties (P : string -> bool) paths out :
  (forall a b, In a paths -> In b paths -> P a = true -> P b = true ->
               natural_sort_key a = natural_sort_key b) ->
  sorted natural_sort_key paths = Ok out ->
  filter P out = filter P paths.
Proof.
  intros Hclass Hsorted. unfold sorted in Hsorted.
  destruct (map_result natural_sort_key paths) as [keys|] eqn:Hkeys; [|discriminate].
  cbn [bind] in Hsorted.
  destruct (sorted_by_key fst (combine keys paths)) as [decorated|] eqn:Hdec;
    [|discriminate].
  cbn [bind] in Hsorted. injection Hsorted as <-.
  destruct (map_result_ok natural_sort_key paths) as (keys' & Hkeys' & Hall).
  { apply Forall_forall. intros p Hp. eapply map_result_ok_in; eassumption. }
  rewrite Hkeys in Hkeys'. injection Hkeys' as <-.
  destruct (combine_decorated natural_sort_key paths keys Hall) as [Hsnd Hinv].
  rewrite filter_map_snd.
  rewrite (sorted_by_key_keeps fst (fun d => P (snd d)) (combine keys paths) decorated).
  - rewrite <- filter_map_snd, Hsnd. reflexivity.
  - intros a b Ha Hb Hpa Hpb.
    pose proof (in_decorated natural_sort_key paths keys a Hall Ha) as Hka.
    pose proof (in_decorated natural_sort_key paths keys b Hall Hb) as Hkb.
    assert (Hina : In (snd a) paths).
    { rewrite <- Hsnd. apply in_map. assumption. }
    assert (Hinb : In (snd b) paths).
    { rewrite <- Hsnd. apply in_map. assumption. }
    pose proof (Hclass (snd a) (snd b) Hina Hinb Hpa Hpb) as Heq.
    rewrite Hka, Hkb in Heq. injection Heq as Heq. exact Heq.
  - eapply Forall_impl; [|exact Hinv]. intros d Hd.
    eapply natural_sort_key_shape. exact Hd.
  - assumption.
Qed.

(** X5. The sort is stable: among the returned paths, those of any class of
    names that have one and the same key (names that differ only in letter
    case, or in leading zeros) stand in the order in which the directory
    scans produced them. *)
Theorem collect_image_paths_stable W input_dir patterns t (P : string -> bool) paths t' :
  (forall a b, P a = true -> P b = true -> natural_sort_key a = natural_sort_key b) ->
  collect_image_paths W input_dir patterns t = (Ok paths, t') ->
  filter P paths
    = filter P (List.concat (map (fun pat => glob W (path_join input_dir pat)) patterns)).
Proof.
  intros Hclass Hrun.
  unfold collect_image_paths, bindIO in Hrun. rewrite glob_all_run in Hrun.
  cbn [app] in Hrun. unfold lift in Hrun.
  destruct (sorted natural_sort_key _) as [out|] eqn:Hsorted; [|discriminate].
  injection Hrun as <- _.
  eapply sorted_keeps_ties; [|exact Hsorted].
  intros a b _ _. apply Hclass.
Qed.
Lemma collect_image_paths_stable_witness :
  let P := fun s => String.eqb (str_lower s) "frames/img1.png" in
  exists paths,
    fst (collect_image_paths Samples.mixed_case_world "frames" default_patterns [])
      = Ok paths /\
    filter P paths = ["frames/IMG1.png"; "frames/img1.png"]%string.
Proof.
  intros P.
  assert (Hclass : forall a b, P a = true -> P b = true ->
                     natural_sort_key a = natural_sort_key b).
  { intros a b Ha Hb. apply String.eqb_eq in Ha, Hb.
    rewrite <- (natural_sort_key_lower a), <- (natural_sort_key_lower b), Ha, Hb.
    reflexivity. }
  destruct (collect_image_paths Samples.mixed_case_world "frames" default_patterns [])
    as [r t'] eqn:Hrun.
  assert (Hr : r = Ok ["frames/a.png"; "frames/b.png"; "frames/IMG1.png";
                       "frames/img1.png"]%string).
  { vm_compute in Hrun. injection Hrun as <- _. reflexivity. }
  subst r. eexists. split; [reflexivity|].
  rewrite (collect_image_paths_stable _ _ _ _ P _ _ Hclass Hrun).
  vm_compute. reflexivity.
Defined.

(** ** One name without a key *)

Lemma sorted_raises {A : Type} (key : A -> result (list key_elem)) (e : exn) l :
  map_result key l = Raise e -> sorted key l = Raise e.
Proof. intros H. unfold sorted. rewrite H. reflexivity. Qed.

(** X6. The keys are all computed before anything is compared.  If a single
    matched path has no key, collect_image_paths raises the ValueError of
    [int] and returns no path at all, wherever that path stands and
    whatever the other names are; the directory scans have all been made
    by then. *)
Theorem collect_image_paths_one_bad_name W input_dir patterns t bad :
  In bad (List.concat (map (fun pat => glob W (path_join input_dir pat)) patterns)) ->
  natural_sort_key bad = Raise (ValueError invalid_literal_msg) ->
  collect_image_paths W input_dir patterns t
    = (Raise (ValueError invalid_literal_msg),
       (t ++ map (fun pat => EvGlob (path_join input_dir pat)) patterns)%list).
Proof.
  intros Hin Hbad.
  unfold collect_image_paths, bindIO. rewrite glob_all_run. cbn [app]. unfold lift.
  rewrite (sorted_raises natural_sort_key (ValueError invalid_literal_msg));
    [reflexivity|].
  apply map_result_raise.
  - intros p _. destruct (natural_sort_key_fails_dichotomy p) as [Hok|Hr];
      [left; assumption|right; assumption].
  - exists bad. split; assumption.
Qed.
Lemma collect_image_paths_one_bad_name_witness :
  collect_image_paths Samples.squared_world "frames" default_patterns []
    = (Raise (ValueError invalid_literal_msg),
       map (fun pat => EvGlob (path_join "frames" pat)) default_patterns).
Proof.
  apply (collect_image_paths_one_bad_name Samples.squared_world "frames"
           default_patterns [] Samples.squared_name).
  - vm_compute. left. reflexivity.
  - vm_compute. reflexivity.
Defined.

(* ================================================================== *)
(** * fit_to_canvas: further properties *)
(* ================================================================== *)

(** ** Without keeping the aspect ratio *)



(** ** What the letterboxed output shows *)



(** ** Centring *)

(** X9. The resized image is centred up to one pixel: on each axis the margin
    after it is the margin before it or one pixel more, so an odd
    remainder goes to the right and to the bottom. *)
Theorem fit_geometry_centred w h cw ch :
  0 < w <= 2 ^ 50 -> 0 < h <= 2 ^ 50 -> 0 < cw <= 2 ^ 50 -> 0 < ch <= 2 ^ 50 ->
  exists new_w new_h ox oy,
    fit_geometry (w, h) (cw, ch) = Ok (new_w, new_h, (ox, oy)) /\
    0 <= ox /\ 0 <= oy /\
    ox <= cw - new_w - ox <= ox + 1 /\
    oy <= ch - new_h - oy <= oy + 1.
Proof.
  intros Hw Hh Hcw Hch.
  destruct (fit_geometry_within w h cw ch Hw Hh Hcw Hch) as (nw & nh & Hg & Hnw & Hnh).
  exists nw, nh, ((cw - nw) / 2), ((ch - nh) / 2).
  split; [assumption|].
  pose proof (Z.div_mod (cw - nw) 2 ltac:(lia)).
  pose proof (Z.mod_pos_bound (cw - nw) 2 ltac:(lia)).
  pose proof (Z.div_mod (ch - nh) 2 ltac:(lia)).
  pose proof (Z.mod_pos_bound (ch - nh) 2 ltac:(lia)).
  assert (0 <= (cw - nw) / 2) by (apply Z.div_pos; lia).
  assert (0 <= (ch - nh) / 2) by (apply Z.div_pos; lia).
  lia.
Qed.

Lemma fit_geometry_centred_witness :
  exists new_w new_h ox oy,
    fit_geometry (80, 40) (60, 65) = Ok (new_w, new_h, (ox, oy)) /\
    0 <= ox /\ 0 <= oy /\
    ox <= 60 - new_w - ox <= ox + 1 /\
    oy <= 65 - new_h - oy <= oy + 1.
Proof.
  apply (fit_geometry_centred 80 40 60 65);
    vm_compute; split; (reflexivity || discriminate).
Defined.
(** ** A canvas with a zero dimension *)





(** ** An image without pixels *)


(** ** The image fills the canvas along one axis *)

(** The product of a dimension with its own ratio, cut to an integer, is
    at most one pixel short of the canvas. *)
Lemma scaled_dim_ge dim canvas scale p t :
  0 < dim < 2 ^ 53 -> 0 < canvas <= 2 ^ 50 ->
  pos_normal scale -> -106 <= expo scale <= 1 ->
  (IZR canvas * (1 - ulp_rel) * (1 - ulp_rel) <= val scale * IZR dim)%R ->
  int_mul_float dim scale = Ok p -> int_of_float p = Ok t ->
  canvas - 1 <= t.
Proof.
  intros Hdim Hcanvas Hs He Hratio Hp Ht.
  destruct (float_of_int_small dim Hdim) as (fd & Hfd & Hfdn & Hfdv & Hfde).
  unfold int_mul_float in Hp. rewrite Hfd in Hp. cbn [bind] in Hp. injection Hp as <-.
  pose proof (fmul_lower fd scale Hfdn Hs ltac:(lia)) as Hlow.
  destruct (fmul_pos_normal fd scale Hfdn Hs ltac:(lia)) as [Hpn _].
  destruct (int_of_float_pos _ Hpn) as (t' & Ht' & _ & _ & Hth).
  rewrite Ht in Ht'. injection Ht' as <-.
  rewrite Hfdv in Hlow.
  assert (Hc : (IZR canvas <= 1125899906842624)%R).
  { change 1125899906842624%R with (IZR (2 ^ 50)). apply IZR_le. lia. }
  assert (Hc0 : (0 < IZR canvas)%R) by (apply IZR_lt; lia).
  assert (Hu : (0 < 1 - ulp_rel)%R) by (rewrite ulp_rel_eq; lra).
  assert (H1 : (IZR canvas * (1 - ulp_rel) * (1 - ulp_rel) * (1 - ulp_rel)
                <= val (fmul fd scale))%R).
  { apply Rle_trans with (IZR dim * val scale * (1 - ulp_rel))%R; [|lra].
    apply Rmult_le_compat_r; lra. }
  assert (H2 : (IZR canvas - 1 < IZR t + 1)%R).
  { rewrite ulp_rel_eq in H1. nra. }
  rewrite <- minus_IZR, <- plus_IZR in H2. apply lt_IZR in H2. lia.
Qed.

(** X12. The letterbox is tight: along at least one axis the resized image is
    as long as the canvas or one pixel shorter.  (One pixel shorter
    happens: the two roundings of lines 24 and 25 can bring the product
    just below the canvas dimension, and [int] cuts.) *)
Theorem fit_geometry_fills_one_axis w h cw ch :
  0 < w <= 2 ^ 50 -> 0 < h <= 2 ^ 50 -> 0 < cw <= 2 ^ 50 -> 0 < ch <= 2 ^ 50 ->
  exists new_w new_h offset,
    fit_geometry (w, h) (cw, ch) = Ok (new_w, new_h, offset) /\
    1 <= new_w <= cw /\ 1 <= new_h <= ch /\
    (cw - 1 <= new_w \/ ch - 1 <= new_h).
Proof.
  intros Hw Hh Hcw Hch.
  assert (H50 : 2 ^ 50 < 2 ^ 53) by reflexivity.
  assert (H1000 : 2 ^ 50 < 2 ^ 1000) by reflexivity.
  destruct (fit_geometry_within w h cw ch Hw Hh Hcw Hch) as (nw & nh & Hg & Hnw & Hnh).
  exists nw, nh, ((cw - nw) / 2, (ch - nh) / 2).
  split; [assumption|]. split; [assumption|]. split; [assumption|].
  destruct (int_truediv_small cw w ltac:(lia) ltac:(lia)) as (rw & Hrw & Hrwn & Hrwe & _).
  destruct (int_truediv_small ch h ltac:(lia) ltac:(lia)) as (rh & Hrh & Hrhn & Hrhe & _).
  pose proof (int_truediv_lower cw w rw ltac:(lia) ltac:(lia) Hrw) as Hlw.
  pose proof (int_truediv_lower ch h rh ltac:(lia) ltac:(lia) Hrh) as Hlh.
  destruct (min_float_pos_normal rw rh Hrwn Hrhn) as (Hsn & Hsel & _ & _).
  assert (Hdw : Zdigits2 w <= 53) by (apply Zdigits2_le; lia).
  assert (Hdh : Zdigits2 h <= 53) by (apply Zdigits2_le; lia).
  unfold fit_geometry in Hg. rewrite Hrw in Hg. cbn [bind] in Hg.
  rewrite Hrh in Hg. cbn [bind] in Hg.
  destruct (int_mul_float w (min_float rw rh)) as [pw|] eqn:Hpw; [|discriminate].
  cbn [bind] in Hg.
  destruct (int_of_float pw) as [iw|] eqn:Hiw; [|discriminate]. cbn [bind] in Hg.
  destruct (int_mul_float h (min_float rw rh)) as [ph|] eqn:Hph; [|discriminate].
  cbn [bind] in Hg.
  destruct (int_of_float ph) as [ih|] eqn:Hih; [|discriminate]. cbn [bind] in Hg.
  injection Hg as <- <-. rewrite !max_int_1.
  destruct Hsel as [Hs|Hs]; rewrite Hs in *.
  - left.
    pose proof (scaled_dim_ge w cw rw pw iw ltac:(lia) Hcw Hrwn ltac:(lia) Hlw Hpw Hiw).
    lia.
  - right.
    pose proof (scaled_dim_ge h ch rh ph ih ltac:(lia) Hch Hrhn ltac:(lia) Hlh Hph Hih).
    lia.
Qed.

Lemma fit_geometry_fills_one_axis_witness :
  exists new_w new_h offset,
    fit_geometry (98, 98) (2, 2) = Ok (new_w, new_h, offset) /\
    1 <= new_w <= 2 /\ 1 <= new_h <= 2 /\
    (2 - 1 <= new_w \/ 2 - 1 <= new_h).
Proof.
  apply (fit_geometry_fills_one_axis 98 98 2 2);
    vm_compute; split; (reflexivity || discriminate).
Defined.
(** ** The aspect ratio *)

(** A resized dimension [t] times the dimension [d] it came from, against
    the cross product [n] of the exact rule. *)
Lemma cross_product_bounds n d t :
  0 < d -> 1 <= n -> 1 <= t ->
  Z.max 1 (n / d) - 1 <= t <= Z.max 1 (n / d) ->
  (n mod d <> 0 -> t = Z.max 1 (n / d)) ->
  Z.max d (n - d) <= t * d <= Z.max d n.
Proof.
  intros Hd Hn Ht Hb He.
  pose proof (Z.div_mod n d ltac:(lia)) as Hdm.
  pose proof (Z.mod_pos_bound n d ltac:(lia)) as Hmod.
  assert (Hq : 0 <= n / d) by (apply Z.div_pos; lia).
  set (q := n / d) in *. set (r := n mod d) in *.
  destruct (Z_le_gt_dec 1 q) as [Hq1|Hq0].
  - rewrite Z.max_r in Hb, He by lia.
    assert (Hup : t * d <= q * d) by (apply Z.mul_le_mono_nonneg_r; lia).
    assert (Hone : 1 * d <= t * d) by (apply Z.mul_le_mono_nonneg_r; lia).
    assert (Hlow : (q - 1) * d <= t * d) by (apply Z.mul_le_mono_nonneg_r; lia).
    assert (Hqd : q * d = n - r) by lia.
    assert (Hq1d : (q - 1) * d = n - r - d) by lia.
    destruct (Z.eq_dec r 0) as [E0|Ne].
    + lia.
    + rewrite (He Ne). lia.
  - assert (q = 0) by lia.
    rewrite Z.max_l in Hb by lia.
    assert (t = 1) by lia. subst t. lia.
Qed.

(** X13. The aspect ratio is kept up to the cut to whole pixels: the resized
    width times the image height and the resized height times the image
    width differ by less than the sum of the image dimensions, that is,
    the two dimensions are scaled by the same factor with an error below
    one pixel each. *)
Theorem fit_geometry_keeps_aspect w h cw ch :
  0 < w <= 2 ^ 25 -> 0 < h <= 2 ^ 25 -> 0 < cw <= 2 ^ 25 -> 0 < ch <= 2 ^ 25 ->
  exists new_w new_h offset,
    fit_geometry (w, h) (cw, ch) = Ok (new_w, new_h, offset) /\
    Z.abs (new_w * h - new_h * w) < w + h.
Proof.
  intros Hw Hh Hcw Hch.
  destruct (fit_geometry_near_exact_rule w h cw ch Hw Hh Hcw Hch)
    as (nw & nh & Hg & Hw1 & Hwb & Hh1 & Hhb & Hwe & Hhe).
  exists nw, nh, ((cw - nw) / 2, (ch - nh) / 2). split; [assumption|].
  set (n := Z.min (cw * h) (ch * w)) in *.
  assert (Hn : 1 <= n).
  { unfold n. apply Z.min_glb.
    - change 1 with (1 * 1). apply Z.mul_le_mono_nonneg; lia.
    - change 1 with (1 * 1). apply Z.mul_le_mono_nonneg; lia. }
  pose proof (cross_product_bounds n h nw ltac:(lia) Hn Hw1 Hwb Hwe) as Hnw.
  pose proof (cross_product_bounds n w nh ltac:(lia) Hn Hh1 Hhb Hhe) as Hnh.
  clearbody n. clear - Hnw Hnh Hw Hh. lia.
Qed.

Lemma fit_geometry_keeps_aspect_witness :
  exists new_w new_h offset,
    fit_geometry (1920, 1080) (352, 371) = Ok (new_w, new_h, offset) /\
    Z.abs (new_w * 1080 - new_h * 1920) < 1920 + 1080.
Proof.
  apply (fit_geometry_keeps_aspect 1920 1080 352 371);
    vm_compute; split; (reflexivity || discriminate).
Defined.
(* ================================================================== *)
(** * load_frames: further properties *)
(* ================================================================== *)

Lemma load_loop_run W target canvas : forall paths i acc t,
  0 < i ->
  Forall (fits_canvas W (Some canvas)) paths ->
  exists frames,
    load_loop W target i paths acc (Some canvas) t
      = (Ok frames, (t ++ map EvOpen paths)%list).
Proof.
  induction paths as [|p rest IH]; intros i acc t Hi Hall.
  - cbn. unfold ret. rewrite app_nil_r. eexists. reflexivity.
  - inversion Hall as [|? ? (img & out & Hdec & Hout) Hrest]; subst.
    cbn [load_loop]. unfold bindIO, image_open, emit. unfold bindIO at 1.
    rewrite Hdec. unfold ret, lift.
    destruct (Z.eqb_spec i 0); [lia|]. rewrite Hout.
    destruct (IH (i + 1) (acc ++ [out])%list (t ++ [EvOpen p])%list ltac:(lia) Hrest)
      as (frames & ->).
    exists frames. cbn [map]. rewrite <- app_assoc. reflexivity.
Qed.

Lemma load_loop_stops W target canvas bad rest : forall good i acc t,
  0 < i ->
  Forall (fits_canvas W (Some canvas)) good ->
  decode W bad = None ->
  load_loop W target i (good ++ bad :: rest) acc (Some canvas) t
    = (Raise (UnidentifiedImageError bad),
       (t ++ map EvOpen good ++ [EvOpen bad])%list).
Proof.
  induction good as [|p good IH]; intros i acc t Hi Hgood Hbad.
  - cbn [app load_loop map]. unfold bindIO, image_open, emit. unfold bindIO at 1.
    rewrite Hbad. reflexivity.
  - inversion Hgood as [|? ? (img & out & Hdec & Hout) Hrest]; subst.
    change ((p :: good) ++ bad :: rest)%list with (p :: (good ++ bad :: rest))%list.
    cbn [load_loop]. unfold bindIO, image_open, emit. unfold bindIO at 1.
    rewrite Hdec. unfold ret, lift.
    destruct (Z.eqb_spec i 0); [lia|]. rewrite Hout.
    rewrite (IH (i + 1) (acc ++ [out])%list (t ++ [EvOpen p])%list ltac:(lia) Hrest Hbad).
    cbn [map app]. rewrite <- !app_assoc. reflexivity.
Qed.

(** The canvas of a run that begins with a file that fits. *)
Lemma resolved_canvas_first W p rest target img out :
  decode W p = Some img ->
  fit_to_canvas W img (resolved_canvas W (p :: rest) target) true transparent = Ok out ->
  resolved_canvas W (p :: rest) target
    = Some (match target with Some s => s | None => size img end).
Proof.
  intros Hdec _. unfold resolved_canvas. rewrite Hdec. destruct target; reflexivity.
Qed.

Lemma load_frames_run W paths target t :
  Forall (fits_canvas W (resolved_canvas W paths target)) paths ->
  exists frames,
    load_frames W paths target t = (Ok frames, (t ++ map EvOpen paths)%list) /\
    List.length frames = List.length paths /\
    Forall (fun f => Some (size f) = resolved_canvas W paths target) frames.
Proof.
  intros Hall. unfold load_frames. destruct paths as [|p rest].
  - cbn. unfold ret. rewrite app_nil_r. exists []. repeat split. constructor.
  - inversion Hall as [|? ? (img & out & Hdec & Hout) Hrest]; subst.
    pose proof (resolved_canvas_first W p rest target img out Hdec Hout) as Hres.
    rewrite Hres in *. clear Hres.
    set (canvas := match target with Some s => s | None => size img end) in *.
    cbn [load_loop]. unfold bindIO, image_open, emit. unfold bindIO at 1.
    rewrite Hdec. unfold ret, lift. cbn [Z.eqb]. fold canvas. rewrite Hout.
    destruct (load_loop_run W target canvas rest (0 + 1) ([] ++ [out])%list
                (t ++ [EvOpen p])%list ltac:(lia) Hrest) as (frames & Hrun).
    rewrite Hrun. exists frames. cbn [map]. rewrite <- app_assoc.
    split; [reflexivity|].
    apply load_loop_sizes in Hrun; [|lia].
    destruct Hrun as (new & -> & Hlen & Hsizes).
    cbn [app List.length]. split; [lia|].
    constructor; [|assumption].
    symmetry. eapply fit_to_canvas_size. eassumption.
Qed.

Lemma load_frames_stops_run W good bad rest target t :
  Forall (fits_canvas W (resolved_canvas W (good ++ bad :: rest) target)) good ->
  decode W bad = None ->
  load_frames W (good ++ bad :: rest) target t
    = (Raise (UnidentifiedImageError bad),
       (t ++ map EvOpen good ++ [EvOpen bad])%list).
Proof.
  intros Hgood Hbad. unfold load_frames.
  destruct good as [|p good].
  - cbn [app load_loop map]. unfold bindIO, image_open, emit. unfold bindIO at 1.
    rewrite Hbad. reflexivity.
  - change ((p :: good) ++ bad :: rest)%list with (p :: (good ++ bad :: rest))%list in *.
    inversion Hgood as [|? ? (img & out & Hdec & Hout) Hrest]; subst.
    pose proof (resolved_canvas_first W p _ target img out Hdec Hout) as Hres.
    rewrite Hres in *. clear Hres.
    set (canvas := match target with Some s => s | None => size img end) in *.
    cbn [load_loop]. unfold bindIO, image_open, emit. unfold bindIO at 1.
    rewrite Hdec. unfold ret, lift. cbn [Z.eqb]. fold canvas. rewrite Hout.
    rewrite (load_loop_stops W target canvas bad rest good (0 + 1) ([] ++ [out])%list
               (t ++ [EvOpen p])%list ltac:(lia) Hrest Hbad).
    cbn [map app]. rewrite <- !app_assoc. reflexivity.
Qed.

(** X14. load_frames stops at the first file that does not decode: when the
    files before it decode and fit the canvas, it raises the decoder's
    error for that file, returns no frame, and has opened the files
    before it and that file, none of those after it. *)
Theorem load_frames_stops_at_undecodable W good bad rest target t :
  Forall (fits_canvas W (resolved_canvas W (good ++ bad :: rest) target)) good ->
  decode W bad = None ->
  load_frames W (good ++ bad :: rest) target t
    = (Raise (UnidentifiedImageError bad),
       (t ++ map EvOpen good ++ [EvOpen bad])%list).
Proof. apply load_frames_stops_run. Qed.

Lemma load_frames_stops_at_undecodable_witness :
  load_frames Samples.folder_world
      ["frames/img1.png"; "frames/notes.png"; "frames/img2.png"]%string
      (Some (60, 60)) []
    = (Raise (UnidentifiedImageError "frames/notes.png"),
       [EvOpen "frames/img1.png"; EvOpen "frames/notes.png"]).
Proof.
  apply (load_frames_stops_at_undecodable Samples.folder_world
           ["frames/img1.png"%string] "frames/notes.png" ["frames/img2.png"%string]
           (Some (60, 60)) []).
  - repeat constructor. eexists _, _. split; [reflexivity|].
    vm_compute. reflexivity.
  - reflexivity.
Defined.

(** X15. Without an explicit size the first image sets the canvas, so the first
    frame shows the first image unchanged: same size, same pixels. *)
Theorem load_frames_first_frame_unchanged W p rest img frames t t' :
  decode W p = Some img -> 1 <= width img -> 1 <= height img ->
  load_frames W (p :: rest) None t = (Ok frames, t') ->
  exists first more, frames = first :: more /\ same_pixels first img.
Proof.
  intros Hdec Hw Hh Hrun. unfold load_frames in Hrun.
  cbn [load_loop] in Hrun. unfold bindIO, image_open, emit in Hrun.
  unfold bindIO at 1 in Hrun. rewrite Hdec in Hrun.
  unfold ret, lift in Hrun. cbn [Z.eqb] in Hrun.
  destruct (fit_to_canvas W img (Some (size img)) true transparent) as [out|] eqn:Hout;
    [|discriminate].
  assert (Hvalid : valid_size (size img)).
  { pose proof Hout as Hfit. unfold fit_to_canvas in Hfit.
    destruct (fit_geometry (size img) (size img)) as [[[nw nh] [ox oy]]|];
      [|discriminate].
    cbn [bind] in Hfit.
    destruct (resize W img (nw, nh)) as [resized|]; [|discriminate].
    cbn [bind] in Hfit.
    destruct (image_new (size img) transparent) as [blank|] eqn:Hnew; [|discriminate].
    apply image_new_size in Hnew. unfold size in Hnew. cbn [fst snd] in Hnew.
    split; cbn [size fst snd]; lia. }
  destruct (fit_to_canvas_same_size_once W img transparent Hvalid)
    as (out' & Hout' & Hsame).
  rewrite Hout in Hout'. injection Hout' as <-.
  apply load_loop_sizes in Hrun; [|lia].
  destruct Hrun as (new & -> & _).
  exists out, new. split; [reflexivity|assumption].
Qed.

Lemma load_frames_first_frame_unchanged_witness :
  exists frames first more,
    fst (load_frames Samples.folder_world
           ["frames/img2.png"; "frames/img1.png"]%string None []) = Ok frames /\
    frames = first :: more /\
    same_pixels first (Samples.flat 80 40 (0, 255, 0, 255)).
Proof.
  destruct (load_frames Samples.folder_world
              ["frames/img2.png"; "frames/img1.png"]%string None []) as [r t'] eqn:Hrun.
  destruct r as [frames|e]; [|vm_compute in Hrun; discriminate].
  destruct (load_frames_first_frame_unchanged Samples.folder_world "frames/img2.png"
              ["frames/img1.png"%string] (Samples.flat 80 40 (0, 255, 0, 255))
              frames [] t') as (first & more & Hfr & Hsame).
  - reflexivity.
  - vm_compute. discriminate.
  - vm_compute. discriminate.
  - exact Hrun.
  - exists frames, first, more. split; [reflexivity|]. split; assumption.
Defined.
(* ================================================================== *)
(** * make_gif_from_folder: whole runs *)
(* ================================================================== *)

(** The canvas of a run is one of the candidates. *)
Lemma resolved_canvas_candidate W size matched paths p rest img :
  paths = p :: rest -> (forall q, In q paths -> In q matched) ->
  decode W p = Some img ->
  exists canvas,
    resolved_canvas W paths size = Some canvas /\
    canvas_candidate W size matched canvas.
Proof.
  intros -> Hin Hdec. unfold resolved_canvas, canvas_candidate. rewrite Hdec.
  destruct size as [s|]; cbn [option_map].
  - exists s. split; reflexivity.
  - exists (Pillow.size img). split; [reflexivity|].
    exists p, img. split; [apply Hin; left; reflexivity|]. split; [assumption|reflexivity].
Qed.

Lemma fits_resolved_canvas W size matched paths good :
  fits_when_decoded W size matched ->
  (forall q, In q paths -> In q matched) ->
  (forall q, In q good -> In q paths) ->
  (forall p rest, paths = p :: rest -> good <> [] -> In p good) ->
  Forall (fun q => decode W q <> None) good ->
  Forall (fits_canvas W (resolved_canvas W paths size)) good.
Proof.
  intros Hfits Hin Hgood Hfirst Hdec.
  destruct good as [|g good']; [constructor|].
  destruct paths as [|p rest]; [exfalso; apply (Hgood g); left; reflexivity|].
  assert (Hp : In p (g :: good')) by (apply (Hfirst p rest eq_refl); discriminate).
  rewrite Forall_forall in Hdec.
  destruct (decode W p) as [img|] eqn:Hdp; [|exfalso; apply (Hdec p Hp); assumption].
  destruct (resolved_canvas_candidate W size matched (p :: rest) p rest img eq_refl Hin Hdp)
    as (canvas & Hres & Hcand).
  rewrite Hres. apply Forall_forall. intros q Hq.
  destruct (decode W q) as [imq|] eqn:Hdq; [|exfalso; apply (Hdec q Hq); assumption].
  destruct (Hfits canvas q imq Hcand (Hin q (Hgood q Hq)) Hdq) as (out & Hout).
  exists imq, out. split; assumption.
Qed.

Lemma make_gif_from_folder_run
    W input_dir output_gif fps duration_ms size loop t d :
  let matched :=
    List.concat (map (fun pat => glob W (path_join input_dir pat)) default_patterns) in
  matched <> [] ->
  Forall (fun p => no_superscript p = true) matched ->
  Forall (fun p => decode W p <> None) matched ->
  fits_when_decoded W size matched ->
  (forall sz, size = Some sz -> 1 <= fst sz /\ 1 <= snd sz) ->
  writable W output_gif = true ->
  resolve_duration fps duration_ms = Ok d ->
  exists paths frames,
    Permutation matched paths /\ StronglySorted natural_le paths /\
    List.length frames = List.length paths /\
    Forall (fun f => Some (Pillow.size f) = resolved_canvas W paths size) frames /\
    make_gif_from_folder W input_dir output_gif fps duration_ms size loop t
      = (Ok tt,
         (t ++ map (fun pat => EvGlob (path_join input_dir pat)) default_patterns
            ++ [EvPrintPaths paths] ++ map EvOpen paths
            ++ [EvSave output_gif (mk_gif (map (quantize W) frames) d loop true 2);
                EvPrintSaved (Z.of_nat (List.length frames)) output_gif])%list).
Proof.
  intros matched Hne Hplain Hdec Hfits _ Hwr Hdur.
  destruct (collect_image_paths_run W input_dir default_patterns t Hplain)
    as (paths & Hcollect & Hperm & Hsorted).
  fold matched in Hperm.
  assert (Hin : forall q, In q paths -> In q matched).
  { intros q Hq. eapply Permutation_in; [apply Permutation_sym; exact Hperm|assumption]. }
  assert (Hdec' : Forall (fun p => decode W p <> None) paths)
    by (eapply Permutation_Forall; eassumption).
  assert (Hall : Forall (fits_canvas W (resolved_canvas W paths size)) paths).
  { apply (fits_resolved_canvas W size matched paths paths); try assumption.
    - auto.
    - intros p rest -> _. left. reflexivity. }
  destruct (load_frames_run W paths size
              ((t ++ map (fun pat => EvGlob (path_join input_dir pat)) default_patterns)
                 ++ [EvPrintPaths paths])%list Hall)
    as (frames & Hload & Hlen & Hsizes).
  exists paths, frames.
  split; [assumption|]. split; [assumption|]. split; [assumption|].
  split; [assumption|].
  unfold make_gif_from_folder. unfold bindIO at 1. rewrite Hcollect.
  unfold bindIO at 1. unfold emit at 1.
  destruct paths as [|p rest].
  { exfalso. apply Hne. apply Permutation_sym, Permutation_nil in Hperm. assumption. }
  unfold bindIO at 1. unfold lift. rewrite Hdur.
  unfold bindIO at 1. rewrite Hload.
  destruct frames as [|f more]; [discriminate|].
  unfold bindIO, save_gif. rewrite Hwr. unfold emit.
  rewrite <- !app_assoc. reflexivity.
Qed.



(** ** Runs that fail *)




(** X18. The duration is settled before any file is opened: when the division
    of line 78 raises, the run ends with that error right after the scan
    and the print of the paths. *)
Theorem make_gif_from_folder_bad_fps
    W input_dir output_gif fps duration_ms size loop t e :
  let matched :=
    List.concat (map (fun pat => glob W (path_join input_dir pat)) default_patterns) in
  matched <> [] ->
  Forall (fun p => no_superscript p = true) matched ->
  resolve_duration fps duration_ms = Raise e ->
  exists paths,
    Permutation matched paths /\
    make_gif_from_folder W input_dir output_gif fps duration_ms size loop t
      = (Raise e,
         (t ++ map (fun pat => EvGlob (path_join input_dir pat)) default_patterns
            ++ [EvPrintPaths paths])%list).
Proof.
  intros matched Hne Hplain Hdur.
  destruct (collect_image_paths_run W input_dir default_patterns t Hplain)
    as (paths & Hcollect & Hperm & _).
  fold matched in Hperm.
  exists paths. split; [assumption|].
  unfold make_gif_from_folder. unfold bindIO at 1. rewrite Hcollect.
  unfold bindIO at 1. unfold emit at 1.
  destruct paths as [|p rest].
  { exfalso. apply Hne. apply Permutation_sym, Permutation_nil in Hperm. assumption. }
  unfold bindIO at 1. unfold lift. rewrite Hdur.
  rewrite <- !app_assoc. reflexivity.
Qed.

(** fps = 5e-324, the smallest positive float: 1000 / fps is infinite. *)
Lemma make_gif_from_folder_bad_fps_witness :
  exists paths,
    make_gif_from_folder Samples.folder_world "frames" "output.gif"
        (Some (Float (S754_finite false 1 (-1074)))) None None 0 []
      = (Raise OverflowError,
         (map (fun pat => EvGlob (path_join "frames" pat)) default_patterns
            ++ [EvPrintPaths paths])%list).
Proof.
  destruct (make_gif_from_folder_bad_fps Samples.folder_world "frames" "output.gif"
              (Some (Float (S754_finite false 1 (-1074)))) None None 0 [] OverflowError)
    as (paths & _ & Hrun).
  - vm_compute. discriminate.
  - vm_compute. repeat constructor.
  - vm_compute. reflexivity.
  - exists paths. exact Hrun.
Defined.
(* ================================================================== *)
(** * resolve_duration: the range of the derived duration *)
(* ================================================================== *)

Lemma SFdiv_core_nonneg m1 e1 m2 e2 :
  0 <= fst (fst (SFdiv_core_binary prec emax (Zpos m1) e1 (Zpos m2) e2)).
Proof.
  unfold SFdiv_core_binary.
  set (s := e1 - e2 - _).
  set (m' := match s with Z.pos _ => Z.shiftl (Zpos m1) s | Z0 => Zpos m1 | Z.neg _ => 0 end).
  assert (Hm : 0 <= m').
  { unfold m'. destruct s; try lia. apply Z.shiftl_nonneg. lia. }
  pose proof (Z_div_mod m' (Zpos m2) ltac:(lia)) as Hdm.
  destruct (Z.div_eucl m' (Zpos m2)) as [q r]. cbn [fst].
  destruct Hdm as [Hq Hr]. nia.
Qed.

(** A quotient of two positive finite floats is zero, positive or
    positive infinity. *)
Lemma fdiv_positive m1 e1 m2 e2 :
  fdiv (S754_finite false m1 e1) (S754_finite false m2 e2) = S754_zero false \/
  (exists m e, fdiv (S754_finite false m1 e1) (S754_finite false m2 e2)
               = S754_finite false m e) \/
  fdiv (S754_finite false m1 e1) (S754_finite false m2 e2) = S754_infinity false.
Proof.
  unfold fdiv, SFdiv.
  pose proof (SFdiv_core_nonneg m1 e1 m2 e2) as Hq.
  destruct (SFdiv_core_binary prec emax (Zpos m1) e1 (Zpos m2) e2) as [[q e] l].
  cbn [fst] in Hq. cbn [xorb]. rewrite binary_round_aux_core.
  destruct (round_core q e l) as [mz ez] eqn:Hrc.
  destruct (round_core_upper q e l mz ez Hq Hrc) as (Hmz & _).
  unfold pack. cbn [fst snd]. destruct mz as [|pm|pm]; try lia.
  - left. reflexivity.
  - destruct (ez <=? emax - prec); [right; left; eexists _, _; reflexivity|].
    right. right. reflexivity.
Qed.

(** X19. The duration derived from a positive fps is never negative, and at
    most 1000 for an integer fps; the derivation can fail in one way only,
    with OverflowError, for a float fps so small that 1000 / fps is
    infinite. *)
Theorem resolve_duration_never_negative f d :
  number_gt0 f = true ->
  (exists n, resolve_duration (Some f) d = Ok n /\ 0 <= n /\
             (forall z, f = Int z -> n = 1000 / z /\ n <= 1000)) \/
  (exists x, f = Float x /\ fdiv f1000 x = S754_infinity false /\
             resolve_duration (Some f) d = Raise OverflowError).
Proof.
  intros Hf. rewrite resolve_duration_positive by assumption.
  destruct f as [z|x]; cbn [number_gt0] in Hf.
  - apply Z.ltb_lt in Hf. left. exists (1000 / z).
    cbn [int_div_number]. rewrite int_truediv_1000_floor by assumption.
    split; [reflexivity|]. split; [apply Z.div_pos; lia|].
    intros z' [= <-]. split; [reflexivity|].
    apply Z.div_le_upper_bound; nia.
  - cbn [int_div_number]. change (float_of_int 1000) with (Ok f1000). cbn [bind].
    rewrite float_gt0_not_zero by assumption. cbn [bind].
    destruct x as [[]|[]| |[] m e]; try discriminate.
    + left. exists 0. split; [reflexivity|]. split; [lia|]. intros z [=].
    + destruct (fdiv_positive 8796093022208000 (-43) m e) as [Hz|[(m' & e' & Hp)|Hi]];
        unfold f1000.
      * left. exists 0. rewrite Hz. split; [reflexivity|]. split; [lia|]. intros z [=].
      * left. exists (trunc_mag m' e'). rewrite Hp. split; [reflexivity|].
        split; [apply trunc_mag_nonneg|]. intros z [=].
      * right. eexists. split; [reflexivity|]. split; [exact Hi|].
        rewrite Hi. reflexivity.
Qed.

Lemma resolve_duration_never_negative_witness :
  (exists n, resolve_duration (Some (Int 24)) (Some 500) = Ok n /\ 0 <= n <= 1000) /\
  (exists n, resolve_duration (Some (Float (S754_infinity false))) None = Ok n /\ 0 <= n).
Proof.
  split.
  - destruct (resolve_duration_never_negative (Int 24) (Some 500) eq_refl)
      as [(n & Hn & H0 & Hz)|(x & Hx & _)]; [|discriminate].
    exists n. split; [exact Hn|]. destruct (Hz 24 eq_refl) as [_ H1000].
    split; assumption.
  - destruct (resolve_duration_never_negative (Float (S754_infinity false)) None eq_refl)
      as [(n & Hn & H0 & _)|(x & Hx & Hinf & _)].
    + exists n. split; assumption.
    + injection Hx as <-. vm_compute in Hinf. discriminate.
Defined.

(* ================================================================== *)
(** * The script run as a program *)
(* ================================================================== *)

Lemma make_gif_no_images_run W input_dir output_gif fps duration_ms size loop t :
  (forall pat, In pat default_patterns -> glob W (path_join input_dir pat) = []) ->
  make_gif_from_folder W input_dir output_gif fps duration_ms size loop t
    = (Raise (FileNotFoundError (no_images_msg input_dir)),
       (t ++ map (fun pat => EvGlob (path_join input_dir pat)) default_patterns
          ++ [EvPrintPaths []])%list).
Proof.
  intros Hempty.
  unfold make_gif_from_folder, collect_image_paths, bindIO.
  rewrite glob_all_run. unfold lift.
  assert (Hnone : List.concat (map (fun pat => glob W (path_join input_dir pat))
                            default_patterns) = []).
  { cbn [default_patterns map List.concat].
    rewrite !Hempty by (cbn; auto 10). reflexivity. }
  rewrite Hnone. cbn [app].
  change (sorted natural_sort_key []) with (@Ok (list string) []).
  cbv beta iota. unfold emit, throw.
  rewrite <- app_assoc. reflexivity.
Qed.

(** X20. The program makes two GIFs, one per folder, each at 500 ms per frame
    on a 352x371 canvas with an endless loop.  When both folders hold
    files that decode to images that can be put on that canvas, with names
    free of superscript digits, and both outputs can be written, it writes
    the two files, animation1.gif before animation2.gif, every frame
    352x371.  When the first folder has no image it stops with the
    no-images error of that folder and the second folder is not even
    scanned. *)
Theorem main_two_folders W t :
  let matched dir :=
    List.concat (map (fun pat => glob W (path_join dir pat)) default_patterns) in
  let usable dir :=
    matched dir <> [] /\
    Forall (fun p => no_superscript p = true) (matched dir) /\
    Forall (fits_canvas W (Some (352, 371))) (matched dir) in
  (usable "test_images1"%string -> usable "test_images2"%string ->
   writable W "animation1.gif" = true -> writable W "animation2.gif" = true ->
   exists paths1 frames1 paths2 frames2,
     Permutation (matched "test_images1"%string) paths1 /\
     Permutation (matched "test_images2"%string) paths2 /\
     List.length frames1 = List.length paths1 /\
     List.length frames2 = List.length paths2 /\
     Forall (fun f => size f = (352, 371)) (frames1 ++ frames2) /\
     main W t
       = (Ok tt,
          (t ++ map (fun pat => EvGlob (path_join "test_images1" pat)) default_patterns
             ++ [EvPrintPaths paths1] ++ map EvOpen paths1
             ++ [EvSave "animation1.gif"
                   (mk_gif (map (quantize W) frames1) 500 0 true 2);
                 EvPrintSaved (Z.of_nat (List.length frames1)) "animation1.gif"]
             ++ map (fun pat => EvGlob (path_join "test_images2" pat)) default_patterns
             ++ [EvPrintPaths paths2] ++ map EvOpen paths2
             ++ [EvSave "animation2.gif"
                   (mk_gif (map (quantize W) frames2) 500 0 true 2);
                 EvPrintSaved (Z.of_nat (List.length frames2)) "animation2.gif"])%list)) /\
  ((forall pat, In pat default_patterns ->
      glob W (path_join "test_images1" pat) = []) ->
   main W t
     = (Raise (FileNotFoundError "No images found in test_images1"),
        (t ++ map (fun pat => EvGlob (path_join "test_images1" pat)) default_patterns
           ++ [EvPrintPaths []])%list)).
Proof.
  intros matched usable. split.
  - intros (Hne1 & Hplain1 & Hfit1) (Hne2 & Hplain2 & Hfit2) Hw1 Hw2.
    assert (Hrun : forall dir out t0,
              matched dir <> [] ->
              Forall (fun p => no_superscript p = true) (matched dir) ->
              Forall (fits_canvas W (Some (352, 371))) (matched dir) ->
              writable W out = true ->
              exists paths frames,
                Permutation (matched dir) paths /\
                List.length frames = List.length paths /\
                Forall (fun f => size f = (352, 371)) frames /\
                make_gif_from_folder W dir out None (Some 500) (Some (352, 371)) 0 t0
                  = (Ok tt,
                     (t0 ++ map (fun pat => EvGlob (path_join dir pat)) default_patterns
                        ++ [EvPrintPaths paths] ++ map EvOpen paths
                        ++ [EvSave out (mk_gif (map (quantize W) frames) 500 0 true 2);
                            EvPrintSaved (Z.of_nat (List.length frames)) out])%list)).
    { intros dir out t0 Hne Hplain Hfit Hw.
      assert (Hdec : Forall (fun p => decode W p <> None) (matched dir)).
      { eapply Forall_impl; [|exact Hfit]. intros p (img & o & Hd & _). congruence. }
      assert (Hfits : fits_when_decoded W (Some (352, 371)) (matched dir)).
      { intros canvas p img Hc Hp Hd. cbn in Hc. subst canvas.
        rewrite Forall_forall in Hfit. destruct (Hfit p Hp) as (img' & o & Hd' & Ho).
        rewrite Hd in Hd'. injection Hd' as <-. exists o. assumption. }
      assert (Hpos : forall sz, Some (352, 371) = Some sz -> 1 <= fst sz /\ 1 <= snd sz).
      { intros sz [= <-]. split; vm_compute; discriminate. }
      destruct (make_gif_from_folder_run W dir out None (Some 500)
                  (Some (352, 371)) 0 t0 500 Hne Hplain Hdec Hfits Hpos Hw eq_refl)
        as (paths & frames & Hperm & _ & Hlen & Hsz & Hrun).
      exists paths, frames. split; [assumption|]. split; [assumption|].
      split; [|assumption].
      eapply Forall_impl; [|exact Hsz]. intros f Hf. cbn in Hf. congruence. }
    destruct (Hrun "test_images1"%string "animation1.gif"%string t Hne1 Hplain1 Hfit1 Hw1)
      as (paths1 & frames1 & Hperm1 & Hlen1 & Hsz1 & Hrun1).
    match type of Hrun1 with _ = (_, ?t1) =>
      destruct (Hrun "test_images2"%string "animation2.gif"%string t1
                  Hne2 Hplain2 Hfit2 Hw2)
        as (paths2 & frames2 & Hperm2 & Hlen2 & Hsz2 & Hrun2)
    end.
    exists paths1, frames1, paths2, frames2.
    split; [assumption|]. split; [assumption|]. split; [assumption|].
    split; [assumption|]. split.
    + apply Forall_app. split; assumption.
    + unfold main, bindIO. rewrite Hrun1, Hrun2.
      rewrite <- !app_assoc. reflexivity.
  - intros Hempty. unfold main, bindIO.
    rewrite (make_gif_no_images_run W "test_images1" "animation1.gif" None (Some 500)
               (Some (352, 371)) 0 t Hempty).
    reflexivity.
Qed.

Lemma main_two_folders_witness :
  fst (main Samples.program_world []) = Ok tt /\
  main Samples.empty_world []
    = (Raise (FileNotFoundError "No images found in test_images1"),
       (map (fun pat => EvGlob (path_join "test_images1" pat)) default_patterns
          ++ [EvPrintPaths []])%list).
Proof.
  assert (Hfit : forall p, fits_canvas Samples.program_world (Some (352, 371)) p).
  { intros p. eexists _, _. split; [reflexivity|]. vm_compute. reflexivity. }
  split.
  - destruct (main_two_folders Samples.program_world []) as [Hboth _].
    destruct Hboth as (p1 & f1 & p2 & f2 & _ & _ & _ & _ & _ & Hrun).
    + split; [vm_compute; discriminate|]. split; [vm_compute; repeat constructor|].
      apply Forall_forall. intros p _. apply Hfit.
    + split; [vm_compute; discriminate|]. split; [vm_compute; repeat constructor|].
      apply Forall_forall. intros p _. apply Hfit.
    + reflexivity.
    + reflexivity.
    + rewrite Hrun. reflexivity.
  - apply (main_two_folders Samples.empty_world []).
    intros pat _. reflexivity.
Defined.
